(** * The transport layer of the logger: a shallow embedding

  The development follows [src/transports/base.transport.ts],
  [http.transport.ts], [websocket.transport.ts], [file.transport.ts] and
  [console.transport.ts].  Each transport is a record of its private
  fields; every method is a function that takes the transport and the
  world and returns the new transport and the new world.  The world holds
  what the methods share with their surroundings: the heap of entry
  objects, the file system, the pending timers' counter and the trace of
  the calls made to the platform (console, fetch, fs, WebSocket). *)

From Stdlib Require Import ZArith Ascii String DecimalPos DecimalZ DecimalString.
From stdpp Require Import gmap strings list.

Local Open Scope Z_scope.

(** ** JavaScript values and coercions used by the transports *)

Module Js.

(** [meta] is typed [any]. *)
#[local] Unset Elimination Schemes.
Inductive value :=
| Undefined
| Null
| Bool (b : bool)
| Number (n : Z)
| Str (s : string)
| Arr (items : list value)
| Obj (fields : list (string * value)).
#[local] Set Elimination Schemes.

(** ToBoolean *)
Definition truthy (v : value) : bool :=
  match v with
  | Undefined | Null => false
  | Bool b => b
  | Number n => negb (n =? 0)
  | Str s => negb (String.eqb s "")
  | Arr _ | Obj _ => true
  end.

Definition of_string (o : option string) : value :=
  match o with Some s => Str s | None => Undefined end.

Definition of_number (o : option Z) : value :=
  match o with Some n => Number n | None => Undefined end.

Definition of_bool (o : option bool) : value :=
  match o with Some b => Bool b | None => Undefined end.

(** [x || d] on an optional number and on an optional string *)
Definition number_or (o : option Z) (d : Z) : Z :=
  match o with
  | Some n => if truthy (Number n) then n else d
  | None => d
  end.

Definition string_or (o : option string) (d : string) : string :=
  match o with
  | Some s => if truthy (Str s) then s else d
  | None => d
  end.

(** One key of [{ key: default, ...options }]: the given value when the
    key is present, the default otherwise. *)
Definition spread {A} (dflt : A) (given : option A) : option A :=
  match given with
  | Some v => Some v
  | None => Some dflt
  end.

(** The line feed, [\n] in the source. *)
Definition LF : string := String "010"%char EmptyString.

(** Template-literal rendering of an integer. *)
Definition number_to_string (n : Z) : string :=
  NilZero.string_of_int (Z.to_int n).

(** Array.prototype.indexOf on an array of strings (strict equality). *)
Fixpoint indexOf_from (l : list string) (x : string) (i : Z) : Z :=
  match l with
  | [] => -1
  | y :: r => if String.eqb y x then i else indexOf_from r x (i + 1)
  end.

Definition indexOf (l : list string) (x : string) : Z := indexOf_from l x 0.

(** What a call returns: normally, or by throwing. *)
Inductive completion (A : Type) :=
| Normal (a : A)
| Throw (msg : string).
Arguments Normal {A} a.
Arguments Throw {A} msg.

(** How a promise settles. *)
Inductive settled := Resolved | Rejected (msg : string).

End Js.

(** ** Log levels *)

(** Modelled from the spec: the enumeration [LogLevel] of [src/log-level.ts],
  which is imported by every transport but is not among the sources.  The
  spec fixes the members and their order (debug < info < warn < error <
  fatal); the tests show that the members are the lower-case strings
  (["level":"info"], [entry.level.toUpperCase()]). *)
Inductive LogLevel := DEBUG | INFO | WARN | ERROR | FATAL.

Definition LogLevel_value (l : LogLevel) : string :=
  match l with
  | DEBUG => "debug"
  | INFO => "info"
  | WARN => "warn"
  | ERROR => "error"
  | FATAL => "fatal"
  end.

(** [Object.values(LogLevel)]: the member values in declaration order. *)
Definition LogLevel_values : list string :=
  map LogLevel_value [DEBUG; INFO; WARN; ERROR; FATAL].

(** [level.toUpperCase()] *)
Definition LogLevel_upper (l : LogLevel) : string :=
  match l with
  | DEBUG => "DEBUG"
  | INFO => "INFO"
  | WARN => "WARN"
  | ERROR => "ERROR"
  | FATAL => "FATAL"
  end.

(** The position of a level in the fixed ordering of the spec. *)
Definition ordinal (l : LogLevel) : Z :=
  match l with
  | DEBUG => 0
  | INFO => 1
  | WARN => 2
  | ERROR => 3
  | FATAL => 4
  end.

(** ** Entries, the heap and the world *)

Record LogEntry := {
  timestamp : string;
  level : LogLevel;
  message : string;
  meta : Js.value;
  stackTrace : option string
}.

(** Entries are objects: a transport receives a reference, and the queues
    and buffers of the transports hold references.  The heap maps a
    reference to what the object holds. *)
Definition loc := nat.
Definition Heap := loc -> LogEntry.

Definition entry_value (e : LogEntry) : Js.value :=
  Js.Obj [("timestamp", Js.Str (timestamp e));
        ("level", Js.Str (LogLevel_value (level e)));
        ("message", Js.Str (message e));
        ("meta", meta e);
        ("stackTrace", Js.of_string (stackTrace e))]%string.

Inductive FileMode := ModeA | ModeW.

(** What a path names in the file system. *)
Inductive Node := File (content : string) | Dir.

Inductive Event :=
| ConsoleLog (text : string) (color : option string)
| ConsoleError (label : string)
| Fetch (url : string) (headers : gmap string string) (body : string)
| SetTimeout (id : nat) (ms : option Z)
| ClearTimeout (id : nat)
| SetInterval (id : nat) (ms : Z)
| FsMkdir (dir : string)
| FsUnlink (path : string)
| FsRename (from to : string)
| StreamOpen (path : string) (flags : option FileMode)
| StreamWrite (path : string) (data : string)
| StreamEnd (path : string)
| WsNew (id : nat) (url : string) (protocols : option (list string))
| WsSend (id : nat) (data : string)
| WsClose (id : nat).

Record World := {
  heap : Heap;
  files : gmap string Node;
  next_id : nat;
  trace : list Event
}.

Definition emit (e : Event) (w : World) : World :=
  {| heap := heap w; files := files w;
     next_id := next_id w; trace := trace w ++ [e] |}.

Definition set_files (f : gmap string Node) (w : World) : World :=
  {| heap := heap w; files := f;
     next_id := next_id w; trace := trace w |}.

(** A fresh handle (timer or socket): the platform hands out the next id. *)
Definition fresh (w : World) : nat * World :=
  (next_id w,
   {| heap := heap w; files := files w;
      next_id := S (next_id w); trace := trace w |}).

(** [setTimeout(cb, ms)] *)
Definition setTimeout (ms : option Z) (w : World) : nat * World :=
  let '(id, w1) := fresh w in (id, emit (SetTimeout id ms) w1).

(** ** BaseTransport *)

Module BaseTransport.

(** [shouldLog(level)] with [this.options.minLevel] as first argument. *)
Definition shouldLog (minLevel : option LogLevel) (level : LogLevel) : bool :=
  if negb (Js.truthy (Js.of_string (LogLevel_value <$> minLevel))) then true
  else
    match minLevel with
    | None => true
    | Some m =>
        let levels := LogLevel_values in
        let minLevelIndex := Js.indexOf levels (LogLevel_value m) in
        let currentLevelIndex := Js.indexOf levels (LogLevel_value level) in
        currentLevelIndex >=? minLevelIndex
    end.

End BaseTransport.

(** ** HttpTransport *)

Module HttpTransport.

Record Options := {
  minLevel : option LogLevel;
  url : option string;
  headers : option (gmap string string);
  retryCount : option Z;
  retryDelay : option Z;
  batchLogs : option bool;
  batchSize : option Z;
  batchTimeout : option Z
}.

Record t := {
  options : Options;
  logQueue : list loc;
  batchTimeoutId : option nat
}.

(** The awaited [fetch]: a response with a status, or a rejection. *)
Inductive FetchOutcome := Response (status : Z) | NetworkFailure.

(** [response.ok] *)
Definition response_ok (status : Z) : bool :=
  (200 <=? status) && (status <=? 299).

(** [{ retryCount: 3, retryDelay: 1000, batchLogs: false, batchSize: 10,
      batchTimeout: 5000, ...options }] *)
Definition with_defaults (o : Options) : Options :=
  {| minLevel := minLevel o;
     url := url o;
     headers := headers o;
     retryCount := Js.spread 3 (retryCount o);
     retryDelay := Js.spread 1000 (retryDelay o);
     batchLogs := Js.spread false (batchLogs o);
     batchSize := Js.spread 10 (batchSize o);
     batchTimeout := Js.spread 5000 (batchTimeout o) |}.

Definition set_queue (q : list loc) (tr : t) : t :=
  {| options := options tr; logQueue := q; batchTimeoutId := batchTimeoutId tr |}.

Definition set_timer (id : option nat) (tr : t) : t :=
  {| options := options tr; logQueue := logQueue tr; batchTimeoutId := id |}.

(** [{ 'Content-Type': 'application/json', ...this.options.headers }] *)
Definition request_headers (tr : t) : gmap string string :=
  default ∅ (headers (options tr)) ∪ {[ "Content-Type"%string := "application/json"%string ]}.

Definition request_url (tr : t) : string := default ""%string (url (options tr)).

(** [scheduleBatch()] *)
Definition scheduleBatch (tr : t) (w : World) : t * World :=
  let w1 := match batchTimeoutId tr with
            | Some id => emit (ClearTimeout id) w
            | None => w
            end in
  let '(id, w2) := setTimeout (Some (Js.number_or (batchTimeout (options tr)) 5000)) w1 in
  (set_timer (Some id) tr, w2).

(** The constructor. *)
Definition new (o : Options) (w : World) : Js.completion (t * World) :=
  let opts := with_defaults o in
  if negb (Js.truthy (Js.of_string (url opts))) then
    Js.Throw "URL must be specified for HttpTransport"
  else
    let tr := {| options := opts; logQueue := []; batchTimeoutId := None |} in
    if Js.truthy (Js.of_bool (batchLogs opts)) then Js.Normal (scheduleBatch tr w)
    else Js.Normal (tr, w).

(** The body of a [try] once the awaited fetch has settled: a rejected
    fetch throws, and so does a response that is not ok. *)
Definition check_response (label : string) (o : FetchOutcome) : Js.completion unit :=
  match o with
  | NetworkFailure => Js.Throw "fetch failed"
  | Response status =>
      if negb (response_ok status) then Js.Throw (label +:+ Js.number_to_string status)
      else Js.Normal tt
  end.

Section WithPlatform.

(** [JSON.stringify] is the platform's. *)
Variable JSON_stringify : Js.value -> string.

(** [sendLog(entry, retryAttempt)], run to the settlement of its promise.
    [net k] is how the fetch of attempt [k] settles.  The recursion is the
    source's; [fuel] bounds its depth. *)
Fixpoint sendLog (fuel : nat) (net : Z -> FetchOutcome) (tr : t) (entry : loc)
    (retryAttempt : Z) (w : World) : option (Js.settled * World) :=
  match fuel with
  | O => None
  | S fuel' =>
      let w1 := emit (Fetch (request_url tr) (request_headers tr)
                        (JSON_stringify (entry_value (heap w entry)))) w in
      match check_response "HTTP error: " (net retryAttempt) with
      | Js.Normal _ => Some (Js.Resolved, w1)
      | Js.Throw _ =>
          let w2 := emit (ConsoleError "HTTP transport log sending failed:") w1 in
          if retryAttempt <? Js.number_or (retryCount (options tr)) 0 then
            let '(_, w3) :=
              setTimeout (Some (Js.number_or (retryDelay (options tr)) 1000)) w2 in
            sendLog fuel' net tr entry (retryAttempt + 1) w3
          else Some (Js.Resolved, w2)
      end
  end.

(** [sendBatch()] up to its [await]: the queue is copied and emptied and the
    request is issued.  The result names the batch now in flight, if any. *)
Definition sendBatch_begin (tr : t) (w : World) : option (list loc) * t * World :=
  if (length (logQueue tr) =? 0)%nat then (None, tr, w)
  else
    let batch := logQueue tr in
    let tr1 := set_queue [] tr in
    let w1 := emit (Fetch (request_url tr) (request_headers tr)
                      (JSON_stringify (Js.Arr (map (fun r => entry_value (heap w r)) batch)))) w in
    (Some batch, tr1, w1).

(** [sendBatch()] from its [await] on, once the fetch has settled as [o]. *)
Definition sendBatch_resume (batch : list loc) (o : FetchOutcome) (tr : t) (w : World)
    : t * World :=
  let '(tr1, w1) :=
    match check_response "HTTP batch error: " o with
    | Js.Normal _ => (tr, w)
    | Js.Throw _ =>
        let w1 := emit (ConsoleError "HTTP transport batch sending failed:") w in
        (set_queue (batch ++ logQueue tr) tr, w1)
    end in
  scheduleBatch tr1 w1.

(** What [log] hands back: the transport and the world after the call, the
    promise it returns (if it returns one) and the batch whose request it
    left in flight (if it started a flush). *)
Record LogResult := {
  transport : t;
  world : World;
  returned : option Js.settled;
  in_flight : option (list loc)
}.

(** [log(entry)] past its level check. *)
Definition log_admitted (fuel : nat) (net : Z -> FetchOutcome) (tr : t) (entry : loc)
    (w : World) : option LogResult :=
  if Js.truthy (Js.of_bool (batchLogs (options tr))) then
    let tr1 := set_queue (logQueue tr ++ [entry]) tr in
    if Z.of_nat (length (logQueue tr1)) >=? Js.number_or (batchSize (options tr1)) 10 then
      let '(b, tr2, w2) := sendBatch_begin tr1 w in
      Some {| transport := tr2; world := w2; returned := None; in_flight := b |}
    else Some {| transport := tr1; world := w; returned := None; in_flight := None |}
  else
    match sendLog fuel net tr entry 0 w with
    | Some (p, w') =>
        Some {| transport := tr; world := w'; returned := Some p; in_flight := None |}
    | None => None
    end.

(** [log(entry)] *)
Definition log (fuel : nat) (net : Z -> FetchOutcome) (tr : t) (entry : loc) (w : World)
    : option LogResult :=
  if negb (BaseTransport.shouldLog (minLevel (options tr)) (level (heap w entry))) then
    Some {| transport := tr; world := w; returned := None; in_flight := None |}
  else log_admitted fuel net tr entry w.

(** The callback armed by [scheduleBatch]. *)
Definition onBatchTimeout (tr : t) (w : World) : option (list loc) * t * World :=
  sendBatch_begin tr w.

(** [close()], run to the settlement of its promise; [o] is how the request
    of the final flush settles. *)
Definition close (o : FetchOutcome) (tr : t) (w : World) : t * World :=
  let '(tr1, w1) :=
    if Js.truthy (Js.of_bool (batchLogs (options tr))) && (0 <? length (logQueue tr))%nat then
      match sendBatch_begin tr w with
      | (Some batch, tr', w') => sendBatch_resume batch o tr' w'
      | (None, tr', w') => (tr', w')
      end
    else (tr, w) in
  match batchTimeoutId tr1 with
  | Some id => (set_timer None tr1, emit (ClearTimeout id) w1)
  | None => (tr1, w1)
  end.

End WithPlatform.

End HttpTransport.

(** ** WebSocketTransport *)

Module WebSocketTransport.

Inductive ReadyState := CONNECTING | OPEN | CLOSING | CLOSED.

Definition ReadyState_eqb (a b : ReadyState) : bool :=
  match a, b with
  | CONNECTING, CONNECTING | OPEN, OPEN | CLOSING, CLOSING | CLOSED, CLOSED => true
  | _, _ => false
  end.

Record Options := {
  minLevel : option LogLevel;
  url : option string;
  protocols : option (list string);
  reconnect : option bool;
  maxReconnectAttempts : option Z;
  reconnectInterval : option Z;
  sendTimeout : option Z;
  bufferWhenDisconnected : option bool;
  maxBufferSize : option Z
}.

(** The event handed to [onclose]. *)
Record CloseEvent := {
  wasClean : bool;
  code : Z;
  reason : string
}.

(** The socket object: its identity and the state the platform keeps in it. *)
Record Socket := {
  socket_id : nat;
  readyState : ReadyState
}.

Record t := {
  options : Options;
  socket : option Socket;
  buffer : list loc;
  reconnectAttempts : Z;
  reconnectTimer : option nat;
  isConnecting : bool
}.

(** [{ reconnect: true, maxReconnectAttempts: 5, reconnectInterval: 5000,
      sendTimeout: 10000, bufferWhenDisconnected: true, maxBufferSize: 100,
      ...options }] *)
Definition with_defaults (o : Options) : Options :=
  {| minLevel := minLevel o;
     url := url o;
     protocols := protocols o;
     reconnect := Js.spread true (reconnect o);
     maxReconnectAttempts := Js.spread 5 (maxReconnectAttempts o);
     reconnectInterval := Js.spread 5000 (reconnectInterval o);
     sendTimeout := Js.spread 10000 (sendTimeout o);
     bufferWhenDisconnected := Js.spread true (bufferWhenDisconnected o);
     maxBufferSize := Js.spread 100 (maxBufferSize o) |}.

Definition set_options (o : Options) (tr : t) : t :=
  {| options := o; socket := socket tr; buffer := buffer tr;
     reconnectAttempts := reconnectAttempts tr; reconnectTimer := reconnectTimer tr;
     isConnecting := isConnecting tr |}.

Definition set_socket (s : option Socket) (tr : t) : t :=
  {| options := options tr; socket := s; buffer := buffer tr;
     reconnectAttempts := reconnectAttempts tr; reconnectTimer := reconnectTimer tr;
     isConnecting := isConnecting tr |}.

Definition set_buffer (b : list loc) (tr : t) : t :=
  {| options := options tr; socket := socket tr; buffer := b;
     reconnectAttempts := reconnectAttempts tr; reconnectTimer := reconnectTimer tr;
     isConnecting := isConnecting tr |}.

Definition set_reconnectAttempts (n : Z) (tr : t) : t :=
  {| options := options tr; socket := socket tr; buffer := buffer tr;
     reconnectAttempts := n; reconnectTimer := reconnectTimer tr;
     isConnecting := isConnecting tr |}.

Definition set_reconnectTimer (id : option nat) (tr : t) : t :=
  {| options := options tr; socket := socket tr; buffer := buffer tr;
     reconnectAttempts := reconnectAttempts tr; reconnectTimer := id;
     isConnecting := isConnecting tr |}.

Definition set_isConnecting (b : bool) (tr : t) : t :=
  {| options := options tr; socket := socket tr; buffer := buffer tr;
     reconnectAttempts := reconnectAttempts tr; reconnectTimer := reconnectTimer tr;
     isConnecting := b |}.

(** [this.socket?.readyState === WebSocket.OPEN] *)
Definition socket_open (tr : t) : bool :=
  match socket tr with
  | Some s => ReadyState_eqb (readyState s) OPEN
  | None => false
  end.

(** [bufferMessage(entry)]: [shift] drops the first element (nothing on an
    empty array), [push] appends. *)
Definition bufferMessage (tr : t) (entry : loc) : t :=
  let tr1 :=
    if Js.truthy (Js.of_number (maxBufferSize (options tr)))
       && (Z.of_nat (length (buffer tr)) >=? default 0 (maxBufferSize (options tr)))
    then set_buffer (tail (buffer tr)) tr
    else tr in
  set_buffer (buffer tr1 ++ [entry]) tr1.

(** [scheduleReconnect()] *)
Definition scheduleReconnect (tr : t) (w : World) : t * World :=
  let w1 := match reconnectTimer tr with
            | Some id => emit (ClearTimeout id) w
            | None => w
            end in
  let tr1 := set_reconnectAttempts (reconnectAttempts tr + 1) tr in
  let '(id, w2) := setTimeout (reconnectInterval (options tr1)) w1 in
  (set_reconnectTimer (Some id) tr1, w2).

(** The diagnostic of [handleClose]. *)
Definition closed_message (event : CloseEvent) : string :=
  "WebSocket connection closed. Code: " +:+ Js.number_to_string (code event)
  +:+ ", Reason: " +:+ reason event
  +:+ ", Clean: " +:+ (if wasClean event then "true" else "false").

(** [handleClose(event)] *)
Definition handleClose (event : CloseEvent) (tr : t) (w : World) : t * World :=
  let w1 := emit (ConsoleLog (closed_message event) None) w in
  if Js.truthy (Js.of_bool (reconnect (options tr)))
     && (negb (Js.truthy (Js.of_number (maxReconnectAttempts (options tr))))
         || (reconnectAttempts tr <? Js.number_or (maxReconnectAttempts (options tr)) 0))
  then scheduleReconnect tr w1
  else (tr, w1).

(** [connect()]; [ctor_throws] tells whether [new WebSocket(...)] throws. *)
Definition connect (ctor_throws : bool) (tr : t) (w : World) : t * World :=
  if match socket tr with
     | Some s => ReadyState_eqb (readyState s) CONNECTING || ReadyState_eqb (readyState s) OPEN
     | None => false
     end
  then (tr, w)
  else if isConnecting tr then (tr, w)
  else
    let tr1 := set_isConnecting true tr in
    let '(tr2, w2) :=
      if ctor_throws then
        let w1 := emit (ConsoleError "Could not create WebSocket connection:") w in
        handleClose {| wasClean := false; code := 0; reason := "Connection error" |} tr1 w1
      else
        let '(id, w1) := fresh w in
        let w2 := emit (WsNew id (default ""%string (url (options tr1)))
                          (protocols (options tr1))) w1 in
        (set_socket (Some {| socket_id := id; readyState := CONNECTING |}) tr1, w2) in
    (set_isConnecting false tr2, w2).

(** The constructor. *)
Definition new (ctor_throws : bool) (o : Options) (w : World) : Js.completion (t * World) :=
  if negb (Js.truthy (Js.of_string (url o))) then
    Js.Throw "URL must be specified for WebSocketTransport"
  else
    let tr := {| options := with_defaults o; socket := None; buffer := [];
                 reconnectAttempts := 0; reconnectTimer := None;
                 isConnecting := false |} in
    Js.Normal (connect ctor_throws tr w).

(** The diagnostic of the reconnect timer. *)
Definition reconnection_message (tr : t) : string :=
  "WebSocket reconnection attempt (" +:+ Js.number_to_string (reconnectAttempts tr) +:+ "/"
  +:+ match maxReconnectAttempts (options tr) with
      | Some n => Js.number_to_string n
      | None => "undefined"
      end +:+ ")...".

(** The callback armed by [scheduleReconnect]. *)
Definition onReconnectTimer (ctor_throws : bool) (tr : t) (w : World) : t * World :=
  connect ctor_throws tr (emit (ConsoleLog (reconnection_message tr) None) w).

Section WithPlatform.

Variable JSON_stringify : Js.value -> string.

(** [sendLogEntry(entry)]; [send_throws] tells whether [socket.send] throws. *)
Definition sendLogEntry (send_throws : bool) (tr : t) (entry : loc) (w : World) : t * World :=
  match socket tr with
  | Some s =>
      if negb (ReadyState_eqb (readyState s) OPEN) then
        if Js.truthy (Js.of_bool (bufferWhenDisconnected (options tr)))
        then (bufferMessage tr entry, w) else (tr, w)
      else if send_throws then
        let w1 := emit (ConsoleError "Error sending log via WebSocket:") w in
        if Js.truthy (Js.of_bool (bufferWhenDisconnected (options tr)))
        then (bufferMessage tr entry, w1) else (tr, w1)
      else
        (tr, emit (WsSend (socket_id s) (JSON_stringify (entry_value (heap w entry)))) w)
  | None =>
      if Js.truthy (Js.of_bool (bufferWhenDisconnected (options tr)))
      then (bufferMessage tr entry, w) else (tr, w)
  end.

(** The [for (const entry of this.buffer)] loop of [sendBufferedMessages]:
    the iterator reads the live array at index [i], which [bufferMessage]
    may shift and extend while the loop runs.  [send_throws i] tells whether
    the send of iteration [i] throws. *)
Fixpoint sendBuffered_loop (fuel : nat) (send_throws : nat -> bool) (i : nat)
    (tr : t) (w : World) : option (t * World) :=
  match fuel with
  | O => None
  | S fuel' =>
      match buffer tr !! i with
      | None => Some (tr, w)
      | Some entry =>
          let '(tr1, w1) := sendLogEntry (send_throws i) tr entry w in
          sendBuffered_loop fuel' send_throws (S i) tr1 w1
      end
  end.

(** The diagnostic of [sendBufferedMessages]. *)
Definition sending_message (tr : t) : string :=
  "Sending " +:+ Js.number_to_string (Z.of_nat (length (buffer tr))) +:+ " buffered messages...".

(** [sendBufferedMessages()] *)
Definition sendBufferedMessages (fuel : nat) (send_throws : nat -> bool)
    (tr : t) (w : World) : option (t * World) :=
  if (length (buffer tr) =? 0)%nat then Some (tr, w)
  else
    let w1 := emit (ConsoleLog (sending_message tr) None) w in
    match sendBuffered_loop fuel send_throws 0 tr w1 with
    | Some (tr1, w2) => Some (set_buffer [] tr1, w2)
    | None => None
    end.

(** The diagnostic of [handleOpen]. *)
Definition established_message (tr : t) : string :=
  "WebSocket connection established: " +:+ default ""%string (url (options tr)).

(** [handleOpen()] *)
Definition handleOpen (fuel : nat) (send_throws : nat -> bool) (tr : t) (w : World)
    : option (t * World) :=
  let w1 := emit (ConsoleLog (established_message tr) None) w in
  let tr1 := set_reconnectAttempts 0 tr in
  sendBufferedMessages fuel send_throws tr1 w1.

(** The platform opens the socket: [readyState] becomes [OPEN] and
    [onopen] runs. *)
Definition socket_opens (fuel : nat) (send_throws : nat -> bool) (tr : t) (w : World)
    : option (t * World) :=
  match socket tr with
  | Some s =>
      handleOpen fuel send_throws
        (set_socket (Some {| socket_id := socket_id s; readyState := OPEN |}) tr) w
  | None => handleOpen fuel send_throws tr w
  end.

(** The platform closes the socket: [readyState] becomes [CLOSED] and
    [onclose] runs. *)
Definition socket_closes (event : CloseEvent) (tr : t) (w : World) : t * World :=
  match socket tr with
  | Some s =>
      handleClose event
        (set_socket (Some {| socket_id := socket_id s; readyState := CLOSED |}) tr) w
  | None => handleClose event tr w
  end.

(** [log(entry)] past its level check. *)
Definition log_admitted (send_throws : bool) (tr : t) (entry : loc) (w : World) : t * World :=
  if negb (socket_open tr) then
    if Js.truthy (Js.of_bool (bufferWhenDisconnected (options tr)))
    then (bufferMessage tr entry, w)
    else (tr, w)
  else sendLogEntry send_throws tr entry w.

(** [log(entry)] *)
Definition log (send_throws : bool) (tr : t) (entry : loc) (w : World) : t * World :=
  if negb (BaseTransport.shouldLog (minLevel (options tr)) (level (heap w entry))) then (tr, w)
  else log_admitted send_throws tr entry w.

End WithPlatform.

(** [close()] *)
Definition close (tr : t) (w : World) : t * World :=
  let '(tr1, w1) :=
    match reconnectTimer tr with
    | Some id => (set_reconnectTimer None tr, emit (ClearTimeout id) w)
    | None => (tr, w)
    end in
  match socket tr1 with
  | Some s =>
      let o := options tr1 in
      let tr2 := set_options
        {| minLevel := minLevel o; url := url o; protocols := protocols o;
           reconnect := Some false;
           maxReconnectAttempts := maxReconnectAttempts o;
           reconnectInterval := reconnectInterval o; sendTimeout := sendTimeout o;
           bufferWhenDisconnected := bufferWhenDisconnected o;
           maxBufferSize := maxBufferSize o |} tr1 in
      let w2 :=
        if ReadyState_eqb (readyState s) OPEN || ReadyState_eqb (readyState s) CONNECTING
        then emit (WsClose (socket_id s)) w1 else w1 in
      (set_socket None tr2, w2)
  | None => (tr1, w1)
  end.

End WebSocketTransport.

(** ** Paths and the file system *)

Module Path.

(** The suffix of [s] that starts at the last occurrence of [c]. *)
Fixpoint from_last (c : ascii) (s : string) : option string :=
  match s with
  | EmptyString => None
  | String a r =>
      match from_last c r with
      | Some x => Some x
      | None => if Ascii.eqb a c then Some s else None
      end
  end.

Definition basename (p : string) : string :=
  match from_last "/" p with
  | Some (String _ r) => r
  | _ => p
  end.

(** [path.extname(p)] of Node (POSIX), for a path that does not end in a
    separator: from the last dot of the last portion to the end, and empty
    when there is no dot, when the only dot leads the portion, and for
    [..]. *)
Definition extname (p : string) : string :=
  let b := basename p in
  match from_last "." b with
  | None => ""
  | Some x =>
      if (String.length x =? String.length b)%nat then ""
      else if String.eqb b ".." then ""
      else x
  end.

(** [path.join(dir, name)], without the normalisation Node applies. *)
Definition join (dir name : string) : string := dir +:+ "/" +:+ name.

(** [s.slice(0, e)]: a negative [e] counts from the end; [-0] is [0]. *)
Definition slice0 (s : string) (e : Z) : string :=
  let len := Z.of_nat (String.length s) in
  let k := if e <? 0 then Z.max (len + e) 0 else Z.min e len in
  substring 0 (Z.to_nat k) s.

End Path.

Module Fs.

(** [fs.existsSync(p)] *)
Definition existsSync (p : string) (w : World) : bool :=
  bool_decide (is_Some (files w !! p)).

(** [fs.statSync(p).size]; a directory counts for nothing here. *)
Definition size (p : string) (w : World) : Z :=
  match files w !! p with
  | Some (File c) => Z.of_nat (String.length c)
  | _ => 0
  end.

(** [fs.mkdirSync(p, { recursive: true })] *)
Definition mkdirSync (p : string) (w : World) : World :=
  emit (FsMkdir p) (set_files (<[ p := Dir ]> (files w)) w).

(** [fs.unlinkSync(p)]: throws unless [p] is a file. *)
Definition unlinkSync (p : string) (w : World) : Js.completion World :=
  match files w !! p with
  | Some (File _) => Js.Normal (emit (FsUnlink p) (set_files (delete p (files w)) w))
  | _ => Js.Throw "unlink failed"
  end.

(** [fs.renameSync(a, b)]: throws when [a] does not exist; what [b] named
    before is replaced. *)
Definition renameSync (a b : string) (w : World) : Js.completion World :=
  match files w !! a with
  | Some n => Js.Normal (emit (FsRename a b) (set_files (<[ b := n ]> (delete a (files w))) w))
  | None => Js.Throw "ENOENT: no such file or directory"
  end.

(** Opening a write stream at [p]: flag [a] creates the file when it is
    missing, flag [w] (Node's default) creates or empties it; a directory
    stays as it is. *)
Definition open (p : string) (flags : option FileMode) (w : World) : World :=
  let node :=
    match files w !! p, flags with
    | Some Dir, _ => Dir
    | Some (File c), Some ModeA => File c
    | _, _ => File ""
    end in
  emit (StreamOpen p flags) (set_files (<[ p := node ]> (files w)) w).

(** A completed [stream.write(data)]: the bytes reach the end of the file. *)
Definition append (p : string) (data : string) (w : World) : World :=
  let node :=
    match files w !! p with
    | Some Dir => Dir
    | Some (File c) => File (c +:+ data)
    | None => File data
    end in
  emit (StreamWrite p data) (set_files (<[ p := node ]> (files w)) w).

End Fs.

(** ** FileTransport *)

Module FileTransport.

Inductive DatePattern := Hourly | Daily | Weekly | Monthly.
Inductive Format := FormatJson | FormatText.

Record Options := {
  minLevel : option LogLevel;
  filename : option string;
  directory : option string;
  mode : option FileMode;
  maxSize : option Z;
  maxFiles : option Z;
  datePattern : option DatePattern;
  format : option Format
}.

Record WriteStream := { stream_path : string }.

Record t := {
  options : Options;
  currentSize : Z;
  currentFilePath : string;
  writeStream : option WriteStream;
  lastRotationCheck : Z;
  rotationCheckInterval : option nat
}.

(** [{ mode: 'a', maxSize: 10 * 1024 * 1024, maxFiles: 5, format: 'text',
      ...options }] *)
Definition with_defaults (o : Options) : Options :=
  {| minLevel := minLevel o;
     filename := filename o;
     directory := directory o;
     mode := Js.spread ModeA (mode o);
     maxSize := Js.spread (10 * 1024 * 1024) (maxSize o);
     maxFiles := Js.spread 5 (maxFiles o);
     datePattern := datePattern o;
     format := Js.spread FormatText (format o) |}.

Definition set_currentSize (n : Z) (tr : t) : t :=
  {| options := options tr; currentSize := n; currentFilePath := currentFilePath tr;
     writeStream := writeStream tr; lastRotationCheck := lastRotationCheck tr;
     rotationCheckInterval := rotationCheckInterval tr |}.

Definition set_writeStream (s : option WriteStream) (tr : t) : t :=
  {| options := options tr; currentSize := currentSize tr;
     currentFilePath := currentFilePath tr;
     writeStream := s; lastRotationCheck := lastRotationCheck tr;
     rotationCheckInterval := rotationCheckInterval tr |}.

Definition set_rotationCheckInterval (i : option nat) (tr : t) : t :=
  {| options := options tr; currentSize := currentSize tr;
     currentFilePath := currentFilePath tr;
     writeStream := writeStream tr; lastRotationCheck := lastRotationCheck tr;
     rotationCheckInterval := i |}.

Definition set_lastRotationCheck (now : Z) (tr : t) : t :=
  {| options := options tr; currentSize := currentSize tr;
     currentFilePath := currentFilePath tr;
     writeStream := writeStream tr; lastRotationCheck := now;
     rotationCheckInterval := rotationCheckInterval tr |}.

(** [getFilePath()] *)
Definition getFilePath (o : Options) : string :=
  let dir := Js.string_or (directory o) "" in
  let name := default ""%string (filename o) in
  if Js.truthy (Js.Str dir) then Path.join dir name else name.

(** [ensureDirectoryExists()] *)
Definition ensureDirectoryExists (tr : t) (w : World) : World :=
  match directory (options tr) with
  | Some d =>
      if Js.truthy (Js.Str d) && negb (Fs.existsSync d w) then Fs.mkdirSync d w else w
  | None => w
  end.

(** [createWriteStream()]; the stream is taken to open at once, and
    [fs.createWriteStream] does not throw. *)
Definition createWriteStream (tr : t) (w : World) : t * World :=
  let '(tr1, w1) :=
    match writeStream tr with
    | Some s => (set_writeStream None tr, emit (StreamEnd (stream_path s)) w)
    | None => (tr, w)
    end in
  let p := currentFilePath tr1 in
  (set_writeStream (Some {| stream_path := p |}) tr1, Fs.open p (mode (options tr1)) w1).

(** The name [`${basePath}.${i}${ext}`] of backup [i]. *)
Definition backup (basePath : string) (i : Z) (ext : string) : string :=
  basePath +:+ "." +:+ Js.number_to_string i +:+ ext.

(** A [try] block over the file system ends with the world it reached and,
    when a call threw, the error that the [catch] receives. *)
Definition attempt (r : Js.completion World) (w : World) : World * option string :=
  match r with
  | Js.Normal w1 => (w1, None)
  | Js.Throw m => (w, Some m)
  end.

(** The loop [for (let i = maxIndex - 1; i >= 1; i--)] of [renameOldFiles],
    entered with [i = n] and run down to [i = 1]: it stops at the first call
    that throws. *)
Fixpoint shift_backups (basePath ext : string) (n : nat) (w : World) : World * option string :=
  match n with
  | O => (w, None)
  | S k =>
      let i := Z.of_nat n in
      let oldFile := backup basePath i ext in
      let newFile := backup basePath (i + 1) ext in
      let r := if Fs.existsSync oldFile w then attempt (Fs.renameSync oldFile newFile w) w
               else (w, None) in
      match r with
      | (w1, None) => shift_backups basePath ext k w1
      | (w1, Some m) => (w1, Some m)
      end
  end.

(** [const ext = path.extname(this.currentFilePath)] *)
Definition ext_of (tr : t) : string := Path.extname (currentFilePath tr).

(** [const basePath = this.currentFilePath.slice(0, -ext.length)] *)
Definition basePath_of (tr : t) : string :=
  Path.slice0 (currentFilePath tr) (- Z.of_nat (String.length (ext_of tr))).

(** [const maxIndex = this.options.maxFiles || 5] *)
Definition maxIndex_of (tr : t) : Z := Js.number_or (maxFiles (options tr)) 5.

(** The [try] block of [renameOldFiles()]. *)
Definition renameOldFiles_try (tr : t) (w : World) : World * option string :=
  let ext := ext_of tr in
  let basePath := basePath_of tr in
  let maxIndex := maxIndex_of tr in
  let oldestFile := backup basePath maxIndex ext in
  let r := if Fs.existsSync oldestFile w then attempt (Fs.unlinkSync oldestFile w) w
           else (w, None) in
  match r with
  | (w1, None) =>
      match shift_backups basePath ext (Z.to_nat (maxIndex - 1)) w1 with
      | (w2, None) =>
          attempt (Fs.renameSync (currentFilePath tr) (backup basePath 1 ext) w2) w2
      | (w2, Some m) => (w2, Some m)
      end
  | (w1, Some m) => (w1, Some m)
  end.

(** [renameOldFiles()] *)
Definition renameOldFiles (tr : t) (w : World) : World :=
  match renameOldFiles_try tr w with
  | (w1, None) => w1
  | (w1, Some _) => emit (ConsoleError "Error during file rotation:") w1
  end.

(** [rotateFile()] *)
Definition rotateFile (tr : t) (w : World) : t * World :=
  match writeStream tr with
  | None => (tr, w)
  | Some s =>
      let w1 := emit (StreamEnd (stream_path s)) w in
      let tr1 := set_writeStream None tr in
      let w2 := renameOldFiles tr1 w1 in
      let tr2 := set_currentSize 0 tr1 in
      createWriteStream tr2 w2
  end.

(** [this.options.maxSize && this.currentSize >= this.options.maxSize] *)
Definition over_maxSize (tr : t) : bool :=
  Js.truthy (Js.of_number (maxSize (options tr)))
  && (currentSize tr >=? default 0 (maxSize (options tr))).

(** [checkFileSize()]; no call of its [try] block throws here. *)
Definition checkFileSize (tr : t) (w : World) : t * World :=
  if Fs.existsSync (currentFilePath tr) w then
    let tr1 := set_currentSize (Fs.size (currentFilePath tr) w) tr in
    if over_maxSize tr1 then rotateFile tr1 w else (tr1, w)
  else (set_currentSize 0 tr, w).

(** [getCheckIntervalFromPattern()] *)
Definition getCheckIntervalFromPattern (o : Options) : Z :=
  match datePattern o with
  | Some Hourly => 15 * 60 * 1000
  | Some Daily => 60 * 60 * 1000
  | Some Weekly | Some Monthly => 6 * 60 * 60 * 1000
  | None => 60 * 60 * 1000
  end.

(** The constructor; [now] is what [Date.now()] answers. *)
Definition new (now : Z) (o : Options) (w : World) : Js.completion (t * World) :=
  if negb (Js.truthy (Js.of_string (filename o))) then
    Js.Throw "Filename must be specified for FileTransport"
  else
    let opts := with_defaults o in
    let tr := {| options := opts; currentSize := 0; currentFilePath := getFilePath opts;
                 writeStream := None; lastRotationCheck := now;
                 rotationCheckInterval := None |} in
    let w1 := ensureDirectoryExists tr w in
    let '(tr2, w2) := checkFileSize tr w1 in
    let '(tr3, w3) := createWriteStream tr2 w2 in
    match datePattern opts with
    | Some _ =>
        let '(id, w4) := fresh w3 in
        Js.Normal (set_rotationCheckInterval (Some id) tr3,
                   emit (SetInterval id (getCheckIntervalFromPattern opts)) w4)
    | None => Js.Normal (tr3, w3)
    end.

(** [checkTimeRotation()], the callback of the rotation interval: [now] is
    what [Date.now()] answers and [due] what [shouldRotateByTime(now)]
    answers from the calendar. *)
Definition checkTimeRotation (now : Z) (due : bool) (tr : t) (w : World) : t * World :=
  if due then rotateFile (set_lastRotationCheck now tr) w else (tr, w).

Section WithPlatform.

Variable JSON_stringify : Js.value -> string.

(** The line that [log] writes. *)
Definition render (tr : t) (e : LogEntry) : string :=
  match format (options tr) with
  | Some FormatJson => JSON_stringify (entry_value e) +:+ Js.LF
  | _ =>
      let s0 := "[" +:+ timestamp e +:+ "] [" +:+ LogLevel_upper (level e) +:+ "] "
                +:+ message e in
      let s1 := if Js.truthy (meta e) then s0 +:+ " " +:+ JSON_stringify (meta e) else s0 in
      let s2 := if Js.truthy (Js.of_string (stackTrace e))
                then s1 +:+ Js.LF +:+ default ""%string (stackTrace e) else s1 in
      s2 +:+ Js.LF
  end.

(** [Buffer.byteLength(s, 'utf8')]: strings are byte strings here. *)
Definition byteLength (s : string) : Z := Z.of_nat (String.length s).

(** [log(entry)] past its level check, with the write and its callback run
    to completion; [write_fails] tells whether the callback receives an
    error. *)
Definition log_admitted (write_fails : bool) (tr : t) (entry : loc) (w : World) : t * World :=
  let '(tr1, w1) :=
    match writeStream tr with
    | None => createWriteStream tr w
    | Some _ => (tr, w)
    end in
  let logString := render tr1 (heap w1 entry) in
  match writeStream tr1 with
  | None => (tr1, w1)
  | Some s =>
      if write_fails then (tr1, emit (ConsoleError "Error writing to file:") w1)
      else
        let w2 := Fs.append (stream_path s) logString w1 in
        let tr2 := set_currentSize (currentSize tr1 + byteLength logString) tr1 in
        if over_maxSize tr2 then rotateFile tr2 w2 else (tr2, w2)
  end.

(** [log(entry)] *)
Definition log (write_fails : bool) (tr : t) (entry : loc) (w : World) : t * World :=
  if negb (BaseTransport.shouldLog (minLevel (options tr)) (level (heap w entry))) then (tr, w)
  else log_admitted write_fails tr entry w.

End WithPlatform.

(** [close()] *)
Definition close (tr : t) (w : World) : t * World :=
  let tr1 := set_rotationCheckInterval None tr in
  match writeStream tr1 with
  | Some s => (set_writeStream None tr1, emit (StreamEnd (stream_path s)) w)
  | None => (tr1, w)
  end.

End FileTransport.

(** ** ConsoleTransport *)

Module ConsoleTransport.

Inductive Format := FormatSimple | FormatJson | FormatDetailed.

Record Options := {
  minLevel : option LogLevel;
  colorize : option bool;
  showTimestamp : option bool;
  showLevel : option bool;
  levelColors : option (LogLevel -> option string);
  format : option Format
}.

Record t := { options : Options }.

Definition DEFAULT_COLORS (l : LogLevel) : string :=
  match l with
  | DEBUG => "gray"
  | INFO => "cyan"
  | WARN => "yellow"
  | ERROR => "red"
  | FATAL => "magenta"
  end.

(** The constructor. *)
Definition new (o : Options) : t :=
  {| options :=
       {| minLevel := minLevel o;
          colorize := Js.spread true (colorize o);
          showTimestamp := Js.spread true (showTimestamp o);
          showLevel := Js.spread true (showLevel o);
          levelColors := Js.spread (fun l => Some (DEFAULT_COLORS l)) (levelColors o);
          format := Js.spread FormatSimple (format o) |} |}.

(** [getColorForLevel(level)] *)
Definition getColorForLevel (tr : t) (l : LogLevel) : string :=
  Js.string_or (levelColors (options tr) ≫= fun f => f l) (DEFAULT_COLORS l).

(** [parts.join('
')] *)
Fixpoint join_lines (parts : list string) : string :=
  match parts with
  | [] => ""
  | [p] => p
  | p :: rest => p +:+ Js.LF +:+ join_lines rest
  end.

Section WithPlatform.

Variable JSON_stringify : Js.value -> string.
(** [JSON.stringify(v, null, 2)] *)
Variable JSON_stringify_indented : Js.value -> string.

(** [formatSimple(entry)] *)
Definition formatSimple (tr : t) (e : LogEntry) : string :=
  let m0 := ""%string in
  let m1 := if Js.truthy (Js.of_bool (showTimestamp (options tr)))
            then m0 +:+ "[" +:+ timestamp e +:+ "] " else m0 in
  let m2 := if Js.truthy (Js.of_bool (showLevel (options tr)))
            then m1 +:+ "[" +:+ LogLevel_upper (level e) +:+ "] " else m1 in
  let m3 := m2 +:+ message e in
  let m4 := if Js.truthy (meta e) then m3 +:+ " " +:+ JSON_stringify (meta e) else m3 in
  if Js.truthy (Js.of_string (stackTrace e))
  then m4 +:+ Js.LF +:+ default ""%string (stackTrace e) else m4.

(** [formatDetailed(entry)] *)
Definition formatDetailed (tr : t) (e : LogEntry) : string :=
  let p1 := if Js.truthy (Js.of_bool (showTimestamp (options tr)))
            then ["TIME: " +:+ timestamp e] else [] in
  let p2 := if Js.truthy (Js.of_bool (showLevel (options tr)))
            then ["LEVEL: " +:+ LogLevel_upper (level e)] else [] in
  let p3 := ["MESSAGE: " +:+ message e] in
  let p4 := if Js.truthy (meta e)
            then ["META: " +:+ JSON_stringify_indented (meta e)] else [] in
  let p5 := if Js.truthy (Js.of_string (stackTrace e))
            then ["STACK TRACE:" +:+ Js.LF +:+ default ""%string (stackTrace e)] else [] in
  join_lines (p1 ++ p2 ++ p3 ++ p4 ++ p5).

(** [log(entry)] past its level check. *)
Definition log_admitted (tr : t) (entry : loc) (w : World) : t * World :=
  let e := heap w entry in
  let logOutput :=
    match format (options tr) with
    | Some FormatJson => JSON_stringify (entry_value e)
    | Some FormatDetailed => formatDetailed tr e
    | _ => formatSimple tr e
    end in
  if Js.truthy (Js.of_bool (colorize (options tr))) then
    let colorMethod := getColorForLevel tr (level e) in
    (tr, emit (ConsoleLog logOutput (Some colorMethod)) w)
  else (tr, emit (ConsoleLog logOutput None) w).

(** [log(entry)] *)
Definition log (tr : t) (entry : loc) (w : World) : t * World :=
  if negb (BaseTransport.shouldLog (minLevel (options tr)) (level (heap w entry))) then (tr, w)
  else log_admitted tr entry w.

End WithPlatform.

End ConsoleTransport.

(** ** FileTransport: rotation by the calendar *)

Module FileTransportTime.
Import FileTransport.

(** The local-time fields of [new Date(t)]: they depend on the time zone of
    the platform, which provides them. *)
Record Calendar := {
  getHours : Z -> Z;
  getDate : Z -> Z;
  getMonth : Z -> Z;
  getFullYear : Z -> Z
}.

(** [shouldRotateByTime(now)]; instants are integral milliseconds, on which
    [Math.floor(a / b)] is the floor division. *)
Definition shouldRotateByTime (cal : Calendar) (tr : t) (now : Z) : bool :=
  match datePattern (options tr) with
  | None => false
  | Some pattern =>
      let lastDate := lastRotationCheck tr in
      let currentDate := now in
      match pattern with
      | Hourly =>
          negb (getHours cal lastDate =? getHours cal currentDate)
          || negb (getDate cal lastDate =? getDate cal currentDate)
          || negb (getMonth cal lastDate =? getMonth cal currentDate)
          || negb (getFullYear cal lastDate =? getFullYear cal currentDate)
      | Daily =>
          negb (getDate cal lastDate =? getDate cal currentDate)
          || negb (getMonth cal lastDate =? getMonth cal currentDate)
          || negb (getFullYear cal lastDate =? getFullYear cal currentDate)
      | Weekly =>
          let lastDay := lastDate / (24 * 60 * 60 * 1000) in
          let currentDay := currentDate / (24 * 60 * 60 * 1000) in
          negb (lastDay / 7 =? currentDay / 7)
      | Monthly =>
          negb (getMonth cal lastDate =? getMonth cal currentDate)
          || negb (getFullYear cal lastDate =? getFullYear cal currentDate)
      end
  end.

(** The callback of the rotation interval: [checkTimeRotation()] with the
    answer of [shouldRotateByTime]. *)
Definition onRotationInterval (cal : Calendar) (now : Z) (tr : t) (w : World) : t * World :=
  checkTimeRotation now (shouldRotateByTime cal tr now) tr w.

End FileTransportTime.

(** ** Objects: own properties in enumeration order *)

Module JsObject.

(** An object is the list of its own properties in the order in which the
    spread and [JSON.stringify] enumerate them: the array indices first,
    in ascending order, then the other keys in the order of their
    creation. *)
Definition fields := list (string * Js.value).

Fixpoint digits_value (s : string) (acc : N) : option N :=
  match s with
  | EmptyString => Some acc
  | String c r =>
      let n := N_of_ascii c in
      if ((48 <=? n) && (n <=? 57))%N then digits_value r (acc * 10 + (n - 48))%N else None
  end.

(** An array index is a canonical numeric string below [2^32 - 1]. *)
Definition array_index (k : string) : option N :=
  match k with
  | EmptyString => None
  | String "0"%char EmptyString => Some 0%N
  | String "0"%char _ => None
  | _ =>
      match digits_value k 0 with
      | Some n => if (n <? 2 ^ 32 - 1)%N then Some n else None
      | None => None
      end
  end.

(** [obj[k]] on the own properties. *)
Fixpoint get (k : string) (o : fields) : option Js.value :=
  match o with
  | [] => None
  | (k', v) :: r => if String.eqb k' k then Some v else get k r
  end.

Fixpoint replace (k : string) (v : Js.value) (o : fields) : fields :=
  match o with
  | [] => []
  | (k', v') :: r => if String.eqb k' k then (k, v) :: r else (k', v') :: replace k v r
  end.

Fixpoint insert_index (n : N) (k : string) (v : Js.value) (o : fields) : fields :=
  match o with
  | [] => [(k, v)]
  | (k', v') :: r =>
      match array_index k' with
      | Some n' => if (n' <? n)%N then (k', v') :: insert_index n k v r else (k, v) :: o
      | None => (k, v) :: o
      end
  end.

(** [obj[k] = v]: an existing property keeps its place; a new one takes
    the place that the enumeration order gives it. *)
Definition set (k : string) (v : Js.value) (o : fields) : fields :=
  match get k o with
  | Some _ => replace k v o
  | None =>
      match array_index k with
      | Some n => insert_index n k v o
      | None => o ++ [(k, v)]
      end
  end.

(** [{ ...target, ...source }] *)
Definition assign (target source : fields) : fields :=
  foldl (fun acc kv => set (fst kv) (snd kv) acc) target source.

Fixpoint indexed (i : nat) (items : list Js.value) : fields :=
  match items with
  | [] => []
  | v :: r => (Js.number_to_string (Z.of_nat i), v) :: indexed (S i) r
  end.

Fixpoint characters (i : nat) (s : string) : fields :=
  match s with
  | EmptyString => []
  | String c r =>
      (Js.number_to_string (Z.of_nat i), Js.Str (String c EmptyString)) :: characters (S i) r
  end.

(** The own enumerable properties that [...v] copies: the fields of an
    object, the elements of an array by index, the characters of a string by
    index, and nothing for the other values. *)
Definition own_properties (v : Js.value) : fields :=
  match v with
  | Js.Obj f => f
  | Js.Arr items => indexed 0 items
  | Js.Str s => characters 0 s
  | _ => []
  end.

End JsObject.

(** ** Filters *)

Module BaseFilter.

Record FilterOptions := {
  level : option LogLevel;
  levels : option (list LogLevel);
  negate : option bool
}.

(** [matchLevel(level)] with [this.options] as first argument; the members
    of [LogLevel] are strings, compared with [===]. *)
Definition matchLevel (o : FilterOptions) (l : LogLevel) : bool :=
  if Js.truthy (Js.of_string (LogLevel_value <$> level o)) then
    let result := String.eqb (LogLevel_value l) (default ""%string (LogLevel_value <$> level o)) in
    if Js.truthy (Js.of_bool (negate o)) then negb result else result
  else
    match levels o with
    | Some ls =>
        if (0 <? length ls)%nat then
          let result := existsb (fun m => String.eqb (LogLevel_value m) (LogLevel_value l)) ls in
          if Js.truthy (Js.of_bool (negate o)) then negb result else result
        else true
    | None => true
    end.

End BaseFilter.

Module LevelFilter.

(** [filter(entry)] *)
Definition filter (o : BaseFilter.FilterOptions) (entry : LogEntry) : bool :=
  BaseFilter.matchLevel o (level entry).

End LevelFilter.

(** ** Formats *)

Module BaseFormat.

Record FormatOptions := {
  showTimestamp : option bool;
  timestampFormat : option string;
  dateFormatOptions : option Js.value;
  showLevel : option bool;
  showMeta : option bool;
  metaFormat : option string;
  jsonIndent : option Z;
  timestampSeparator : option string;
  levelSeparator : option string;
  metaSeparator : option string;
  stackTraceSeparator : option string;
  indent : option Z;
  additionalFields : option JsObject.fields;
  useUnixTimestamps : option bool;
  timestampKey : option string;
  levelKey : option string;
  messageKey : option string;
  metaKey : option string;
  stackTraceKey : option string
}.

(** What the formats take from the platform: the methods of [Date] on the
    date built from a timestamp ([None] where the method throws),
    [toString] on a number, [JSON.stringify] with an indentation,
    [util.inspect] ([None] where [require('util')] or the call throws) and
    [String]. *)
Record Platform := {
  Date_toISOString : string -> option string;
  Date_getTime : string -> Js.value;
  Number_toString : Js.value -> string;
  Date_toLocaleString : string -> option Js.value -> option string;
  JSON_stringify : Js.value -> option Z -> string;
  util_inspect : Js.value -> option string;
  String_of : Js.value -> string
}.

(** The constructor: [{ showTimestamp: true, timestampFormat: 'ISO',
    showLevel: true, showMeta: true, metaFormat: 'json', jsonIndent: 0,
    ...options }] *)
Definition new (o : FormatOptions) : FormatOptions :=
  {| showTimestamp := Js.spread true (showTimestamp o);
     timestampFormat := Js.spread "ISO"%string (timestampFormat o);
     dateFormatOptions := dateFormatOptions o;
     showLevel := Js.spread true (showLevel o);
     showMeta := Js.spread true (showMeta o);
     metaFormat := Js.spread "json"%string (metaFormat o);
     jsonIndent := Js.spread 0 (jsonIndent o);
     timestampSeparator := timestampSeparator o;
     levelSeparator := levelSeparator o;
     metaSeparator := metaSeparator o;
     stackTraceSeparator := stackTraceSeparator o;
     indent := indent o;
     additionalFields := additionalFields o;
     useUnixTimestamps := useUnixTimestamps o;
     timestampKey := timestampKey o;
     levelKey := levelKey o;
     messageKey := messageKey o;
     metaKey := metaKey o;
     stackTraceKey := stackTraceKey o |}.

Section WithPlatform.

Variable pf : Platform.

(** [formatTimestamp(timestamp)]: what the [try] block returns, or the
    timestamp itself when a call of the block throws. *)
Definition formatTimestamp (o : FormatOptions) (timestamp : string) : string :=
  if negb (Js.truthy (Js.of_bool (showTimestamp o))) then ""%string
  else
    let attempt :=
      match timestampFormat o with
      | Some "ISO"%string => Date_toISOString pf timestamp
      | Some "UNIX"%string => Some (Number_toString pf (Date_getTime pf timestamp))
      | Some "LOCAL"%string => Date_toLocaleString pf timestamp None
      | _ =>
          match dateFormatOptions o with
          | Some d =>
              if Js.truthy d then Date_toLocaleString pf timestamp (Some d)
              else Date_toISOString pf timestamp
          | None => Date_toISOString pf timestamp
          end
      end in
    default timestamp attempt.

(** [formatMeta(meta)] *)
Definition formatMeta (o : FormatOptions) (meta : Js.value) : string :=
  if negb (Js.truthy meta) || negb (Js.truthy (Js.of_bool (showMeta o))) then ""%string
  else
    let attempt :=
      match metaFormat o with
      | Some "inspect"%string => util_inspect pf meta
      | _ => Some (JSON_stringify pf meta (jsonIndent o))
      end in
    default (String_of pf meta) attempt.

(** [formatStackTrace(stackTrace)] *)
Definition formatStackTrace (stackTrace : option string) : string :=
  if negb (Js.truthy (Js.of_string stackTrace)) then ""%string
  else default ""%string stackTrace.

(** [formatLevel(level)] *)
Definition formatLevel (o : FormatOptions) (l : LogLevel) : string :=
  if negb (Js.truthy (Js.of_bool (showLevel o))) then ""%string
  else LogLevel_upper l.

End WithPlatform.

End BaseFormat.

Module SimpleFormat.
Import BaseFormat.

(** The constructor: the options of the base class, with the four
    separators overridden by [options.separator || default]. *)
Definition new (o : FormatOptions) : FormatOptions :=
  let base := BaseFormat.new o in
  {| showTimestamp := showTimestamp base;
     timestampFormat := timestampFormat base;
     dateFormatOptions := dateFormatOptions base;
     showLevel := showLevel base;
     showMeta := showMeta base;
     metaFormat := metaFormat base;
     jsonIndent := jsonIndent base;
     timestampSeparator := Some (Js.string_or (timestampSeparator o) " ");
     levelSeparator := Some (Js.string_or (levelSeparator o) " ");
     metaSeparator := Some (Js.string_or (metaSeparator o) " ");
     stackTraceSeparator := Some (Js.string_or (stackTraceSeparator o) Js.LF);
     indent := indent base;
     additionalFields := additionalFields base;
     useUnixTimestamps := useUnixTimestamps base;
     timestampKey := timestampKey base;
     levelKey := levelKey base;
     messageKey := messageKey base;
     metaKey := metaKey base;
     stackTraceKey := stackTraceKey base |}.

(** A separator inside a template literal: [undefined] prints as such. *)
Definition template (s : option string) : string := default "undefined"%string s.

Section WithPlatform.

Variable pf : Platform.

(** [format(entry)] *)
Definition format (o : FormatOptions) (entry : LogEntry) : string :=
  let result := ""%string in
  let ts := formatTimestamp pf o (timestamp entry) in
  let result :=
    if Js.truthy (Js.Str ts)
    then result +:+ "[" +:+ ts +:+ "]" +:+ template (timestampSeparator o) else result in
  let lv := formatLevel o (level entry) in
  let result :=
    if Js.truthy (Js.Str lv)
    then result +:+ "[" +:+ lv +:+ "]" +:+ template (levelSeparator o) else result in
  let result := result +:+ message entry in
  let mt := formatMeta pf o (meta entry) in
  let result :=
    if Js.truthy (Js.Str mt) then result +:+ template (metaSeparator o) +:+ mt else result in
  let st := formatStackTrace (stackTrace entry) in
  if Js.truthy (Js.Str st) then result +:+ template (stackTraceSeparator o) +:+ st else result.

End WithPlatform.

End SimpleFormat.

Module JsonFormat.
Import BaseFormat.

(** The constructor: the options of the base class, with the fields of the
    JSON format overridden by [options.field || default]. *)
Definition new (o : FormatOptions) : FormatOptions :=
  let base := BaseFormat.new o in
  {| showTimestamp := showTimestamp base;
     timestampFormat := timestampFormat base;
     dateFormatOptions := dateFormatOptions base;
     showLevel := showLevel base;
     showMeta := showMeta base;
     metaFormat := metaFormat base;
     jsonIndent := jsonIndent base;
     timestampSeparator := timestampSeparator base;
     levelSeparator := levelSeparator base;
     metaSeparator := metaSeparator base;
     stackTraceSeparator := stackTraceSeparator base;
     indent := Some (Js.number_or (indent o) 0);
     additionalFields := Some (default [] (additionalFields o));
     useUnixTimestamps :=
       Some (if Js.truthy (Js.of_bool (useUnixTimestamps o)) then true else false);
     timestampKey := Some (Js.string_or (timestampKey o) "timestamp");
     levelKey := Some (Js.string_or (levelKey o) "level");
     messageKey := Some (Js.string_or (messageKey o) "message");
     metaKey := Some (Js.string_or (metaKey o) "meta");
     stackTraceKey := Some (Js.string_or (stackTraceKey o) "stackTrace") |}.

Section WithPlatform.

Variable pf : Platform.

(** The object that [format] builds before it prints it. *)
Definition logObject (o : FormatOptions) (entry : LogEntry) : JsObject.fields :=
  let obj := JsObject.assign [] (default [] (additionalFields o)) in
  let obj :=
    if Js.truthy (Js.of_bool (showTimestamp o)) then
      let timestampKey := Js.string_or (timestampKey o) "timestamp" in
      if Js.truthy (Js.of_bool (useUnixTimestamps o))
      then JsObject.set timestampKey (Date_getTime pf (timestamp entry)) obj
      else JsObject.set timestampKey (Js.Str (timestamp entry)) obj
    else obj in
  let obj :=
    if Js.truthy (Js.of_bool (showLevel o)) then
      let levelKey := Js.string_or (levelKey o) "level" in
      JsObject.set levelKey (Js.Str (LogLevel_value (level entry))) obj
    else obj in
  let messageKey := Js.string_or (messageKey o) "message" in
  let obj := JsObject.set messageKey (Js.Str (message entry)) obj in
  let obj :=
    if Js.truthy (meta entry) && Js.truthy (Js.of_bool (showMeta o)) then
      let metaKey := Js.string_or (metaKey o) "meta" in
      JsObject.set metaKey (meta entry) obj
    else obj in
  if Js.truthy (Js.of_string (stackTrace entry)) then
    let stackTraceKey := Js.string_or (stackTraceKey o) "stackTrace" in
    JsObject.set stackTraceKey (Js.Str (default ""%string (stackTrace entry))) obj
  else obj.

(** [format(entry)] *)
Definition format (o : FormatOptions) (entry : LogEntry) : string :=
  JSON_stringify pf (Js.Obj (logObject o entry)) (indent o).

End WithPlatform.

End JsonFormat.

(** ** The logger *)

Module Logger.

(** An option typed [boolean | Options]. *)
Inductive Toggle (A : Type) :=
| Flag (b : bool)
| Config (a : A).
Arguments Flag {A} b.
Arguments Config {A} a.

(** [if (this.options.console)]: an object is truthy. *)
Definition enabled {A} (o : option (Toggle A)) : bool :=
  match o with
  | Some (Flag b) => b
  | Some (Config _) => true
  | None => false
  end.

(** What [new Date()] gives when it is printed. *)
Record Now := {
  toISOString : string;
  getTime_toString : string;
  toLocaleString : string
}.

(** [a.slice(from, to)]: a negative index counts from the end. *)
Definition slice {A} (l : list A) (from to : Z) : list A :=
  let len := Z.of_nat (length l) in
  let k := if from <? 0 then Z.max (len + from) 0 else Z.min from len in
  let final := if to <? 0 then Z.max (len + to) 0 else Z.min to len in
  take (Z.to_nat (final - k)) (drop (Z.to_nat k) l).

(** The suspended calls of the asynchronous methods: each is a point at
    which a method waits and from which it goes on later. *)
Inductive Task :=
(** [writeToTransports(entry)] at [await transport.log(entry)] for the
    transport at index [i]; [drain] tells whether [processQueue] is
    waiting for it. *)
| InWrite (entry : loc) (i : nat) (drain : bool)
(** [processQueue] at [await this.writeToTransports(entry)], the call
    having come to its end. *)
| InDrain
(** [processRemainingLogs] at [await this.processQueue()]. *)
| CloseAwaitsQueue
(** The timer [setTimeout(processRemainingLogs, 100)]. *)
| CloseTimer (id : nat)
(** [processRemainingLogs] at [await transport.close()] for the transport
    at index [i]. *)
| CloseAwaitsTransport (i : nat).

(** What a method of the logger lets the outside see besides the calls it
    makes to the platform: the calls of [transport.log], the entries that
    [enqueueLogEntry] shifts out of a full queue, the warning of
    [processLog] and the settlement of the promise of [close]. *)
Inductive Observation :=
| Called (i : nat) (entry : loc)
| Evicted (entry : loc)
| ConsoleWarn (text : string)
| Closed (i : nat)
| CloseResolved
| CloseRejected.

Section WithTransports.

(** The interface [Transport]: [log] changes the transport and the world
    and tells whether it threw; [close] is optional. *)
Variable T : Type.
Variable transport_log : T -> loc -> World -> T * World * bool.
Variable transport_close : T -> option (World -> T * World * bool).
(** The default transports as members of the interface. *)
Variable of_console : ConsoleTransport.t -> T.
Variable of_file : FileTransport.t -> T.

Record LoggerOptions := {
  level : option LogLevel;
  transports_option : option (list T);
  console : option (Toggle ConsoleTransport.Options);
  file : option (Toggle FileTransport.Options);
  includeTimestamp : option bool;
  timestampFormat : option string;
  includeStackTrace : option bool;
  stackTraceLimit : option Z;
  appName : option string;
  environment : option string;
  asyncLogging : option bool;
  logQueue : option Z
}.

Record t := {
  options : LoggerOptions;
  transports : list T;
  queue : list loc;
  isProcessingQueue : bool;
  isClosed : bool
}.

(** [{ ...DEFAULT_OPTIONS, ...options }] *)
Definition with_defaults (o : LoggerOptions) : LoggerOptions :=
  {| level := Js.spread DEBUG (level o);
     transports_option := transports_option o;
     console := Js.spread (Flag true) (console o);
     file := Js.spread (Flag false) (file o);
     includeTimestamp := Js.spread true (includeTimestamp o);
     timestampFormat := Js.spread "ISO"%string (timestampFormat o);
     includeStackTrace := Js.spread false (includeStackTrace o);
     stackTraceLimit := Js.spread 10 (stackTraceLimit o);
     appName := appName o;
     environment := Js.spread "development"%string (environment o);
     asyncLogging := Js.spread false (asyncLogging o);
     logQueue := Js.spread 1000 (logQueue o) |}.

Definition set_transports (ts : list T) (lg : t) : t :=
  {| options := options lg; transports := ts; queue := queue lg;
     isProcessingQueue := isProcessingQueue lg; isClosed := isClosed lg |}.

Definition set_queue (q : list loc) (lg : t) : t :=
  {| options := options lg; transports := transports lg; queue := q;
     isProcessingQueue := isProcessingQueue lg; isClosed := isClosed lg |}.

Definition set_isProcessingQueue (b : bool) (lg : t) : t :=
  {| options := options lg; transports := transports lg; queue := queue lg;
     isProcessingQueue := b; isClosed := isClosed lg |}.

Definition set_isClosed (b : bool) (lg : t) : t :=
  {| options := options lg; transports := transports lg; queue := queue lg;
     isProcessingQueue := isProcessingQueue lg; isClosed := b |}.

(** The options of the default console transport:
    [{ minLevel: this.options.level, ...this.options.console }] for an
    object, [{ minLevel: this.options.level }] otherwise. *)
Definition consoleOptions (o : LoggerOptions) : ConsoleTransport.Options :=
  match console o with
  | Some (Config c) =>
      {| ConsoleTransport.minLevel :=
           match ConsoleTransport.minLevel c with Some m => Some m | None => level o end;
         ConsoleTransport.colorize := ConsoleTransport.colorize c;
         ConsoleTransport.showTimestamp := ConsoleTransport.showTimestamp c;
         ConsoleTransport.showLevel := ConsoleTransport.showLevel c;
         ConsoleTransport.levelColors := ConsoleTransport.levelColors c;
         ConsoleTransport.format := ConsoleTransport.format c |}
  | _ =>
      {| ConsoleTransport.minLevel := level o;
         ConsoleTransport.colorize := None;
         ConsoleTransport.showTimestamp := None;
         ConsoleTransport.showLevel := None;
         ConsoleTransport.levelColors := None;
         ConsoleTransport.format := None |}
  end.

(** The options of the default file transport. *)
Definition fileOptions (o : LoggerOptions) : FileTransport.Options :=
  match file o with
  | Some (Config f) =>
      {| FileTransport.minLevel :=
           match FileTransport.minLevel f with Some m => Some m | None => level o end;
         FileTransport.filename := FileTransport.filename f;
         FileTransport.directory := FileTransport.directory f;
         FileTransport.mode := FileTransport.mode f;
         FileTransport.maxSize := FileTransport.maxSize f;
         FileTransport.maxFiles := FileTransport.maxFiles f;
         FileTransport.datePattern := FileTransport.datePattern f;
         FileTransport.format := FileTransport.format f |}
  | _ =>
      {| FileTransport.minLevel := level o;
         FileTransport.filename := Some (Js.string_or (appName o) "app" +:+ ".log");
         FileTransport.directory := Some "./logs"%string;
         FileTransport.mode := None;
         FileTransport.maxSize := None;
         FileTransport.maxFiles := None;
         FileTransport.datePattern := None;
         FileTransport.format := None |}
  end.

(** The constructor, with [setupDefaultTransports()]; [now] is what
    [Date.now()] answers to the constructor of the file transport. *)
Definition new (now : Z) (o : LoggerOptions) (w : World) : Js.completion (t * World) :=
  let opts := with_defaults o in
  let ts0 :=
    match transports_option opts with
    | Some l => if (0 <? length l)%nat then l else []
    | None => []
    end in
  let ts1 :=
    if enabled (console opts) then ts0 ++ [of_console (ConsoleTransport.new (consoleOptions opts))]
    else ts0 in
  if enabled (file opts) then
    match FileTransport.new now (fileOptions opts) w with
    | Js.Normal (f, w1) =>
        Js.Normal ({| options := opts; transports := ts1 ++ [of_file f]; queue := [];
                      isProcessingQueue := false; isClosed := false |}, w1)
    | Js.Throw m => Js.Throw m
    end
  else
    Js.Normal ({| options := opts; transports := ts1; queue := [];
                  isProcessingQueue := false; isClosed := false |}, w).

(** [getTimestamp()] *)
Definition getTimestamp (lg : t) (now : Now) : string :=
  match timestampFormat (options lg) with
  | Some "ISO"%string => toISOString now
  | Some "UNIX"%string => getTime_toString now
  | Some "LOCAL"%string => toLocaleString now
  | _ => toISOString now
  end.

(** [getStackTrace()]; [stack] holds the lines of the stack that
    [Error.captureStackTrace] leaves in [obj.stack], if it leaves one. *)
Definition getStackTrace (lg : t) (stack : option (list string)) : option string :=
  if negb (Js.truthy (Js.of_bool (includeStackTrace (options lg)))) then None
  else
    let stackLimit := Js.number_or (stackTraceLimit (options lg)) 10 in
    match stack with
    | Some lines => Some (ConsoleTransport.join_lines (slice lines 2 (stackLimit + 2)))
    | None => None
    end.

(** [createLogEntry(level, message, meta)] *)
Definition createLogEntry (lg : t) (l : LogLevel) (message : string) (meta : Js.value)
    (now : Now) (stack : option (list string)) : LogEntry :=
  Build_LogEntry (getTimestamp lg now) l message meta
    (match l with
     | ERROR | FATAL => getStackTrace lg stack
     | _ => None
     end).

(** The new object takes the address [r] in the heap. *)
Definition alloc (r : loc) (e : LogEntry) (w : World) : World :=
  {| heap := fun x => if (x =? r)%nat then e else heap w x;
     files := files w; next_id := next_id w; trace := trace w |}.

(** What a method hands back: the logger and the world after the call,
    what it let the outside see, and the calls it left suspended. *)
Record Outcome := {
  logger : t;
  world : World;
  seen : list Observation;
  suspended : list Task
}.

(** The loop of [writeToTransports(entry)] from the transport at index [i]
    up to the next [await]: a [log] that throws is reported and the loop
    goes on; a [log] that returns suspends the loop.  The loop reads the
    array at each step; [n] bounds the transports still to visit. *)
Fixpoint writeToTransports_from (n : nat) (i : nat) (entry : loc) (lg : t) (w : World)
    : t * World * list Observation * option nat :=
  match n with
  | O => (lg, w, [], None)
  | S n' =>
      match transports lg !! i with
      | None => (lg, w, [], None)
      | Some tr =>
          let '(tr1, w1, threw) := transport_log tr entry w in
          let lg1 := set_transports (<[ i := tr1 ]> (transports lg)) lg in
          if threw then
            let w2 := emit (ConsoleError "Transport write error:") w1 in
            let '(lg2, w3, obs, r) := writeToTransports_from n' (S i) entry lg1 w2 in
            (lg2, w3, Called i entry :: obs, r)
          else (lg1, w1, [Called i entry], Some i)
      end
  end.

(** [writeToTransports(entry)] from its start, or from the [await] at index
    [i] on when [after] is [Some i]; [drain] tells whether [processQueue]
    awaits the call. *)
Definition writeToTransports (after : option nat) (entry : loc) (drain : bool)
    (lg : t) (w : World) : Outcome :=
  let start := match after with Some i => S i | None => 0%nat end in
  let '(lg1, w1, obs, r) :=
    writeToTransports_from (length (transports lg) - start) start entry lg w in
  {| logger := lg1; world := w1; seen := obs;
     suspended := match r with
                  | Some j => [InWrite entry j drain]
                  | None => if drain then [InDrain] else []
                  end |}.

(** The loop of [processQueue] at its test: the next entry is shifted out
    and written, or the loop ends and the [finally] block runs. *)
Definition processQueue_loop (lg : t) (w : World) : Outcome :=
  match queue lg with
  | [] => {| logger := set_isProcessingQueue false lg; world := w; seen := []; suspended := [] |}
  | entry :: rest => writeToTransports None entry true (set_queue rest lg) w
  end.

(** [processQueue()] up to its first [await]. *)
Definition processQueue (lg : t) (w : World) : Outcome :=
  if isProcessingQueue lg || (length (queue lg) =? 0)%nat
  then {| logger := lg; world := w; seen := []; suspended := [] |}
  else processQueue_loop (set_isProcessingQueue true lg) w.

(** [enqueueLogEntry(entry)] *)
Definition enqueueLogEntry (entry : loc) (lg : t) (w : World) : Outcome :=
  let full :=
    Js.truthy (Js.of_number (logQueue (options lg)))
    && (Z.of_nat (length (queue lg)) >=? default 0 (logQueue (options lg))) in
  let evicted := if full then option_list (head (queue lg)) else [] in
  let lg1 := if full then set_queue (tail (queue lg)) lg else lg in
  let lg2 := set_queue (queue lg1 ++ [entry]) lg1 in
  let out :=
    if negb (isProcessingQueue lg2) then processQueue lg2 w
    else {| logger := lg2; world := w; seen := []; suspended := [] |} in
  {| logger := logger out; world := world out;
     seen := map Evicted evicted ++ seen out; suspended := suspended out |}.

(** [processLog(level, message, meta)]; the entry it creates is the object
    at address [r]. *)
Definition processLog (l : LogLevel) (message : string) (meta : Js.value)
    (now : Now) (stack : option (list string)) (r : loc) (lg : t) (w : World) : Outcome :=
  if isClosed lg then
    {| logger := lg; world := w;
       seen := [ConsoleWarn "Logger is closed: Message not processed"]; suspended := [] |}
  else
    let entry := createLogEntry lg l message meta now stack in
    let w1 := alloc r entry w in
    if Js.truthy (Js.of_bool (asyncLogging (options lg))) then enqueueLogEntry r lg w1
    else writeToTransports None r false lg w1.

(** [addTransport(transport)] *)
Definition addTransport (tr : T) (lg : t) : t :=
  set_transports (transports lg ++ [tr]) lg.

(** The loop over the transports of [processRemainingLogs] from index [i]
    up to the next [await]: a transport without [close] is skipped; a
    [close] that throws rejects the call, and the promise of [close] stays
    pending. *)
Fixpoint close_from (n : nat) (i : nat) (lg : t) (w : World) : Outcome :=
  match n with
  | O => {| logger := lg; world := w; seen := [CloseResolved]; suspended := [] |}
  | S n' =>
      match transports lg !! i with
      | None => {| logger := lg; world := w; seen := [CloseResolved]; suspended := [] |}
      | Some tr =>
          match transport_close tr with
          | None => close_from n' (S i) lg w
          | Some c =>
              let '(tr1, w1, threw) := c w in
              let lg1 := set_transports (<[ i := tr1 ]> (transports lg)) lg in
              if threw
              then {| logger := lg1; world := w1; seen := [Closed i; CloseRejected];
                      suspended := [] |}
              else {| logger := lg1; world := w1; seen := [Closed i];
                      suspended := [CloseAwaitsTransport i] |}
          end
      end
  end.

(** [processRemainingLogs()] up to its first [await]. *)
Definition processRemainingLogs (lg : t) (w : World) : Outcome :=
  if (0 <? length (queue lg))%nat then
    let out := processQueue lg w in
    {| logger := logger out; world := world out; seen := seen out;
       suspended := suspended out ++ [CloseAwaitsQueue] |}
  else close_from (length (transports lg)) 0 lg w.

(** [close()] up to the first [await] of [processRemainingLogs]. *)
Definition close (lg : t) (w : World) : Outcome :=
  processRemainingLogs (set_isClosed true lg) w.

(** A suspended call goes on: [rejected] tells whether the promise it
    waited for was rejected. *)
Definition resume (task : Task) (rejected : bool) (lg : t) (w : World) : Outcome :=
  match task with
  | InWrite entry i drain =>
      let w1 := if rejected then emit (ConsoleError "Transport write error:") w else w in
      writeToTransports (Some i) entry drain lg w1
  | InDrain => processQueue_loop lg w
  | CloseAwaitsQueue =>
      let '(id, w1) := setTimeout (Some 100) w in
      {| logger := lg; world := w1; seen := []; suspended := [CloseTimer id] |}
  | CloseTimer _ => processRemainingLogs lg w
  | CloseAwaitsTransport i =>
      if rejected
      then {| logger := lg; world := w; seen := [CloseRejected]; suspended := [] |}
      else close_from (length (transports lg) - S i) (S i) lg w
  end.

(** The logger and the calls that it has left suspended, as they evolve
    under the calls of the user and the progress of the platform. *)
Record System := {
  current : t;
  pending : list Task;
  next_entry : loc;
  platform : World;
  history : list Observation
}.

Inductive Action :=
(** [debug], [info], [warn], [error] or [fatal] is called. *)
| Log (l : LogLevel) (message : string) (meta : Js.value) (now : Now)
    (stack : option (list string))
(** The suspended call at position [k] goes on.  The platform decides
    when a suspended call goes on; here any of them may go on at any time,
    which includes every order that the platform can produce. *)
| Resume (k : nat) (rejected : bool)
(** A transport changes on its own: a timer of its own fires, a request
    settles, a socket opens or closes. *)
| Elsewhere (i : nat) (f : T -> World -> T * World)
(** [addTransport] is called. *)
| AddTransport (tr : T)
(** [close] is called. *)
| Close.

Definition after (s : System) (out : Outcome) (rest : list Task) (next : loc) : System :=
  {| current := logger out; pending := rest ++ suspended out; next_entry := next;
     platform := world out; history := history s ++ seen out |}.

Definition step (s : System) (a : Action) : System :=
  match a with
  | Log l message meta now stack =>
      after s (processLog l message meta now stack (next_entry s) (current s) (platform s))
        (pending s) (if isClosed (current s) then next_entry s else S (next_entry s))
  | Resume k rejected =>
      match pending s !! k with
      | Some task =>
          after s (resume task rejected (current s) (platform s)) (delete k (pending s))
            (next_entry s)
      | None => s
      end
  | Elsewhere i f =>
      match transports (current s) !! i with
      | Some tr =>
          let '(tr1, w1) := f tr (platform s) in
          {| current := set_transports (<[ i := tr1 ]> (transports (current s))) (current s);
             pending := pending s; next_entry := next_entry s;
             platform := w1; history := history s |}
      | None => s
      end
  | AddTransport tr =>
      {| current := addTransport tr (current s); pending := pending s;
         next_entry := next_entry s; platform := platform s; history := history s |}
  | Close =>
      after s (close (current s) (platform s)) (pending s) (next_entry s)
  end.

Definition run (acts : list Action) (s : System) : System := foldl step s acts.

(** The logger as the constructor leaves it, before anything happens. *)
Definition start (lg : t) (w : World) : System :=
  {| current := lg; pending := []; next_entry := 0%nat; platform := w; history := [] |}.

End WithTransports.

Arguments level {T}.
Arguments transports_option {T}.
Arguments console {T}.
Arguments file {T}.
Arguments includeTimestamp {T}.
Arguments timestampFormat {T}.
Arguments includeStackTrace {T}.
Arguments stackTraceLimit {T}.
Arguments appName {T}.
Arguments environment {T}.
Arguments asyncLogging {T}.
Arguments logQueue {T}.
Arguments Build_LoggerOptions {T}.
Arguments options {T}.
Arguments transports {T}.
Arguments queue {T}.
Arguments isProcessingQueue {T}.
Arguments isClosed {T}.
Arguments Build_t {T}.
Arguments logger {T}.
Arguments world {T}.
Arguments seen {T}.
Arguments suspended {T}.
Arguments Build_Outcome {T}.
Arguments current {T}.
Arguments pending {T}.
Arguments next_entry {T}.
Arguments platform {T}.
Arguments history {T}.
Arguments Build_System {T}.
Arguments Log {T}.
Arguments Resume {T}.
Arguments Elsewhere {T}.
Arguments AddTransport {T}.
Arguments Close {T}.
Arguments with_defaults {T}.
Arguments set_transports {T}.
Arguments set_queue {T}.
Arguments set_isProcessingQueue {T}.
Arguments set_isClosed {T}.
Arguments consoleOptions {T}.
Arguments fileOptions {T}.
Arguments new {T}.
Arguments getTimestamp {T}.
Arguments getStackTrace {T}.
Arguments createLogEntry {T}.
Arguments writeToTransports_from {T}.
Arguments writeToTransports {T}.
Arguments processQueue_loop {T}.
Arguments processQueue {T}.
Arguments enqueueLogEntry {T}.
Arguments processLog {T}.
Arguments addTransport {T}.
Arguments close_from {T}.
Arguments processRemainingLogs {T}.
Arguments close {T}.
Arguments resume {T}.
Arguments after {T}.
Arguments step {T}.
Arguments run {T}.
Arguments start {T}.

(** ** The child logger *)

(** The call [target[prop](message, combinedMeta)] that the proxy of
    [child] makes for [debug], [info], [warn], [error] and [fatal], with
    [combinedMeta = { ...meta, ...(additionalMeta || {}) }], where [meta] is
    [options.meta || {}]. *)
Definition combinedMeta (meta : option JsObject.fields) (additionalMeta : Js.value)
    : Js.value :=
  let meta := default [] meta in
  let additional :=
    if Js.truthy additionalMeta then JsObject.own_properties additionalMeta else [] in
  Js.Obj (JsObject.assign (JsObject.assign [] meta) additional).

End Logger.

(** * The vocabulary of the specification *)

(** The admission rule in the words of the spec: everything when no minimum
    is set, otherwise the levels whose ordinal is at least the minimum's. *)
Definition admits (minLevel : option LogLevel) (l : LogLevel) : bool :=
  match minLevel with
  | None => true
  | Some m => ordinal m <=? ordinal l
  end.

(** A required string option is missing when it is absent or empty. *)
Definition missing (o : option string) : bool :=
  match o with
  | None => true
  | Some s => String.eqb s ""
  end.

Definition is_SetTimeout (e : Event) : bool :=
  match e with SetTimeout _ _ => true | _ => false end.

(** The timers armed along a trace. *)
Definition timeouts (l : list Event) : list Event := List.filter is_SetTimeout l.

(** The life of a socket that never stays up: the platform closes it, the
    reconnect timer fires and [connect] creates the next socket. *)
Definition close_then_retry (event : WebSocketTransport.CloseEvent)
    (st : WebSocketTransport.t * World) : WebSocketTransport.t * World :=
  let '(tr1, w1) := WebSocketTransport.socket_closes event (fst st) (snd st) in
  WebSocketTransport.onReconnectTimer false tr1 w1.

Fixpoint rounds (event : WebSocketTransport.CloseEvent) (n : nat)
    (st : WebSocketTransport.t * World) : WebSocketTransport.t * World :=
  match n with
  | O => st
  | S k => close_then_retry event (rounds event k st)
  end.

(** The connection is lost without a closing handshake. *)
Definition abnormal_closure : WebSocketTransport.CloseEvent :=
  {| WebSocketTransport.wasClean := false;
     WebSocketTransport.code := 1006;
     WebSocketTransport.reason := "" |}.

(** A world in which nothing has happened yet and whose heap holds one
    entry per level: the entry at address [k] has the level of ordinal
    [k mod 5]. *)
Definition sample_entry (k : loc) : LogEntry :=
  {| timestamp := "2023-01-01T12:00:00.000Z";
     level := match (k mod 5)%nat with
              | 0%nat => DEBUG | 1%nat => INFO | 2%nat => WARN | 3%nat => ERROR | _ => FATAL
              end;
     message := "Test message";
     meta := Js.Obj [("user"%string, Js.Str "test-user")];
     stackTrace := None |}.

Definition sample_world : World :=
  {| heap := sample_entry; files := ∅; next_id := 0; trace := [] |}.

(** A WebSocket transport built with a reconnect ceiling of zero. *)
Definition ws_zero_ceiling_options : WebSocketTransport.Options :=
  {| WebSocketTransport.minLevel := None;
     WebSocketTransport.url := Some "ws://localhost:8080"%string;
     WebSocketTransport.protocols := None;
     WebSocketTransport.reconnect := None;
     WebSocketTransport.maxReconnectAttempts := Some 0;
     WebSocketTransport.reconnectInterval := None;
     WebSocketTransport.sendTimeout := None;
     WebSocketTransport.bufferWhenDisconnected := None;
     WebSocketTransport.maxBufferSize := None |}.

(** A POST fails when the fetch is rejected or the status is not 2xx. *)
Definition delivery_fails (o : HttpTransport.FetchOutcome) : bool :=
  match o with
  | HttpTransport.NetworkFailure => true
  | HttpTransport.Response status => negb ((200 <=? status) && (status <=? 299))
  end.

Definition is_Fetch (e : Event) : bool :=
  match e with Fetch _ _ _ => true | _ => false end.

(** The POST attempts along a trace. *)
Definition attempts (l : list Event) : list Event := List.filter is_Fetch l.

(** What a delivery whose attempts all fail leaves in the trace when
    [retries] retries remain: an attempt and its diagnostic, then, for each
    retry, a timer of [pause] milliseconds followed by the next attempt. *)
Fixpoint failing_delivery (request : Event) (pause : Z) (retries : nat) (id : nat)
    : list Event :=
  match retries with
  | O => [request; ConsoleError "HTTP transport log sending failed:"]
  | S k =>
      [request; ConsoleError "HTTP transport log sending failed:"; SetTimeout id (Some pause)]
      ++ failing_delivery request pause k (S id)
  end.

(** A delivery that gives up with pauses of [pause] milliseconds: when every
    attempt fails, [log] makes [retryCount + 1] attempts with one timer of
    [pause] milliseconds between two consecutive attempts; then the promise
    it returned resolves, and the transport (its queue included) and the
    heap are as they were. *)
Definition gives_up_with_pause (pause : Z) (js : Js.value -> string)
    (net : Z -> HttpTransport.FetchOutcome) (tr : HttpTransport.t) (e : loc) (w : World)
    : Prop :=
  forall rc fuel,
    HttpTransport.retryCount (HttpTransport.options tr) = Some rc ->
    0 <= rc -> (Z.to_nat rc < fuel)%nat ->
    let request := Fetch (HttpTransport.request_url tr) (HttpTransport.request_headers tr)
                     (js (entry_value (heap w e))) in
    exists w',
      HttpTransport.log js fuel net tr e w
      = Some {| HttpTransport.transport := tr; HttpTransport.world := w';
                HttpTransport.returned := Some Js.Resolved;
                HttpTransport.in_flight := None |} /\
      trace w' = trace w ++ failing_delivery request pause (Z.to_nat rc) (next_id w) /\
      Z.of_nat (length (attempts (failing_delivery request pause (Z.to_nat rc) (next_id w))))
      = rc + 1 /\
      heap w' = heap w.

(** The same with the configured [retryDelay] itself as pause. *)
Definition gives_up_with_retryDelay (js : Js.value -> string)
    (net : Z -> HttpTransport.FetchOutcome) (tr : HttpTransport.t) (e : loc) (w : World)
    : Prop :=
  forall d, HttpTransport.retryDelay (HttpTransport.options tr) = Some d ->
            gives_up_with_pause d js net tr e w.

(** An HTTP transport in immediate mode with two retries and a retry delay
    of [delay], and an endpoint that answers every request with status
    500. *)
Definition http_immediate_sample (delay : Z) : HttpTransport.t :=
  {| HttpTransport.options :=
       HttpTransport.with_defaults
         {| HttpTransport.minLevel := Some WARN;
            HttpTransport.url := Some "https://example.com/logs"%string;
            HttpTransport.headers := None;
            HttpTransport.retryCount := Some 2;
            HttpTransport.retryDelay := Some delay;
            HttpTransport.batchLogs := None;
            HttpTransport.batchSize := None;
            HttpTransport.batchTimeout := None |};
     HttpTransport.logQueue := [];
     HttpTransport.batchTimeoutId := None |}.

Definition always_500 (k : Z) : HttpTransport.FetchOutcome := HttpTransport.Response 500.

(** A stand-in for [JSON.stringify] where a closed example needs one. *)
Definition sample_stringify (v : Js.value) : string :=
  match v with
  | Js.Obj (("timestamp"%string, Js.Str t) :: _ :: ("message"%string, Js.Str m) :: _) =>
      "{" +:+ t +:+ "," +:+ m +:+ "}"
  | Js.Arr items => "[" +:+ Js.number_to_string (Z.of_nat (length items)) +:+ "]"
  | _ => "null"
  end.

(** The request that carries [batch] as one JSON array. *)
Definition batch_request (js : Js.value -> string) (tr : HttpTransport.t) (w : World)
    (batch : list loc) : Event :=
  Fetch (HttpTransport.request_url tr) (HttpTransport.request_headers tr)
    (js (Js.Arr (map (fun r => entry_value (heap w r)) batch))).

(** What [log] does with an admitted entry in batch mode when the flush
    threshold is [threshold]: below the threshold the entry joins the end of
    the queue and nothing is sent; at the threshold the whole queue, the new
    entry last, leaves in one request and the queue is empty. *)
Definition flushes_at (threshold : Z) (js : Js.value -> string) (tr : HttpTransport.t)
    (e : loc) (w : World) : Prop :=
  let q := HttpTransport.logQueue tr ++ [e] in
  forall fuel net,
    HttpTransport.log js fuel net tr e w =
    if Z.of_nat (length q) <? threshold then
      Some {| HttpTransport.transport := HttpTransport.set_queue q tr;
              HttpTransport.world := w;
              HttpTransport.returned := None; HttpTransport.in_flight := None |}
    else
      Some {| HttpTransport.transport := HttpTransport.set_queue [] tr;
              HttpTransport.world := emit (batch_request js tr w q) w;
              HttpTransport.returned := None; HttpTransport.in_flight := Some q |}.

(** The flush rule with the configured [batchSize] itself as threshold. *)
Definition flushes_at_batchSize (js : Js.value -> string) (tr : HttpTransport.t)
    (e : loc) (w : World) : Prop :=
  forall n, HttpTransport.batchSize (HttpTransport.options tr) = Some n ->
            flushes_at n js tr e w.

(** Once the request of a flush has settled, the batch timer is armed
    anew: the old timer, if any, is cleared and a fresh one is set. *)
Definition reschedules (tr : HttpTransport.t) (w : World) (tr' : HttpTransport.t) (w' : World)
    : Prop :=
  HttpTransport.batchTimeoutId tr' = Some (next_id w) /\
  last (trace w')
  = Some (SetTimeout (next_id w)
            (Some (Js.number_or (HttpTransport.batchTimeout (HttpTransport.options tr)) 5000))) /\
  forall old, HttpTransport.batchTimeoutId tr = Some old ->
              ClearTimeout old ∈ drop (length (trace w)) (trace w').

(** An HTTP transport in batch mode with a batch size of [n]. *)
Definition http_batch_sample (n : Z) : HttpTransport.t :=
  {| HttpTransport.options :=
       HttpTransport.with_defaults
         {| HttpTransport.minLevel := None;
            HttpTransport.url := Some "https://example.com/logs"%string;
            HttpTransport.headers := None;
            HttpTransport.retryCount := None;
            HttpTransport.retryDelay := None;
            HttpTransport.batchLogs := Some true;
            HttpTransport.batchSize := Some n;
            HttpTransport.batchTimeout := None |};
     HttpTransport.logQueue := [];
     HttpTransport.batchTimeoutId := Some 0%nat |}.

(** The last [n] elements of a list. *)
Definition lastn {A} (n : nat) (l : list A) : list A := drop (length l - n) l.

(** Logging the entries [es] one after the other on a WebSocket transport
    whose sends do not throw. *)
Definition ws_log_each (js : Js.value -> string) (tr : WebSocketTransport.t)
    (es : list loc) (w : World) : WebSocketTransport.t * World :=
  foldl (fun st e => WebSocketTransport.log js false (fst st) e (snd st)) (tr, w) es.

(** The buffer rule with capacity [cap]: after the entries [es] have been
    logged while the socket is not open, the buffer holds the last [cap] of
    the entries that were buffered before followed by [es]. *)
Definition buffers_last (cap : Z) (js : Js.value -> string) (tr : WebSocketTransport.t)
    (es : list loc) (w : World) : Prop :=
  ws_log_each js tr es w
  = (WebSocketTransport.set_buffer
       (lastn (Z.to_nat cap) (WebSocketTransport.buffer tr ++ es)) tr, w).

(** Buffering one entry under capacity [cap]: the oldest buffered entry is
    dropped when the buffer already holds [cap] entries, and the entry goes
    to the end. *)
Definition drops_oldest_at (cap : Z) (js : Js.value -> string) (tr : WebSocketTransport.t)
    (e : loc) (w : World) : Prop :=
  forall throws,
    WebSocketTransport.log js throws tr e w
    = (WebSocketTransport.set_buffer
         ((if Z.of_nat (length (WebSocketTransport.buffer tr)) >=? cap
           then tail (WebSocketTransport.buffer tr)
           else WebSocketTransport.buffer tr) ++ [e]) tr, w).

(** The same with the configured [maxBufferSize] itself as capacity. *)
Definition drops_oldest_at_maxBufferSize (js : Js.value -> string)
    (tr : WebSocketTransport.t) (e : loc) (w : World) : Prop :=
  forall n, WebSocketTransport.maxBufferSize (WebSocketTransport.options tr) = Some n ->
            drops_oldest_at n js tr e w.

(** The frames that opening the socket sends for the buffered entries. *)
Definition buffered_frames (js : Js.value -> string) (id : nat) (w : World)
    (buffered : list loc) : list Event :=
  map (fun r => WsSend id (js (entry_value (heap w r)))) buffered.

(** What the opening of the socket leaves in the trace: the diagnostic of
    [handleOpen] and, when entries are buffered, the diagnostic of the flush
    followed by one frame per buffered entry, in the order of the buffer. *)
Definition opening_events (js : Js.value -> string) (tr : WebSocketTransport.t) (id : nat)
    (w : World) : list Event :=
  ConsoleLog (WebSocketTransport.established_message tr) None
  :: match WebSocketTransport.buffer tr with
     | [] => []
     | _ => ConsoleLog (WebSocketTransport.sending_message tr) None
            :: buffered_frames js id w (WebSocketTransport.buffer tr)
     end.

(** A WebSocket transport that is connecting, with a buffer capacity of [n]. *)
Definition ws_sample (n : Z) : WebSocketTransport.t :=
  {| WebSocketTransport.options :=
       WebSocketTransport.with_defaults
         {| WebSocketTransport.minLevel := None;
            WebSocketTransport.url := Some "ws://localhost:8080"%string;
            WebSocketTransport.protocols := None;
            WebSocketTransport.reconnect := None;
            WebSocketTransport.maxReconnectAttempts := None;
            WebSocketTransport.reconnectInterval := None;
            WebSocketTransport.sendTimeout := None;
            WebSocketTransport.bufferWhenDisconnected := None;
            WebSocketTransport.maxBufferSize := Some n |};
     WebSocketTransport.socket :=
       Some {| WebSocketTransport.socket_id := 0;
               WebSocketTransport.readyState := WebSocketTransport.CONNECTING |};
     WebSocketTransport.buffer := [];
     WebSocketTransport.reconnectAttempts := 0;
     WebSocketTransport.reconnectTimer := None;
     WebSocketTransport.isConnecting := false |}.

(** The renames of the shift loop of a rotation, from the highest index [n]
    down to 1, for the backups that exist in [f]. *)
Fixpoint shift_events (base ext : string) (f : gmap string Node) (n : nat) : list Event :=
  match n with
  | O => []
  | S k =>
      (if bool_decide (is_Some (f !! FileTransport.backup base (Z.of_nat n) ext))
       then [FsRename (FileTransport.backup base (Z.of_nat n) ext)
                      (FileTransport.backup base (Z.of_nat n + 1) ext)]
       else [])
      ++ shift_events base ext f k
  end.

(** The steps of a rotation that keeps [ceiling] backups, in order: close
    the handle, delete the backup at the ceiling if there is one, shift the
    backups below it up by one from the highest down, move the active file
    to backup 1, open a fresh handle at the original path. *)
Definition rotation_steps (ceiling : Z) (tr : FileTransport.t) (s : FileTransport.WriteStream)
    (w : World) : list Event :=
  let base := FileTransport.basePath_of tr in
  let ext := FileTransport.ext_of tr in
  [StreamEnd (FileTransport.stream_path s)]
  ++ (if bool_decide (is_Some (files w !! FileTransport.backup base ceiling ext))
      then [FsUnlink (FileTransport.backup base ceiling ext)] else [])
  ++ shift_events base ext (files w) (Z.to_nat (ceiling - 1))
  ++ [FsRename (FileTransport.currentFilePath tr) (FileTransport.backup base 1 ext);
      StreamOpen (FileTransport.currentFilePath tr)
        (FileTransport.mode (FileTransport.options tr))].

(** Backup [i] of the transport's file. *)
Definition backup_of (tr : FileTransport.t) (i : Z) : string :=
  FileTransport.backup (FileTransport.basePath_of tr) i (FileTransport.ext_of tr).

(** A rotation that keeps [ceiling] backups: it performs the steps above,
    the tracked size is 0 and the handle is fresh; the active file is new
    and empty, backup 1 is what the active file was, backup [i] is what
    backup [i - 1] was for [i] up to the ceiling, and what lies beyond the
    ceiling is as before. *)
Definition rotates_with (ceiling : Z) (tr : FileTransport.t) (w : World) : Prop :=
  forall s, FileTransport.writeStream tr = Some s ->
    let tr' := fst (FileTransport.rotateFile tr w) in
    let w' := snd (FileTransport.rotateFile tr w) in
    trace w' = trace w ++ rotation_steps ceiling tr s w /\
    FileTransport.currentSize tr' = 0 /\
    FileTransport.writeStream tr'
    = Some {| FileTransport.stream_path := FileTransport.currentFilePath tr |} /\
    files w' !! FileTransport.currentFilePath tr = Some (File "") /\
    files w' !! backup_of tr 1 = files w !! FileTransport.currentFilePath tr /\
    (forall i, 2 <= i <= ceiling -> files w' !! backup_of tr i = files w !! backup_of tr (i - 1)) /\
    (forall i, ceiling < i -> files w' !! backup_of tr i = files w !! backup_of tr i).

(** The same with the configured [maxFiles] itself as ceiling. *)
Definition rotates_with_maxFiles (tr : FileTransport.t) (w : World) : Prop :=
  forall n, FileTransport.maxFiles (FileTransport.options tr) = Some n -> rotates_with n tr w.

(** What happens to a file transport: an entry is logged (and its write
    succeeds or fails), or the rotation timer fires (and a rotation is due
    or not). *)
Inductive FileAction :=
| DoLog (e : loc) (write_fails : bool)
| DoTimeCheck (now : Z) (due : bool).

Definition file_step (js : Js.value -> string) (st : FileTransport.t * World) (a : FileAction)
    : FileTransport.t * World :=
  match a with
  | DoLog e write_fails => FileTransport.log js write_fails (fst st) e (snd st)
  | DoTimeCheck now due => FileTransport.checkTimeRotation now due (fst st) (snd st)
  end.

Definition file_run (js : Js.value -> string) (acts : list FileAction)
    (tr : FileTransport.t) (w : World) : FileTransport.t * World :=
  foldl (file_step js) (tr, w) acts.

(** The indices from 1 to [bound] at which a backup exists. *)
Definition numbered_backups (tr : FileTransport.t) (w : World) (bound : nat) : list nat :=
  List.filter (fun k => bool_decide (is_Some (files w !! backup_of tr (Z.of_nat k))))
    (seq 1 bound).

(** The handle, when there is one, is a handle on the transport's file. *)
Definition handle_on_file (tr : FileTransport.t) : Prop :=
  forall s, FileTransport.writeStream tr = Some s ->
            FileTransport.stream_path s = FileTransport.currentFilePath tr.

(** A file transport on [app.log] that keeps [n] backups and rotates at
    [size] bytes, with its handle open. *)
Definition file_sample_options (n size : Z) : FileTransport.Options :=
  {| FileTransport.minLevel := None;
     FileTransport.filename := Some "app.log"%string;
     FileTransport.directory := None;
     FileTransport.mode := None;
     FileTransport.maxSize := Some size;
     FileTransport.maxFiles := Some n;
     FileTransport.datePattern := None;
     FileTransport.format := None |}.

Definition file_sample (n : Z) : FileTransport.t :=
  {| FileTransport.options := FileTransport.with_defaults (file_sample_options n 64);
     FileTransport.currentSize := 10;
     FileTransport.currentFilePath := "app.log";
     FileTransport.writeStream := Some {| FileTransport.stream_path := "app.log" |};
     FileTransport.lastRotationCheck := 1672574400000;
     FileTransport.rotationCheckInterval := None |}.

(** A world whose directory holds the given files. *)
Definition world_with (l : list (string * string)) : World :=
  {| heap := sample_entry;
     files := list_to_map (map (fun '(p, c) => (p, File c)) l);
     next_id := 0; trace := [] |}.

(** ** Runs of the HTTP transport *)

(** What a delivery leaves in the trace when its first [failures] attempts
    fail and the next one succeeds: per failed attempt the request, its
    diagnostic and a timer of [pause] milliseconds, then the request that
    gets through. *)
Fixpoint retried_delivery (request : Event) (pause : Z) (failures : nat) (id : nat)
    : list Event :=
  match failures with
  | O => [request]
  | S k =>
      [request; ConsoleError "HTTP transport log sending failed:"; SetTimeout id (Some pause)]
      ++ retried_delivery request pause k (S id)
  end.

(** What happens to an HTTP transport in batch mode: an entry is logged,
    the batch timer fires, or the request of the in-flight batch number [i]
    settles as [o]. *)
Inductive HttpAction :=
| HLog (e : loc)
| HTimer
| HSettle (i : nat) (o : HttpTransport.FetchOutcome).

(** The transport together with the batches whose requests are in flight
    and the entries that an endpoint has acknowledged so far. *)
Record HttpSystem := {
  http : HttpTransport.t;
  http_world : World;
  flights : list (list loc);
  delivered : list loc
}.

Definition http_step (js : Js.value -> string) (fuel : nat)
    (net : Z -> HttpTransport.FetchOutcome) (s : HttpSystem) (a : HttpAction)
    : option HttpSystem :=
  match a with
  | HLog e =>
      match HttpTransport.log js fuel net (http s) e (http_world s) with
      | Some r =>
          Some {| http := HttpTransport.transport r; http_world := HttpTransport.world r;
                  flights := flights s ++ option_list (HttpTransport.in_flight r);
                  delivered := delivered s |}
      | None => None
      end
  | HTimer =>
      let '(b, tr, w) := HttpTransport.onBatchTimeout js (http s) (http_world s) in
      Some {| http := tr; http_world := w;
              flights := flights s ++ option_list b; delivered := delivered s |}
  | HSettle i o =>
      match flights s !! i with
      | None => Some s
      | Some batch =>
          let '(tr, w) := HttpTransport.sendBatch_resume batch o (http s) (http_world s) in
          Some {| http := tr; http_world := w;
                  flights := delete i (flights s);
                  delivered := match HttpTransport.check_response "HTTP batch error: " o with
                               | Js.Normal _ => delivered s ++ batch
                               | Js.Throw _ => delivered s
                               end |}
      end
  end.

Fixpoint http_run (js : Js.value -> string) (fuel : nat)
    (net : Z -> HttpTransport.FetchOutcome) (acts : list HttpAction) (s : HttpSystem)
    : option HttpSystem :=
  match acts with
  | [] => Some s
  | a :: rest =>
      match http_step js fuel net s a with
      | Some s1 => http_run js fuel net rest s1
      | None => None
      end
  end.

(** The entries that a run hands to [log] and that pass the level check. *)
Fixpoint admitted_logs (minLevel : option LogLevel) (h : Heap) (acts : list HttpAction)
    : list loc :=
  match acts with
  | [] => []
  | HLog e :: rest =>
      if BaseTransport.shouldLog minLevel (level (h e)) then e :: admitted_logs minLevel h rest
      else admitted_logs minLevel h rest
  | _ :: rest => admitted_logs minLevel h rest
  end.

(** An HTTP transport in batch mode with the default batch size and the
    user's headers [hd]. *)
Definition http_sample_with_headers (hd : gmap string string) : HttpTransport.t :=
  {| HttpTransport.options :=
       HttpTransport.with_defaults
         {| HttpTransport.minLevel := None;
            HttpTransport.url := Some "https://example.com/logs"%string;
            HttpTransport.headers := Some hd;
            HttpTransport.retryCount := None;
            HttpTransport.retryDelay := None;
            HttpTransport.batchLogs := Some true;
            HttpTransport.batchSize := None;
            HttpTransport.batchTimeout := None |};
     HttpTransport.logQueue := [];
     HttpTransport.batchTimeoutId := Some 0%nat |}.

(** An endpoint that fails twice and then answers 200. *)
Definition third_time_lucky (k : Z) : HttpTransport.FetchOutcome :=
  if k <? 2 then HttpTransport.Response 503 else HttpTransport.Response 200.

(** ** Runs of the WebSocket transport *)

Definition is_WsSend (e : Event) : bool :=
  match e with WsSend _ _ => true | _ => false end.

(** The frames sent along a trace. *)
Definition frames (l : list Event) : list Event := List.filter is_WsSend l.

(** A WebSocket transport whose socket is open, with a buffer capacity of
    [n] and the entries [b] in its buffer. *)
Definition ws_open_sample (n : Z) (b : list loc) : WebSocketTransport.t :=
  {| WebSocketTransport.options :=
       WebSocketTransport.with_defaults
         {| WebSocketTransport.minLevel := None;
            WebSocketTransport.url := Some "ws://localhost:8080"%string;
            WebSocketTransport.protocols := None;
            WebSocketTransport.reconnect := None;
            WebSocketTransport.maxReconnectAttempts := Some 2;
            WebSocketTransport.reconnectInterval := None;
            WebSocketTransport.sendTimeout := None;
            WebSocketTransport.bufferWhenDisconnected := None;
            WebSocketTransport.maxBufferSize := Some n |};
     WebSocketTransport.socket :=
       Some {| WebSocketTransport.socket_id := 0;
               WebSocketTransport.readyState := WebSocketTransport.OPEN |};
     WebSocketTransport.buffer := b;
     WebSocketTransport.reconnectAttempts := 0;
     WebSocketTransport.reconnectTimer := None;
     WebSocketTransport.isConnecting := false |}.

(** ** Runs of the file transport *)

(** What the constructor of the file transport asks of the platform: the
    directory when it is missing, a handle on the file, and the rotation
    interval when a date pattern is set. *)
Definition startup_events (o : FileTransport.Options) (w : World) : list Event :=
  let opts := FileTransport.with_defaults o in
  match FileTransport.directory opts with
  | Some d => if Js.truthy (Js.Str d) && negb (Fs.existsSync d w) then [FsMkdir d] else []
  | None => []
  end
  ++ [StreamOpen (FileTransport.getFilePath opts) (FileTransport.mode opts)]
  ++ match FileTransport.datePattern opts with
     | Some _ => [SetInterval (next_id w) (FileTransport.getCheckIntervalFromPattern opts)]
     | None => []
     end.

(** What a stream opened with the given flags leaves of the content [c]. *)
Definition kept_by (flags : option FileMode) (c : string) : string :=
  match flags with
  | Some ModeA => c
  | _ => ""
  end.

(** The lines that a sequence of [log] calls writes: one per admitted entry
    whose write succeeds, in order. *)
Fixpoint written (js : Js.value -> string) (tr : FileTransport.t) (h : Heap)
    (logs : list (loc * bool)) : string :=
  match logs with
  | [] => ""
  | (e, fails) :: rest =>
      if BaseTransport.shouldLog (FileTransport.minLevel (FileTransport.options tr))
           (level (h e)) && negb fails
      then FileTransport.render js tr (h e) +:+ written js tr h rest
      else written js tr h rest
  end.

Definition is_rotation_event (e : Event) : bool :=
  match e with FsRename _ _ | FsUnlink _ => true | _ => false end.

(** A file transport on the extension-less file [logs/app]. *)
Definition file_sample_without_extension : FileTransport.t :=
  {| FileTransport.options :=
       FileTransport.with_defaults
         {| FileTransport.minLevel := None;
            FileTransport.filename := Some "app"%string;
            FileTransport.directory := Some "logs"%string;
            FileTransport.mode := None;
            FileTransport.maxSize := Some 0;
            FileTransport.maxFiles := None;
            FileTransport.datePattern := Some FileTransport.Weekly;
            FileTransport.format := None |};
     FileTransport.currentSize := 3;
     FileTransport.currentFilePath := "logs/app";
     FileTransport.writeStream := Some {| FileTransport.stream_path := "logs/app" |};
     FileTransport.lastRotationCheck := 1672574400000;
     FileTransport.rotationCheckInterval := Some 0%nat |}.

(** A calendar for closed examples: the fields of UTC days of 24 hours in
    months of 30 days. *)
Definition sample_calendar : FileTransportTime.Calendar :=
  {| FileTransportTime.getHours := fun t => (t / 3600000) mod 24;
     FileTransportTime.getDate := fun t => (t / 86400000) mod 30 + 1;
     FileTransportTime.getMonth := fun t => (t / 2592000000) mod 12;
     FileTransportTime.getFullYear := fun t => 1970 + t / 31104000000 |}.

(** A date pattern is finer than another when its periods subdivide the
    periods of the other: hours subdivide days, days subdivide months. *)
Definition finer_than (p q : FileTransport.DatePattern) : bool :=
  match p, q with
  | FileTransport.Hourly, FileTransport.Daily
  | FileTransport.Hourly, FileTransport.Monthly
  | FileTransport.Daily, FileTransport.Monthly => true
  | _, _ => false
  end.

(** [s.includes(sub)] as a proposition. *)
Definition includes (s sub : string) : Prop := exists pre post, s = pre +:+ sub +:+ post.

(** A console transport built from the defaults with the level colors
    [colors]. *)
Definition console_sample (colors : option (LogLevel -> option string)) : ConsoleTransport.t :=
  ConsoleTransport.new
    {| ConsoleTransport.minLevel := Some INFO;
       ConsoleTransport.colorize := None;
       ConsoleTransport.showTimestamp := None;
       ConsoleTransport.showLevel := None;
       ConsoleTransport.levelColors := colors;
       ConsoleTransport.format := None |}.

(** ** Filters and formats *)



(** The options of a format in which nothing is set. *)
Definition no_format_options : BaseFormat.FormatOptions :=
  {| BaseFormat.showTimestamp := None; BaseFormat.timestampFormat := None;
     BaseFormat.dateFormatOptions := None; BaseFormat.showLevel := None;
     BaseFormat.showMeta := None; BaseFormat.metaFormat := None;
     BaseFormat.jsonIndent := None; BaseFormat.timestampSeparator := None;
     BaseFormat.levelSeparator := None; BaseFormat.metaSeparator := None;
     BaseFormat.stackTraceSeparator := None; BaseFormat.indent := None;
     BaseFormat.additionalFields := None; BaseFormat.useUnixTimestamps := None;
     BaseFormat.timestampKey := None; BaseFormat.levelKey := None;
     BaseFormat.messageKey := None; BaseFormat.metaKey := None;
     BaseFormat.stackTraceKey := None |}.

(** The same options with the four separators of the simple format set. *)
Definition with_separators (ts ls ms ss : option string) (o : BaseFormat.FormatOptions)
    : BaseFormat.FormatOptions :=
  {| BaseFormat.showTimestamp := BaseFormat.showTimestamp o;
     BaseFormat.timestampFormat := BaseFormat.timestampFormat o;
     BaseFormat.dateFormatOptions := BaseFormat.dateFormatOptions o;
     BaseFormat.showLevel := BaseFormat.showLevel o;
     BaseFormat.showMeta := BaseFormat.showMeta o;
     BaseFormat.metaFormat := BaseFormat.metaFormat o;
     BaseFormat.jsonIndent := BaseFormat.jsonIndent o;
     BaseFormat.timestampSeparator := ts;
     BaseFormat.levelSeparator := ls;
     BaseFormat.metaSeparator := ms;
     BaseFormat.stackTraceSeparator := ss;
     BaseFormat.indent := BaseFormat.indent o;
     BaseFormat.additionalFields := BaseFormat.additionalFields o;
     BaseFormat.useUnixTimestamps := BaseFormat.useUnixTimestamps o;
     BaseFormat.timestampKey := BaseFormat.timestampKey o;
     BaseFormat.levelKey := BaseFormat.levelKey o;
     BaseFormat.messageKey := BaseFormat.messageKey o;
     BaseFormat.metaKey := BaseFormat.metaKey o;
     BaseFormat.stackTraceKey := BaseFormat.stackTraceKey o |}.


(** A platform for closed examples: dates print as the timestamp they were
    built from and values print through [sample_stringify]. *)
Definition sample_platform : BaseFormat.Platform :=
  {| BaseFormat.Date_toISOString := fun t => Some t;
     BaseFormat.Date_getTime := fun _ => Js.Number 1672574400000;
     BaseFormat.Number_toString := fun _ => "1672574400000"%string;
     BaseFormat.Date_toLocaleString := fun t _ => Some t;
     BaseFormat.JSON_stringify := fun v _ => sample_stringify v;
     BaseFormat.util_inspect := fun v => Some (sample_stringify v);
     BaseFormat.String_of := sample_stringify |}.


(** ** Runs of the logger *)

(** The entries handed to the transport at index [i], in the order of the
    calls. *)
Definition calls_to (i : nat) (h : list Logger.Observation) : list loc :=
  omap (fun o => match o with
                 | Logger.Called j e => if (j =? i)%nat then Some e else None
                 | _ => None
                 end) h.

(** The entries shifted out of a full queue. *)
Definition evictions (h : list Logger.Observation) : list loc :=
  omap (fun o => match o with Logger.Evicted e => Some e | _ => None end) h.

(** The suspended calls that belong to the drain of the queue. *)
Definition is_drain (t : Logger.Task) : bool :=
  match t with
  | Logger.InWrite _ _ true | Logger.InDrain => true
  | _ => false
  end.

Definition drains (l : list Logger.Task) : list Logger.Task := List.filter is_drain l.

(** The default transports as one type: the console transport, which has
    no [close], and the file transport, whose writes succeed here. *)
Inductive DefaultTransport :=
| OfConsole (c : ConsoleTransport.t)
| OfFile (f : FileTransport.t).

Definition default_log (tr : DefaultTransport) (e : loc) (w : World)
    : DefaultTransport * World * bool :=
  match tr with
  | OfConsole c =>
      let '(c1, w1) := ConsoleTransport.log sample_stringify sample_stringify c e w in
      (OfConsole c1, w1, false)
  | OfFile f =>
      let '(f1, w1) := FileTransport.log sample_stringify false f e w in
      (OfFile f1, w1, false)
  end.

Definition default_close (tr : DefaultTransport)
    : option (World -> DefaultTransport * World * bool) :=
  match tr with
  | OfConsole _ => None
  | OfFile f => Some (fun w => let '(f1, w1) := FileTransport.close f w in (OfFile f1, w1, false))
  end.

(** The options of a logger in which nothing is set but the queue:
    asynchronous or not, with a queue of [cap] entries. *)
Definition logger_options (async : bool) (cap : Z) : Logger.LoggerOptions DefaultTransport :=
  {| Logger.level := None; Logger.transports_option := None;
     Logger.console := None; Logger.file := None;
     Logger.includeTimestamp := None; Logger.timestampFormat := None;
     Logger.includeStackTrace := Some true; Logger.stackTraceLimit := Some 0;
     Logger.appName := None; Logger.environment := None;
     Logger.asyncLogging := Some async; Logger.logQueue := Some cap |}.

(** The logger that the constructor builds from these options: its only
    transport is the default console transport. *)
Definition sample_logger (async : bool) (cap : Z) : Logger.t DefaultTransport :=
  {| Logger.options := Logger.with_defaults (logger_options async cap);
     Logger.transports :=
       [OfConsole (ConsoleTransport.new
                     (Logger.consoleOptions (Logger.with_defaults (logger_options async cap))))];
     Logger.queue := []; Logger.isProcessingQueue := false; Logger.isClosed := false |}.

Definition sample_now : Logger.Now :=
  {| Logger.toISOString := "2023-01-01T12:00:00.000Z";
     Logger.getTime_toString := "1672574400000";
     Logger.toLocaleString := "1/1/2023, 12:00:00 PM" |}.

(** A call of [info] with the message [m]. *)
Definition info (m : string) : Logger.Action DefaultTransport :=
  Logger.Log INFO m Js.Undefined sample_now None.

(** A method leaves the settings of the logger as they are when it changes
    neither the options, the queue and the flags nor the number of
    transports. *)
Definition same_settings {T} (lg lg' : Logger.t T) : Prop :=
  Logger.options lg' = Logger.options lg /\ Logger.queue lg' = Logger.queue lg /\
  Logger.isProcessingQueue lg' = Logger.isProcessingQueue lg /\
  Logger.isClosed lg' = Logger.isClosed lg /\
  length (Logger.transports lg') = length (Logger.transports lg).

(** What a method other than [processLog] does to the settings: it keeps
    the options and a closed logger closed, it only ever shortens the
    queue, and it never gives up an entry. *)
Definition settles {T} (lg : Logger.t T) (out : Logger.Outcome T) : Prop :=
  Logger.options (Logger.logger out) = Logger.options lg /\
  (Logger.isClosed lg = true -> Logger.isClosed (Logger.logger out) = true) /\
  (length (Logger.queue (Logger.logger out)) <= length (Logger.queue lg))%nat /\
  evictions (Logger.seen out) = [].

(** A list of entries in the order of their creation, without
    repetition: the addresses increase strictly. *)
Fixpoint increasing (l : list loc) : Prop :=
  match l with
  | [] => True
  | x :: r => Forall (fun y => (x < y)%nat) r /\ increasing r
  end.

(** A write that nothing waits for. *)
Definition detached (t : Logger.Task) : bool :=
  match t with
  | Logger.InWrite _ _ false => true
  | _ => false
  end.

(** The entry that the drain of the queue takes next: the head of the
    queue, or the entry that the next call will create. *)
Definition next_up {T} (s : Logger.System T) : loc :=
  default (Logger.next_entry s) (head (Logger.queue (Logger.current s))).

(** The entries that the transport at index [i] can still be given: those
    from [frontier d next i] on, where [d] is the suspended call of the
    drain, if there is one, and [next] the entry that the drain takes
    next. *)
Definition frontier (d : option Logger.Task) (next : loc) (i : nat) : loc :=
  match d with
  | Some (Logger.InWrite e j _) => if (i <=? j)%nat then S e else e
  | _ => next
  end.

(** The state of an asynchronous logger whose entries reach the transports
    in order: at most one drain is under way, exactly when
    [isProcessingQueue] is set, and the queue is empty when none is; the
    queue holds entries in the order of their creation; every transport
    has been given entries in that order, and none beyond its frontier. *)
Definition in_order {T} (s : Logger.System T) : Prop :=
  exists d : option Logger.Task,
    drains (Logger.pending s) = option_list d /\
    Logger.isProcessingQueue (Logger.current s) = bool_decide (is_Some d) /\
    (d = None -> Logger.queue (Logger.current s) = []) /\
    (forall e j b, d = Some (Logger.InWrite e j b) -> (e < next_up s)%nat) /\
    Forall (fun t => detached t = false) (Logger.pending s) /\
    increasing (Logger.queue (Logger.current s)) /\
    Forall (fun e => (e < Logger.next_entry s)%nat) (Logger.queue (Logger.current s)) /\
    (forall i, Forall (fun c => (c < frontier d (next_up s) i)%nat)
                 (calls_to i (Logger.history s))) /\
    (forall i, increasing (calls_to i (Logger.history s))) /\
    Js.truthy (Js.of_bool (Logger.asyncLogging (Logger.options (Logger.current s)))) = true.

(** A method is quiet when it keeps the options, the queue and
    [isProcessingQueue], calls no transport's [log] and leaves no call of
    the drain and no write suspended. *)
Definition quiet {T} (lg : Logger.t T) (out : Logger.Outcome T) : Prop :=
  Logger.options (Logger.logger out) = Logger.options lg /\
  Logger.queue (Logger.logger out) = Logger.queue lg /\
  Logger.isProcessingQueue (Logger.logger out) = Logger.isProcessingQueue lg /\
  (forall i, calls_to i (Logger.seen out) = []) /\
  drains (Logger.suspended out) = [] /\
  Forall (fun t => detached t = false) (Logger.suspended out).

(** The suspended call at the head goes on [n] times, without a rejection. *)
Fixpoint resumptions {T} (tlog : T -> loc -> World -> T * World * bool)
    (tclose : T -> option (World -> T * World * bool)) (n : nat) (s : Logger.System T)
    : Logger.System T :=
  match n with
  | O => s
  | S k => resumptions tlog tclose k (Logger.step tlog tclose s (Logger.Resume 0 false))
  end.

(** What an orderly shutdown lets the outside see from the transport at
    index [i] on: one call of [close] per transport that has the method, in
    the order of the array, and then the settlement of the promise. *)
Fixpoint shutdown_from {T} (tclose : T -> option (World -> T * World * bool))
    (i : nat) (ts : list T) : list Logger.Observation :=
  match ts with
  | [] => [Logger.CloseResolved]
  | tr :: rest =>
      match tclose tr with
      | Some _ => Logger.Closed i :: shutdown_from tclose (S i) rest
      | None => shutdown_from tclose (S i) rest
      end
  end.

(** * Properties *)

(** ** Admission by level *)

Lemma shouldLog_admits minLevel l :
  BaseTransport.shouldLog minLevel l = admits minLevel l.
Proof. destruct minLevel as [m|]; [destruct m, l|]; reflexivity. Qed.

(** C1: every transport's [log] passes the entry on exactly when no minimum
    level is set or the ordinal of the entry's level is at least the ordinal
    of the minimum level, and does nothing at all otherwise. *)
Theorem C1_minLevel_admission :
  (forall minLevel l, BaseTransport.shouldLog minLevel l = admits minLevel l) /\
  (forall js jsi tr e w,
      ConsoleTransport.log js jsi tr e w =
      if admits (ConsoleTransport.minLevel (ConsoleTransport.options tr)) (level (heap w e))
      then ConsoleTransport.log_admitted js jsi tr e w else (tr, w)) /\
  (forall js fails tr e w,
      FileTransport.log js fails tr e w =
      if admits (FileTransport.minLevel (FileTransport.options tr)) (level (heap w e))
      then FileTransport.log_admitted js fails tr e w else (tr, w)) /\
  (forall js fuel net tr e w,
      HttpTransport.log js fuel net tr e w =
      if admits (HttpTransport.minLevel (HttpTransport.options tr)) (level (heap w e))
      then HttpTransport.log_admitted js fuel net tr e w
      else Some {| HttpTransport.transport := tr; HttpTransport.world := w;
                   HttpTransport.returned := None; HttpTransport.in_flight := None |}) /\
  (forall js throws tr e w,
      WebSocketTransport.log js throws tr e w =
      if admits (WebSocketTransport.minLevel (WebSocketTransport.options tr)) (level (heap w e))
      then WebSocketTransport.log_admitted js throws tr e w else (tr, w)).
Proof.
  split; [exact shouldLog_admits|].
  repeat split; intros;
    [unfold ConsoleTransport.log | unfold FileTransport.log
    | unfold HttpTransport.log | unfold WebSocketTransport.log];
    rewrite shouldLog_admits; destruct (admits _ _); reflexivity.
Qed.

(** ** Configuration errors *)

Lemma missing_truthy o : negb (Js.truthy (Js.of_string o)) = missing o.
Proof. destruct o as [s|]; simpl; [|reflexivity]. by destruct (String.eqb s ""). Qed.

(** C9: the constructors of the HTTP and WebSocket transports throw when the
    url is missing, the constructor of the file transport throws when the
    filename is missing, and they throw this error in no other case; a
    constructor that throws has not touched the world. *)
Theorem C9_missing_required_option :
  (forall o w,
      match HttpTransport.new o w with
      | Js.Throw m =>
          missing (HttpTransport.url o) = true /\
          m = "URL must be specified for HttpTransport"%string
      | Js.Normal _ => missing (HttpTransport.url o) = false
      end) /\
  (forall ctor_throws o w,
      match WebSocketTransport.new ctor_throws o w with
      | Js.Throw m =>
          missing (WebSocketTransport.url o) = true /\
          m = "URL must be specified for WebSocketTransport"%string
      | Js.Normal _ => missing (WebSocketTransport.url o) = false
      end) /\
  (forall now o w,
      match FileTransport.new now o w with
      | Js.Throw m =>
          missing (FileTransport.filename o) = true /\
          m = "Filename must be specified for FileTransport"%string
      | Js.Normal _ => missing (FileTransport.filename o) = false
      end).
Proof.
  repeat split; intros.
  - unfold HttpTransport.new. cbn [HttpTransport.url HttpTransport.with_defaults].
    rewrite missing_truthy. destruct (missing _); [done|].
    by destruct (Js.truthy _).
  - unfold WebSocketTransport.new. rewrite missing_truthy.
    by destruct (missing _).
  - unfold FileTransport.new. rewrite missing_truthy.
    destruct (missing _); [done|].
    destruct (FileTransport.checkFileSize _ _) as [tr2 w2].
    destruct (FileTransport.createWriteStream _ _) as [tr3 w3].
    destruct (FileTransport.datePattern _); [|done].
    by destruct (fresh w3).
Qed.

(** ** Reconnection of the WebSocket transport *)

Module WsFacts.
Import WebSocketTransport.

Lemma scheduleReconnect_spec tr w :
  let id := next_id w in
  scheduleReconnect tr w =
  (set_reconnectTimer (Some id) (set_reconnectAttempts (reconnectAttempts tr + 1) tr),
   emit (SetTimeout id (reconnectInterval (options tr)))
     (snd (fresh (match reconnectTimer tr with
                  | Some old => emit (ClearTimeout old) w
                  | None => w
                  end)))).
Proof. unfold scheduleReconnect, setTimeout. by destruct (reconnectTimer tr). Qed.

(** With reconnection on and a ceiling of zero the close handler always
    arms the timer. *)
Lemma handleClose_zero_ceiling event tr w :
  reconnect (options tr) = Some true ->
  maxReconnectAttempts (options tr) = Some 0 ->
  handleClose event tr w =
  scheduleReconnect tr (emit (ConsoleLog (closed_message event) None) w).
Proof. intros Hr Hm. unfold handleClose. by rewrite Hr, Hm. Qed.

Lemma timeouts_app l1 l2 : timeouts (l1 ++ l2) = timeouts l1 ++ timeouts l2.
Proof. apply List.filter_app. Qed.

Lemma scheduleReconnect_facts tr w tr' w' :
  scheduleReconnect tr w = (tr', w') ->
  options tr' = options tr /\
  reconnectAttempts tr' = reconnectAttempts tr + 1 /\
  reconnectTimer tr' = Some (next_id w) /\
  last (trace w') = Some (SetTimeout (next_id w) (reconnectInterval (options tr))) /\
  length (timeouts (trace w')) = S (length (timeouts (trace w))).
Proof.
  rewrite scheduleReconnect_spec. intros [= <- <-]. simpl.
  repeat split; try done.
  - by rewrite last_snoc.
  - destruct (reconnectTimer tr); simpl;
      rewrite ?timeouts_app, ?length_app; simpl; lia.
Qed.

Lemma connect_ok_facts tr w tr' w' :
  connect false tr w = (tr', w') ->
  options tr' = options tr /\
  reconnectAttempts tr' = reconnectAttempts tr /\
  length (timeouts (trace w')) = length (timeouts (trace w)).
Proof.
  unfold connect. destruct (match socket tr with Some _ => _ | None => _ end).
  { by intros [= <- <-]. }
  destruct (isConnecting tr); [by intros [= <- <-]|].
  simpl. intros [= <- <-]. simpl. rewrite timeouts_app, length_app. simpl.
  repeat split; lia.
Qed.

Lemma socket_closes_zero_ceiling event tr w :
  reconnect (options tr) = Some true ->
  maxReconnectAttempts (options tr) = Some 0 ->
  exists tr' w',
    socket_closes event tr w = (tr', w') /\
    options tr' = options tr /\
    reconnectAttempts tr' = reconnectAttempts tr + 1 /\
    (exists id, reconnectTimer tr' = Some id /\
                last (trace w') = Some (SetTimeout id (reconnectInterval (options tr)))) /\
    length (timeouts (trace w')) = S (length (timeouts (trace w))).
Proof.
  intros Hr Hm. unfold socket_closes.
  destruct (socket tr) as [s|];
    (rewrite handleClose_zero_ceiling by done);
    match goal with |- context [scheduleReconnect ?a ?b] =>
      destruct (scheduleReconnect a b) as [tr' w'] eqn:E end;
    apply scheduleReconnect_facts in E as (Ho & Ha & Ht & Hl & Hn);
    exists tr', w'; simpl in *;
    rewrite ?timeouts_app, ?length_app in Hn; simpl in Hn;
    (repeat split; [done | done | eauto | lia]).
Qed.

Lemma close_then_retry_zero_ceiling event st :
  reconnect (options (fst st)) = Some true ->
  maxReconnectAttempts (options (fst st)) = Some 0 ->
  options (fst (close_then_retry event st)) = options (fst st) /\
  reconnectAttempts (fst (close_then_retry event st)) = reconnectAttempts (fst st) + 1 /\
  length (timeouts (trace (snd (close_then_retry event st)))) =
  S (length (timeouts (trace (snd st)))).
Proof.
  intros Hr Hm. unfold close_then_retry.
  destruct (socket_closes_zero_ceiling event _ (snd st) Hr Hm)
    as (tr1 & w1 & -> & Ho & Ha & _ & Hn).
  unfold onReconnectTimer.
  destruct (connect false tr1 _) as [tr2 w2] eqn:E.
  apply connect_ok_facts in E as (Ho2 & Ha2 & Hn2). simpl in *.
  rewrite timeouts_app, length_app in Hn2. simpl in Hn2.
  repeat split; [congruence | congruence | lia].
Qed.

Lemma rounds_zero_ceiling event n st :
  reconnect (options (fst st)) = Some true ->
  maxReconnectAttempts (options (fst st)) = Some 0 ->
  options (fst (rounds event n st)) = options (fst st) /\
  reconnectAttempts (fst (rounds event n st)) = reconnectAttempts (fst st) + Z.of_nat n /\
  length (timeouts (trace (snd (rounds event n st)))) =
  (length (timeouts (trace (snd st))) + n)%nat.
Proof.
  intros Hr Hm. induction n as [|n (Ho & Ha & Hn)]; simpl.
  { repeat split; lia. }
  destruct (close_then_retry_zero_ceiling event (rounds event n st)) as (Ho' & Ha' & Hn');
    [congruence | congruence |].
  repeat split; [congruence | lia | lia].
Qed.

Lemma new_options ctor_throws o w tr0 w0 :
  new ctor_throws o w = Js.Normal (tr0, w0) -> options tr0 = with_defaults o.
Proof.
  unfold new. destruct (negb _); [done|]. intros [= E]. revert E.
  unfold connect. simpl. destruct ctor_throws.
  - unfold handleClose. simpl.
    destruct (_ && _); [|by intros [= <- <-]].
    rewrite scheduleReconnect_spec. by intros [= <- <-].
  - by intros [= <- <-].
Qed.

End WsFacts.

(** C10: a WebSocket transport constructed with reconnection on and
    [maxReconnectAttempts] set to 0 arms the reconnect timer at every close,
    however many reconnections it has already attempted: after [n] rounds of
    close and retry the attempt counter has grown by [n], [n] timers have
    been armed, and the next close arms one more. *)
Theorem C10_zero_ceiling_reconnects_forever ctor_throws o w tr0 w0 event n :
  WebSocketTransport.new ctor_throws o w = Js.Normal (tr0, w0) ->
  WebSocketTransport.maxReconnectAttempts o = Some 0 ->
  WebSocketTransport.reconnect o <> Some false ->
  let st := rounds event n (tr0, w0) in
  let st' := WebSocketTransport.socket_closes event (fst st) (snd st) in
  WebSocketTransport.reconnectAttempts (fst st)
  = WebSocketTransport.reconnectAttempts tr0 + Z.of_nat n /\
  length (timeouts (trace (snd st))) = (length (timeouts (trace w0)) + n)%nat /\
  WebSocketTransport.reconnectAttempts (fst st')
  = WebSocketTransport.reconnectAttempts (fst st) + 1 /\
  length (timeouts (trace (snd st'))) = S (length (timeouts (trace (snd st)))) /\
  exists id,
    WebSocketTransport.reconnectTimer (fst st') = Some id /\
    last (trace (snd st'))
    = Some (SetTimeout id (WebSocketTransport.reconnectInterval
                             (WebSocketTransport.options tr0))).
Proof.
  intros Hnew Hmax Hrec st st'.
  apply WsFacts.new_options in Hnew.
  assert (Hr : WebSocketTransport.reconnect (WebSocketTransport.options tr0) = Some true).
  { rewrite Hnew. simpl. destruct (WebSocketTransport.reconnect o) as [[]|]; done. }
  assert (Hm : WebSocketTransport.maxReconnectAttempts (WebSocketTransport.options tr0)
               = Some 0).
  { rewrite Hnew. simpl. by rewrite Hmax. }
  destruct (WsFacts.rounds_zero_ceiling event n (tr0, w0) Hr Hm) as (Ho & Ha & Hn).
  fold st in Ho, Ha, Hn. simpl in Ho, Ha, Hn.
  destruct (WsFacts.socket_closes_zero_ceiling event (fst st) (snd st))
    as (tr' & w' & E & Ho' & Ha' & (id & Ht & Hl) & Hn'); [congruence | congruence |].
  subst st'. rewrite E. simpl.
  repeat split; [done | done | done | done |].
  exists id. split; [done|]. by rewrite Hl, Ho.
Qed.

Lemma C10_witness :
  WebSocketTransport.reconnectAttempts
    (fst (rounds abnormal_closure 7 (WebSocketTransport.connect false
       {| WebSocketTransport.options := WebSocketTransport.with_defaults ws_zero_ceiling_options;
          WebSocketTransport.socket := None; WebSocketTransport.buffer := [];
          WebSocketTransport.reconnectAttempts := 0;
          WebSocketTransport.reconnectTimer := None;
          WebSocketTransport.isConnecting := false |} sample_world)))
  = 7.
Proof.
  refine (proj1 (C10_zero_ceiling_reconnects_forever false ws_zero_ceiling_options
                   sample_world _ _ abnormal_closure 7 _ _ _)).
  - unfold WebSocketTransport.new. simpl. reflexivity.
  - reflexivity.
  - discriminate.
Defined.

(** ** Retries of the HTTP transport in immediate mode *)

Module HttpFacts.
Import HttpTransport.

Lemma number_or_nonzero n d : n <> 0 -> Js.number_or (Some n) d = n.
Proof. intros H. unfold Js.number_or. simpl. by destruct (Z.eqb_spec n 0). Qed.

Lemma number_or_0 n : Js.number_or (Some n) 0 = n.
Proof. unfold Js.number_or. simpl. by destruct (Z.eqb_spec n 0). Qed.

Lemma check_response_fails label o :
  delivery_fails o = true -> exists m, check_response label o = Js.Throw m.
Proof.
  destruct o as [status|]; simpl; [|eauto].
  unfold response_ok. intros ->. eauto.
Qed.

Lemma check_response_succeeds label o :
  delivery_fails o = false -> check_response label o = Js.Normal tt.
Proof.
  destruct o as [status|]; simpl; [|done].
  unfold response_ok. intros H. apply negb_false_iff in H. by rewrite H.
Qed.

Lemma attempts_failing_delivery url hd body pause retries id :
  length (attempts (failing_delivery (Fetch url hd body) pause retries id)) = S retries.
Proof.
  revert id. induction retries as [|k IH]; intros id; simpl; [done|].
  f_equal. apply IH.
Qed.

(** From attempt [a] on, with every attempt failing, [sendLog] makes the
    attempts [a, ..., retryCount] and resolves. *)
Lemma sendLog_all_fail js net tr e rc :
  (forall k, delivery_fails (net k) = true) ->
  retryCount (options tr) = Some rc ->
  forall (retries : nat) (a : Z) (fuel : nat) (w : World),
    a = rc - Z.of_nat retries -> (retries < fuel)%nat ->
    exists w',
      sendLog js fuel net tr e a w = Some (Js.Resolved, w') /\
      trace w' = trace w ++
        failing_delivery (Fetch (request_url tr) (request_headers tr)
                            (js (entry_value (heap w e))))
          (Js.number_or (retryDelay (options tr)) 1000) retries (next_id w) /\
      heap w' = heap w /\ files w' = files w.
Proof.
  intros Hfail Hrc. induction retries as [|k IH]; intros a fuel w Ha Hfuel.
  - destruct fuel as [|fuel]; [lia|]. simpl.
    destruct (check_response_fails "HTTP error: " (net a) (Hfail a)) as [m ->].
    rewrite Hrc, number_or_0.
    destruct (Z.ltb_spec a rc); [lia|].
    eexists. split; [done|]. simpl. rewrite <- app_assoc. done.
  - destruct fuel as [|fuel]; [lia|]. simpl.
    destruct (check_response_fails "HTTP error: " (net a) (Hfail a)) as [m ->].
    rewrite Hrc, number_or_0.
    destruct (Z.ltb_spec a rc); [|lia].
    unfold setTimeout. simpl.
    edestruct (IH (a + 1) fuel) as (w' & -> & Ht & Hh & Hf); [lia | lia |].
    eexists. split; [done|]. rewrite Ht, Hh, Hf. simpl.
    repeat rewrite <- app_assoc. done.
Qed.

(** Whatever the endpoint answers, [sendLog] settles once the fuel exceeds
    the retries that remain. *)
Lemma sendLog_settles js net tr e :
  forall (retries : nat) (a : Z) (fuel : nat) (w : World),
    Js.number_or (retryCount (options tr)) 0 - a <= Z.of_nat retries ->
    (retries < fuel)%nat ->
    exists w',
      sendLog js fuel net tr e a w = Some (Js.Resolved, w') /\
      heap w' = heap w /\ files w' = files w.
Proof.
  induction retries as [|k IH]; intros a fuel w Ha Hfuel;
    (destruct fuel as [|fuel]; [lia|]); simpl;
    (destruct (check_response _ _); [by eexists|]);
    (destruct (Z.ltb_spec a (Js.number_or (retryCount (options tr)) 0));
      [|by eexists]).
  - lia.
  - unfold setTimeout. simpl.
    edestruct (IH (a + 1) fuel) as (w' & -> & Hh & Hf); [lia | lia |].
    eexists. split; [done|]. by rewrite Hh, Hf.
Qed.

End HttpFacts.

(** C2 (amended): in immediate mode, when every POST of an admitted entry
    fails, the delivery makes exactly [retryCount + 1] attempts and arms one
    timer between two consecutive attempts, of [retryDelay] milliseconds, or
    of 1000 when [retryDelay] is 0 or unset; then it gives up: the promise
    returned by [log] resolves, the queue of the transport is as it was and
    nothing is thrown. *)
Theorem C2_http_retry_then_drop js net tr e w :
  Js.truthy (Js.of_bool (HttpTransport.batchLogs (HttpTransport.options tr))) = false ->
  admits (HttpTransport.minLevel (HttpTransport.options tr)) (level (heap w e)) = true ->
  (forall k, delivery_fails (net k) = true) ->
  let pause := Js.number_or (HttpTransport.retryDelay (HttpTransport.options tr)) 1000 in
  gives_up_with_pause pause js net tr e w /\
  pause = match HttpTransport.retryDelay (HttpTransport.options tr) with
          | Some d => if d =? 0 then 1000 else d
          | None => 1000
          end.
Proof.
  intros Hmode Hadm Hfail pause. split.
  - intros rc fuel Hrc Hpos Hfuel request.
    destruct (HttpFacts.sendLog_all_fail js net tr e rc Hfail Hrc (Z.to_nat rc) 0 fuel w)
      as (w' & Hs & Ht & Hh & _); [lia | lia |].
    exists w'. split.
    { unfold HttpTransport.log. rewrite shouldLog_admits, Hadm. simpl.
      unfold HttpTransport.log_admitted. rewrite Hmode, Hs. done. }
    split; [exact Ht|]. split; [|exact Hh].
    unfold request. rewrite HttpFacts.attempts_failing_delivery. lia.
  - subst pause. unfold Js.number_or.
    destruct (HttpTransport.retryDelay _) as [d|]; [|done]. simpl.
    by destruct (d =? 0).
Qed.

Lemma C2_witness :
  exists w',
    HttpTransport.log sample_stringify 3 always_500 (http_immediate_sample 250) 3%nat
      sample_world
    = Some {| HttpTransport.transport := http_immediate_sample 250;
              HttpTransport.world := w';
              HttpTransport.returned := Some Js.Resolved;
              HttpTransport.in_flight := None |} /\
    length (attempts (trace w')) = 3%nat.
Proof.
  destruct (proj1 (C2_http_retry_then_drop sample_stringify always_500
                     (http_immediate_sample 250) 3%nat sample_world
                     eq_refl eq_refl (fun _ => eq_refl))
              2 3%nat eq_refl ltac:(lia) ltac:(simpl; lia))
    as (w' & Hlog & Ht & _).
  exists w'. split; [exact Hlog|]. rewrite Ht. reflexivity.
Defined.

(** With [retryDelay] set to 0 the retries are a second apart: giving up
    with pauses of [retryDelay] fails. *)
Lemma C2_counterexample :
  ~ gives_up_with_retryDelay sample_stringify always_500 (http_immediate_sample 0) 3%nat
      sample_world.
Proof.
  intros H. destruct (H 0 eq_refl 2 3%nat eq_refl) as (w' & Hlog & Ht & _); [lia | simpl; lia |].
  vm_compute in Hlog. injection Hlog as Hw. subst w'.
  vm_compute in Ht. discriminate Ht.
Qed.

(** ** Batches of the HTTP transport *)

Lemma sendBatch_resume_reschedules batch o tr w :
  reschedules tr w (fst (HttpTransport.sendBatch_resume batch o tr w))
    (snd (HttpTransport.sendBatch_resume batch o tr w)).
Proof.
  unfold reschedules, HttpTransport.sendBatch_resume, HttpTransport.scheduleBatch, setTimeout.
  destruct (HttpTransport.check_response _ o);
    destruct (HttpTransport.batchTimeoutId tr) as [old|] eqn:E; simpl; rewrite ?E; simpl;
    rewrite last_snoc; (repeat split; try done); intros ? [= <-];
    repeat rewrite <- app_assoc; rewrite drop_app_length; set_solver.
Qed.

Lemma log_batch_mode js tr e w :
  Js.truthy (Js.of_bool (HttpTransport.batchLogs (HttpTransport.options tr))) = true ->
  admits (HttpTransport.minLevel (HttpTransport.options tr)) (level (heap w e)) = true ->
  flushes_at (Js.number_or (HttpTransport.batchSize (HttpTransport.options tr)) 10) js tr e w.
Proof.
  intros Hmode Hadm fuel net.
  unfold HttpTransport.log. rewrite shouldLog_admits, Hadm. simpl.
  unfold HttpTransport.log_admitted. rewrite Hmode. simpl.
  rewrite Z.geb_leb.
  destruct (Z.ltb_spec (Z.of_nat (length (HttpTransport.logQueue tr ++ [e])))
              (Js.number_or (HttpTransport.batchSize (HttpTransport.options tr)) 10));
    destruct (Z.leb_spec (Js.number_or (HttpTransport.batchSize (HttpTransport.options tr)) 10)
                (Z.of_nat (length (HttpTransport.logQueue tr ++ [e]))));
    try lia; [done|].
  unfold HttpTransport.sendBatch_begin. simpl.
  rewrite length_app. simpl.
  destruct (Nat.eqb_spec (length (HttpTransport.logQueue tr) + 1) 0); [lia|].
  done.
Qed.

(** C3 (amended): in batch mode an admitted entry joins the end of the
    queue; when the queue then holds [batchSize] entries (10 when
    [batchSize] is 0 or unset) the whole queue leaves at once in a single
    POST whose body is the JSON array of the queued entries in the order
    they were enqueued, and when that request has settled the batch timer
    is cleared and armed anew. *)
Theorem C3_batch_flush_at_effective_size js tr e w :
  Js.truthy (Js.of_bool (HttpTransport.batchLogs (HttpTransport.options tr))) = true ->
  admits (HttpTransport.minLevel (HttpTransport.options tr)) (level (heap w e)) = true ->
  let threshold := Js.number_or (HttpTransport.batchSize (HttpTransport.options tr)) 10 in
  flushes_at threshold js tr e w /\
  threshold = match HttpTransport.batchSize (HttpTransport.options tr) with
              | Some n => if n =? 0 then 10 else n
              | None => 10
              end /\
  (forall batch o tr1 w1,
      reschedules tr1 w1 (fst (HttpTransport.sendBatch_resume batch o tr1 w1))
        (snd (HttpTransport.sendBatch_resume batch o tr1 w1))).
Proof.
  intros Hmode Hadm threshold. split; [by apply log_batch_mode|]. split.
  - subst threshold. unfold Js.number_or.
    destruct (HttpTransport.batchSize _) as [n|]; [|done]. simpl.
    by destruct (n =? 0).
  - intros. apply sendBatch_resume_reschedules.
Qed.

Lemma C3_witness :
  flushes_at 2 sample_stringify (http_batch_sample 2) 1%nat sample_world.
Proof.
  refine (proj1 (C3_batch_flush_at_effective_size sample_stringify (http_batch_sample 2)
                   1%nat sample_world _ _)); reflexivity.
Defined.

(** With [batchSize] set to 0 the first entry does not leave: the flush rule
    with [batchSize] itself as threshold fails. *)
Lemma C3_counterexample :
  ~ flushes_at_batchSize sample_stringify (http_batch_sample 0) 1%nat sample_world.
Proof.
  intros H. specialize (H 0 eq_refl 0%nat always_500).
  apply (f_equal (fun r => HttpTransport.in_flight <$> r)) in H.
  vm_compute in H. discriminate H.
Qed.

(** C4: a batch whose POST fails goes back, whole and in its order, to the
    head of the queue as the queue is when the failure is handled, ahead of
    whatever was enqueued while the request was in flight; handling the
    failure sends nothing, and the next flush carries the failed batch and
    the newer entries together in one request. *)
Theorem C4_failed_batch_is_prepended js tr w batch tr1 w1 :
  HttpTransport.sendBatch_begin js tr w = (Some batch, tr1, w1) ->
  batch = HttpTransport.logQueue tr /\
  HttpTransport.logQueue tr1 = [] /\
  trace w1 = trace w ++ [batch_request js tr w batch] /\
  forall o tr2 w2,
    delivery_fails o = true ->
    let tr3 := fst (HttpTransport.sendBatch_resume batch o tr2 w2) in
    let w3 := snd (HttpTransport.sendBatch_resume batch o tr2 w2) in
    HttpTransport.logQueue tr3 = batch ++ HttpTransport.logQueue tr2 /\
    attempts (trace w3) = attempts (trace w2) /\
    HttpTransport.sendBatch_begin js tr3 w3
    = (Some (batch ++ HttpTransport.logQueue tr2),
       HttpTransport.set_queue [] tr3,
       emit (batch_request js tr3 w3 (batch ++ HttpTransport.logQueue tr2)) w3).
Proof.
  unfold HttpTransport.sendBatch_begin.
  destruct (Nat.eqb_spec (length (HttpTransport.logQueue tr)) 0) as [|Hne]; [done|].
  intros [= <- <- <-]. do 3 (split; [done|]).
  intros o tr2 w2 Hfail. simpl.
  unfold HttpTransport.sendBatch_resume.
  destruct (HttpFacts.check_response_fails "HTTP batch error: " o Hfail) as [m ->].
  unfold HttpTransport.scheduleBatch, setTimeout.
  destruct (HttpTransport.batchTimeoutId tr2) eqn:E; simpl; rewrite ?E; simpl.
  all: split; [done|]; split;
    [unfold attempts; rewrite !List.filter_app; simpl; by rewrite !app_nil_r|].
  all: rewrite length_app;
    destruct (Nat.eqb_spec (length (HttpTransport.logQueue tr) +
                            length (HttpTransport.logQueue tr2)) 0); [lia | done].
Qed.

Lemma C4_witness :
  HttpTransport.logQueue
    (fst (HttpTransport.sendBatch_resume [1; 2]%nat (HttpTransport.Response 503)
            (HttpTransport.set_queue [3]%nat (http_batch_sample 2)) sample_world))
  = [1; 2; 3]%nat.
Proof.
  refine (proj1 (proj2 (proj2 (proj2
    (C4_failed_batch_is_prepended sample_stringify
       (HttpTransport.set_queue [1; 2]%nat (http_batch_sample 2)) sample_world
       [1; 2]%nat _ _ _))) (HttpTransport.Response 503)
       (HttpTransport.set_queue [3]%nat (http_batch_sample 2)) sample_world _));
    reflexivity.
Defined.

(** ** The buffer of the WebSocket transport *)

Module WsBuffer.
Import WebSocketTransport.

Lemma lastn_all {A} n (l : list A) : (length l <= n)%nat -> lastn n l = l.
Proof. intros H. unfold lastn. by replace (length l - n)%nat with 0%nat by lia. Qed.

Lemma length_lastn {A} n (l : list A) : length (lastn n l) = (length l `min` n)%nat.
Proof. unfold lastn. rewrite length_drop. lia. Qed.

Lemma lastn_snoc {A} n (l : list A) e :
  (0 < n)%nat -> lastn n (lastn n l ++ [e]) = lastn n (l ++ [e]).
Proof.
  intros Hn. destruct (decide (length l <= n)%nat) as [Hl|Hl].
  { by rewrite (lastn_all n l). }
  unfold lastn at 1 3. rewrite !length_app, length_lastn. simpl.
  replace (length l `min` n + 1 - n)%nat with 1%nat by lia.
  unfold lastn. rewrite (drop_app_le l [e]) by lia.
  rewrite (drop_app_le (drop _ l) [e]) by (rewrite length_drop; lia).
  rewrite drop_drop. f_equal. f_equal. lia.
Qed.

(** One call of [bufferMessage] under a positive capacity. *)
Lemma bufferMessage_capped tr e n :
  maxBufferSize (options tr) = Some n -> 0 < n ->
  (length (buffer tr) <= Z.to_nat n)%nat ->
  bufferMessage tr e = set_buffer (lastn (Z.to_nat n) (buffer tr ++ [e])) tr.
Proof.
  intros Hmax Hn Hlen. unfold bufferMessage. rewrite Hmax. simpl.
  destruct (Z.eqb_spec n 0); [lia|]. simpl.
  rewrite Z.geb_leb. destruct (Z.leb_spec n (Z.of_nat (length (buffer tr)))).
  - unfold set_buffer. simpl. f_equal.
    unfold lastn. rewrite length_app. simpl.
    replace (length (buffer tr) + 1 - Z.to_nat n)%nat with 1%nat by lia.
    destruct (buffer tr); simpl in *; [lia|]. by rewrite drop_0.
  - unfold set_buffer. simpl. f_equal. rewrite lastn_all; [done|].
    rewrite length_app. simpl. lia.
Qed.

(** A capacity of zero is no capacity: nothing is ever dropped. *)
Lemma bufferMessage_uncapped tr e :
  Js.truthy (Js.of_number (maxBufferSize (options tr))) = false ->
  bufferMessage tr e = set_buffer (buffer tr ++ [e]) tr.
Proof. intros H. unfold bufferMessage. by rewrite H. Qed.

Lemma set_buffer_set_buffer b1 b2 tr : set_buffer b2 (set_buffer b1 tr) = set_buffer b2 tr.
Proof. done. Qed.

Lemma set_buffer_id tr : set_buffer (buffer tr) tr = tr.
Proof. by destruct tr. Qed.

Lemma log_buffers js throws tr e w :
  socket_open tr = false ->
  admits (minLevel (options tr)) (level (heap w e)) = true ->
  log js throws tr e w =
  if Js.truthy (Js.of_bool (bufferWhenDisconnected (options tr)))
  then (bufferMessage tr e, w) else (tr, w).
Proof.
  intros Hs Ha. unfold log. rewrite shouldLog_admits, Ha. simpl.
  unfold log_admitted. by rewrite Hs.
Qed.

Lemma log_each_capped js n es : forall tr w,
  socket_open tr = false ->
  bufferWhenDisconnected (options tr) = Some true ->
  maxBufferSize (options tr) = Some n -> 0 < n ->
  (length (buffer tr) <= Z.to_nat n)%nat ->
  Forall (fun e => admits (minLevel (options tr)) (level (heap w e)) = true) es ->
  buffers_last n js tr es w.
Proof.
  unfold buffers_last, ws_log_each.
  induction es as [|e es IH] using rev_ind; intros tr w Hs Hb Hmax Hn Hlen Hadm.
  { simpl. rewrite app_nil_r, lastn_all by done. by rewrite set_buffer_id. }
  apply Forall_app in Hadm as [Hes He]. rewrite Forall_singleton in He.
  rewrite foldl_app. simpl. rewrite IH by done. simpl.
  rewrite log_buffers; [| exact Hs | exact He]. simpl. rewrite Hb. simpl.
  rewrite (bufferMessage_capped _ e n); simpl; try done.
  - rewrite set_buffer_set_buffer, app_assoc. f_equal. f_equal.
    apply lastn_snoc. lia.
  - rewrite length_lastn. lia.
Qed.

Lemma log_each_uncapped js es : forall tr w,
  socket_open tr = false ->
  bufferWhenDisconnected (options tr) = Some true ->
  Js.truthy (Js.of_number (maxBufferSize (options tr))) = false ->
  Forall (fun e => admits (minLevel (options tr)) (level (heap w e)) = true) es ->
  ws_log_each js tr es w = (set_buffer (buffer tr ++ es) tr, w).
Proof.
  unfold ws_log_each.
  induction es as [|e es IH] using rev_ind; intros tr w Hs Hb Hmax Hadm.
  { simpl. by rewrite app_nil_r, set_buffer_id. }
  apply Forall_app in Hadm as [Hes He]. rewrite Forall_singleton in He.
  rewrite foldl_app. simpl. rewrite IH by done. simpl.
  rewrite log_buffers; [| exact Hs | exact He]. simpl. rewrite Hb. simpl.
  rewrite bufferMessage_uncapped by exact Hmax. simpl.
  by rewrite set_buffer_set_buffer, app_assoc.
Qed.

Lemma log_each_dropped js es : forall tr w,
  socket_open tr = false ->
  Js.truthy (Js.of_bool (bufferWhenDisconnected (options tr))) = false ->
  Forall (fun e => admits (minLevel (options tr)) (level (heap w e)) = true) es ->
  ws_log_each js tr es w = (tr, w).
Proof.
  unfold ws_log_each.
  induction es as [|e es IH] using rev_ind; intros tr w Hs Hb Hadm; [done|].
  apply Forall_app in Hadm as [Hes He]. rewrite Forall_singleton in He.
  rewrite foldl_app. simpl. rewrite IH by done. simpl.
  rewrite log_buffers; [| exact Hs | exact He]. by rewrite Hb.
Qed.

(** The loop over the buffer on an open socket whose sends succeed: one
    frame per buffered entry, in order, and the buffer is left as it is. *)
Lemma sendBuffered_loop_open js throws tr s :
  socket tr = Some s -> readyState s = OPEN ->
  (forall i, throws i = false) ->
  forall post pre fuel w,
    buffer tr = pre ++ post -> (length post < fuel)%nat ->
    sendBuffered_loop js fuel throws (length pre) tr w
    = Some (tr, {| heap := heap w; files := files w; next_id := next_id w;
                   trace := trace w ++
                     map (fun r => WsSend (socket_id s) (js (entry_value (heap w r)))) post |}).
Proof.
  intros Hs Hopen Hok. induction post as [|e post IH]; intros pre fuel w Hb Hfuel;
    (destruct fuel as [|fuel]; [simpl in Hfuel; lia|]); simpl.
  - rewrite Hb, app_nil_r, lookup_ge_None_2 by lia.
    rewrite app_nil_r. by destruct w.
  - rewrite Hb, list_lookup_middle by done.
    unfold sendLogEntry. rewrite Hs, Hopen, Hok. simpl.
    specialize (IH (pre ++ [e]) fuel (emit (WsSend (socket_id s) (js (entry_value (heap w e)))) w)).
    rewrite length_app in IH. simpl in IH.
    replace (length pre + 1)%nat with (S (length pre)) in IH by lia.
    rewrite IH; [| by rewrite <- app_assoc | simpl in Hfuel; lia].
    simpl. by rewrite <- app_assoc.
Qed.

Lemma socket_opens_flushes js throws tr s fuel w :
  socket tr = Some s ->
  (forall i, throws i = false) ->
  (length (buffer tr) < fuel)%nat ->
  exists tr' w',
    socket_opens js fuel throws tr w = Some (tr', w') /\
    buffer tr' = [] /\
    socket_open tr' = true /\
    heap w' = heap w /\
    trace w' = trace w ++ opening_events js tr (socket_id s) w.
Proof.
  intros Hs Hok Hfuel. unfold socket_opens, handleOpen, sendBufferedMessages, opening_events.
  rewrite Hs. simpl.
  destruct (buffer tr) as [|e b] eqn:Hb; simpl.
  { eexists _, _. split; [done|]. simpl. by rewrite Hb. }
  set (tr1 := set_reconnectAttempts 0 _).
  pose proof (sendBuffered_loop_open js throws tr1
                {| socket_id := socket_id s; readyState := OPEN |}
                eq_refl eq_refl Hok (e :: b) [] fuel) as Hloop.
  simpl in Hloop. rewrite Hloop; [| by rewrite <- Hb | simpl in *; lia].
  eexists _, _. split; [done|]. simpl. repeat split; try done.
  unfold established_message, sending_message, buffered_frames. simpl. rewrite Hb.
  by rewrite <- !app_assoc.
Qed.

End WsBuffer.

Lemma log_drops_oldest js tr e w n :
  WebSocketTransport.socket_open tr = false ->
  admits (WebSocketTransport.minLevel (WebSocketTransport.options tr)) (level (heap w e))
  = true ->
  Js.truthy (Js.of_bool (WebSocketTransport.bufferWhenDisconnected
                           (WebSocketTransport.options tr))) = true ->
  WebSocketTransport.maxBufferSize (WebSocketTransport.options tr) = Some n ->
  n <> 0 ->
  drops_oldest_at n js tr e w.
Proof.
  intros Hs Ha Hb Hmax Hn throws. rewrite WsBuffer.log_buffers by done. rewrite Hb.
  unfold WebSocketTransport.bufferMessage. rewrite Hmax. simpl.
  destruct (Z.eqb_spec n 0); [done|]. simpl.
  by destruct (_ >=? n).
Qed.

(** C7 (amended): while the socket is not open, admitted entries go to the
    end of the buffer and, for a [maxBufferSize] other than 0, the oldest
    buffered entry is dropped when the buffer already holds [maxBufferSize]
    entries, so that the buffer holds the last [maxBufferSize] entries in
    arrival order; a [maxBufferSize] of 0 sets no limit.  With buffering off
    the entries are dropped.  When the socket opens and the sends succeed,
    the buffered entries are sent in order and the buffer is emptied. *)
Theorem C7_buffer_while_disconnected js tr es w :
  WebSocketTransport.socket_open tr = false ->
  Forall (fun e => admits (WebSocketTransport.minLevel (WebSocketTransport.options tr))
                     (level (heap w e)) = true) es ->
  let buffering :=
    Js.truthy (Js.of_bool (WebSocketTransport.bufferWhenDisconnected
                             (WebSocketTransport.options tr))) in
  (forall n,
      buffering = true ->
      WebSocketTransport.maxBufferSize (WebSocketTransport.options tr) = Some n ->
      n <> 0 ->
      Forall (fun e => drops_oldest_at n js tr e w) es) /\
  (forall n,
      buffering = true ->
      WebSocketTransport.maxBufferSize (WebSocketTransport.options tr) = Some n ->
      0 < n ->
      (length (WebSocketTransport.buffer tr) <= Z.to_nat n)%nat ->
      buffers_last n js tr es w /\
      (length (WebSocketTransport.buffer (fst (ws_log_each js tr es w))) <= Z.to_nat n)%nat) /\
  (buffering = true ->
   WebSocketTransport.maxBufferSize (WebSocketTransport.options tr) = Some 0 ->
   ws_log_each js tr es w
   = (WebSocketTransport.set_buffer (WebSocketTransport.buffer tr ++ es) tr, w)) /\
  (buffering = false -> ws_log_each js tr es w = (tr, w)) /\
  (forall s throws fuel,
      WebSocketTransport.socket tr = Some s ->
      (forall i, throws i = false) ->
      (length (WebSocketTransport.buffer tr) < fuel)%nat ->
      exists tr' w',
        WebSocketTransport.socket_opens js fuel throws tr w = Some (tr', w') /\
        WebSocketTransport.buffer tr' = [] /\
        trace w' = trace w ++ opening_events js tr (WebSocketTransport.socket_id s) w).
Proof.
  intros Hs Hadm buffering. subst buffering.
  split; [|split; [|split; [|split]]].
  - intros n Hb Hmax Hn. eapply Forall_impl; [exact Hadm|].
    intros e He. by apply log_drops_oldest.
  - intros n Hb Hmax Hn Hlen.
    assert (Hb' : WebSocketTransport.bufferWhenDisconnected (WebSocketTransport.options tr)
                  = Some true).
    { by destruct (WebSocketTransport.bufferWhenDisconnected _) as [[]|]. }
    pose proof (WsBuffer.log_each_capped js n es tr w Hs Hb' Hmax Hn Hlen Hadm) as H.
    split; [exact H|]. unfold buffers_last in H. rewrite H. simpl.
    rewrite WsBuffer.length_lastn. lia.
  - intros Hb Hmax.
    assert (Hb' : WebSocketTransport.bufferWhenDisconnected (WebSocketTransport.options tr)
                  = Some true).
    { by destruct (WebSocketTransport.bufferWhenDisconnected _) as [[]|]. }
    apply WsBuffer.log_each_uncapped; try done. by rewrite Hmax.
  - intros Hb. by apply WsBuffer.log_each_dropped.
  - intros s throws fuel Hsock Hok Hfuel.
    destruct (WsBuffer.socket_opens_flushes js throws tr s fuel w Hsock Hok Hfuel)
      as (tr' & w' & H1 & H2 & _ & _ & H3).
    by exists tr', w'.
Qed.

Lemma C7_witness :
  buffers_last 2 sample_stringify (ws_sample 2) [5; 6; 7]%nat sample_world.
Proof.
  refine (proj1 (proj1 (proj2 (C7_buffer_while_disconnected sample_stringify (ws_sample 2)
                          [5; 6; 7]%nat sample_world _ _)) 2 _ _ _ _)).
  - reflexivity.
  - repeat constructor.
  - reflexivity.
  - reflexivity.
  - lia.
  - simpl. lia.
Defined.

(** With [maxBufferSize] set to 0 a buffer that holds an entry keeps it when
    the next one arrives: dropping the oldest at [maxBufferSize] fails. *)
Lemma C7_counterexample :
  ~ drops_oldest_at_maxBufferSize sample_stringify
      (WebSocketTransport.set_buffer [5]%nat (ws_sample 0)) 6%nat sample_world.
Proof.
  intros H. specialize (H 0 eq_refl false).
  apply (f_equal (fun st => WebSocketTransport.buffer (fst st))) in H.
  vm_compute in H. discriminate H.
Qed.

(** ** The heap is a frame of every delivery *)

Module Frame.

Lemma attempt_heap r w :
  (forall w1, r = Js.Normal w1 -> heap w1 = heap w) ->
  heap (fst (FileTransport.attempt r w)) = heap w.
Proof. destruct r; simpl; eauto. Qed.

Lemma unlinkSync_heap p w w1 : Fs.unlinkSync p w = Js.Normal w1 -> heap w1 = heap w.
Proof. unfold Fs.unlinkSync. destruct (files w !! p) as [[]|]; by intros [= <-]. Qed.

Lemma renameSync_heap a b w w1 : Fs.renameSync a b w = Js.Normal w1 -> heap w1 = heap w.
Proof. unfold Fs.renameSync. destruct (files w !! a); by intros [= <-]. Qed.

Lemma shift_backups_heap base ext n : forall w,
  heap (fst (FileTransport.shift_backups base ext n w)) = heap w.
Proof.
  induction n as [|k IH]; intros w; [done|].
  cbn [FileTransport.shift_backups].
  destruct (Fs.existsSync _ w).
  - pose proof (attempt_heap (Fs.renameSync (FileTransport.backup base (Z.of_nat (S k)) ext)
                  (FileTransport.backup base (Z.of_nat (S k) + 1) ext) w) w
                  (renameSync_heap _ _ w)) as H.
    destruct (FileTransport.attempt _ w) as [w1 [m|]]; simpl in *; [done|].
    by rewrite IH.
  - apply IH.
Qed.

Lemma renameOldFiles_heap tr w : heap (FileTransport.renameOldFiles tr w) = heap w.
Proof.
  unfold FileTransport.renameOldFiles, FileTransport.renameOldFiles_try.
  set (r := if Fs.existsSync _ w then _ else _).
  assert (Hr : heap (fst r) = heap w).
  { subst r. destruct (Fs.existsSync _ w); [|done].
    apply attempt_heap, unlinkSync_heap. }
  destruct r as [w1 [m|]]; simpl in Hr; [done|].
  pose proof (shift_backups_heap (FileTransport.basePath_of tr) (FileTransport.ext_of tr)
                (Z.to_nat (FileTransport.maxIndex_of tr - 1)) w1) as Hs.
  destruct (FileTransport.shift_backups _ _ _ w1) as [w2 [m|]]; simpl in *; [congruence|].
  pose proof (attempt_heap (Fs.renameSync (FileTransport.currentFilePath tr)
                (FileTransport.backup (FileTransport.basePath_of tr) 1 (FileTransport.ext_of tr))
                w2) w2 (renameSync_heap _ _ w2)) as Ha.
  destruct (FileTransport.attempt _ w2) as [w3 [m|]]; simpl in *; congruence.
Qed.

Lemma createWriteStream_heap tr w :
  heap (snd (FileTransport.createWriteStream tr w)) = heap w.
Proof. unfold FileTransport.createWriteStream. by destruct (FileTransport.writeStream tr). Qed.

Lemma rotateFile_heap tr w : heap (snd (FileTransport.rotateFile tr w)) = heap w.
Proof.
  unfold FileTransport.rotateFile. destruct (FileTransport.writeStream tr); [|done].
  by rewrite createWriteStream_heap, renameOldFiles_heap.
Qed.

Lemma file_log_heap js fails tr e w :
  heap (snd (FileTransport.log js fails tr e w)) = heap w.
Proof.
  unfold FileTransport.log. destruct (negb _); [done|].
  unfold FileTransport.log_admitted.
  set (st := match FileTransport.writeStream tr with None => _ | Some _ => _ end).
  assert (Hst : heap (snd st) = heap w).
  { subst st. destruct (FileTransport.writeStream tr); [done|].
    apply createWriteStream_heap. }
  destruct st as [tr1 w1]. simpl in Hst.
  destruct (FileTransport.writeStream tr1); [|done].
  destruct fails; [done|].
  destruct (FileTransport.over_maxSize _); [|done].
  by rewrite rotateFile_heap.
Qed.

Lemma console_log_heap js jsi tr e w :
  heap (snd (ConsoleTransport.log js jsi tr e w)) = heap w.
Proof.
  unfold ConsoleTransport.log, ConsoleTransport.log_admitted.
  destruct (negb _); [done|]. by destruct (Js.truthy _).
Qed.

Lemma http_log_heap js fuel net tr e w :
  (Z.to_nat (Js.number_or (HttpTransport.retryCount (HttpTransport.options tr)) 0) < fuel)%nat ->
  exists r, HttpTransport.log js fuel net tr e w = Some r /\
            heap (HttpTransport.world r) = heap w.
Proof.
  intros Hfuel. unfold HttpTransport.log. destruct (negb _); [by eexists|].
  unfold HttpTransport.log_admitted. destruct (Js.truthy _).
  - destruct (_ >=? _); [|by eexists].
    unfold HttpTransport.sendBatch_begin.
    destruct (_ =? _)%nat; by eexists.
  - destruct (HttpFacts.sendLog_settles js net tr e
                (Z.to_nat (Js.number_or (HttpTransport.retryCount (HttpTransport.options tr)) 0))
                0 fuel w) as (w' & -> & Hh & _); [lia | done |].
    by eexists.
Qed.

Lemma http_resume_heap batch o tr w :
  heap (snd (HttpTransport.sendBatch_resume batch o tr w)) = heap w.
Proof.
  unfold HttpTransport.sendBatch_resume, HttpTransport.scheduleBatch, setTimeout.
  destruct (HttpTransport.check_response _ o);
    destruct (HttpTransport.batchTimeoutId tr) eqn:E; simpl; rewrite ?E; done.
Qed.

Lemma ws_sendLogEntry_heap js throws tr e w :
  heap (snd (WebSocketTransport.sendLogEntry js throws tr e w)) = heap w.
Proof.
  unfold WebSocketTransport.sendLogEntry.
  destruct (WebSocketTransport.socket tr) as [s|];
    [destruct (negb (WebSocketTransport.ReadyState_eqb _ _))|];
    destruct throws;
    by destruct (Js.truthy (Js.of_bool (WebSocketTransport.bufferWhenDisconnected
                                          (WebSocketTransport.options tr)))).
Qed.

Lemma ws_log_heap js throws tr e w :
  heap (snd (WebSocketTransport.log js throws tr e w)) = heap w.
Proof.
  unfold WebSocketTransport.log, WebSocketTransport.log_admitted.
  destruct (negb _); [done|]. destruct (negb (WebSocketTransport.socket_open tr)).
  - by destruct (Js.truthy (Js.of_bool (WebSocketTransport.bufferWhenDisconnected
                                          (WebSocketTransport.options tr)))).
  - apply ws_sendLogEntry_heap.
Qed.

Lemma ws_loop_heap js throws fuel : forall i tr w tr' w',
  WebSocketTransport.sendBuffered_loop js fuel throws i tr w = Some (tr', w') ->
  heap w' = heap w.
Proof.
  induction fuel as [|fuel IH]; intros i tr w tr' w'; [done|]. simpl.
  destruct (WebSocketTransport.buffer tr !! i) as [e|]; [|by intros [= <- <-]].
  pose proof (ws_sendLogEntry_heap js (throws i) tr e w) as H.
  destruct (WebSocketTransport.sendLogEntry _ _ tr e w) as [tr1 w1].
  intros E. apply IH in E. simpl in H. congruence.
Qed.

Lemma ws_socket_opens_heap js throws fuel tr w tr' w' :
  WebSocketTransport.socket_opens js fuel throws tr w = Some (tr', w') -> heap w' = heap w.
Proof.
  unfold WebSocketTransport.socket_opens, WebSocketTransport.handleOpen,
    WebSocketTransport.sendBufferedMessages.
  destruct (WebSocketTransport.socket tr); simpl;
    (destruct (_ =? _)%nat; [by intros [= <- <-]|]);
    (destruct (WebSocketTransport.sendBuffered_loop _ _ _ _ _ _) as [[tr1 w1]|] eqn:E;
      [|done]); intros [= <- <-]; by apply ws_loop_heap in E.
Qed.

End Frame.

(** C8: no delivery writes to the heap of entries.  After [log] of any of
    the four transports, and after the deferred parts of a delivery (the
    settlement of a batch request, the flush of the buffer when the socket
    opens), every entry object holds what it held before. *)
Theorem C8_log_leaves_entries_unchanged :
  (forall js jsi tr e w, heap (snd (ConsoleTransport.log js jsi tr e w)) = heap w) /\
  (forall js fails tr e w, heap (snd (FileTransport.log js fails tr e w)) = heap w) /\
  (forall js fuel net tr e w,
      (Z.to_nat (Js.number_or (HttpTransport.retryCount (HttpTransport.options tr)) 0)
       < fuel)%nat ->
      exists r, HttpTransport.log js fuel net tr e w = Some r /\
                heap (HttpTransport.world r) = heap w) /\
  (forall batch o tr w, heap (snd (HttpTransport.sendBatch_resume batch o tr w)) = heap w) /\
  (forall js throws tr e w, heap (snd (WebSocketTransport.log js throws tr e w)) = heap w) /\
  (forall js throws fuel tr w tr' w',
      WebSocketTransport.socket_opens js fuel throws tr w = Some (tr', w') ->
      heap w' = heap w).
Proof.
  repeat split.
  - apply Frame.console_log_heap.
  - apply Frame.file_log_heap.
  - apply Frame.http_log_heap.
  - apply Frame.http_resume_heap.
  - apply Frame.ws_log_heap.
  - apply Frame.ws_socket_opens_heap.
Qed.

Lemma C8_witness :
  exists r, HttpTransport.log sample_stringify 3 always_500 (http_immediate_sample 250) 3%nat
              sample_world = Some r /\
            heap (HttpTransport.world r) = heap sample_world.
Proof.
  apply (proj1 (proj2 (proj2 C8_log_leaves_entries_unchanged))). simpl. lia.
Defined.

(** ** Names of backups *)

Module Names.

Lemma length_append s1 s2 :
  String.length (s1 +:+ s2) = (String.length s1 + String.length s2)%nat.
Proof. induction s1 as [|c s1 IH]; simpl; [done|]. by rewrite IH. Qed.

Lemma append_inv_tail s1 : forall s2 t, s1 +:+ t = s2 +:+ t -> s1 = s2.
Proof.
  induction s1 as [|c s1 IH]; intros [|d s2] t H; [done| | |].
  - apply (f_equal String.length) in H. rewrite !length_append in H. simpl in H. lia.
  - apply (f_equal String.length) in H. rewrite !length_append in H. simpl in H. lia.
  - cbn in H. injection H as -> H. f_equal. by apply IH in H.
Qed.

Lemma to_int_no_nil z : Z.to_int z <> Decimal.Pos Decimal.Nil /\ Z.to_int z <> Decimal.Neg Decimal.Nil.
Proof.
  destruct z as [|p|p]; simpl; split; try done;
    intros [= H]; by apply DecimalPos.Unsigned.to_uint_nonnil in H.
Qed.

Lemma number_to_string_inj i j :
  Js.number_to_string i = Js.number_to_string j -> i = j.
Proof.
  unfold Js.number_to_string. intros H.
  apply (f_equal NilZero.int_of_string) in H.
  destruct (to_int_no_nil i), (to_int_no_nil j).
  rewrite !NilZero.isi in H by done.
  injection H as H. apply (f_equal Z.of_int) in H. by rewrite !DecimalZ.of_to in H.
Qed.

Lemma backup_inj base ext i j :
  FileTransport.backup base i ext = FileTransport.backup base j ext -> i = j.
Proof.
  unfold FileTransport.backup. intros H.
  apply (inj (String.app base)) in H. apply (inj (String.app ".")) in H.
  apply append_inv_tail in H. by apply number_to_string_inj.
Qed.

Lemma active_not_backup base ext i : base +:+ ext <> FileTransport.backup base i ext.
Proof.
  unfold FileTransport.backup. intros H. apply (inj (String.app base)) in H.
  apply (f_equal String.length) in H. rewrite !length_append in H. simpl in H. lia.
Qed.

Lemma append_nil_r s : s +:+ "" = s.
Proof.
  induction s as [|c s IH]; [done|].
  change (String c (s +:+ "") = String c s). by rewrite IH.
Qed.

Lemma append_assoc s1 s2 s3 : (s1 +:+ s2) +:+ s3 = s1 +:+ (s2 +:+ s3).
Proof.
  induction s1 as [|c s1 IH]; [done|].
  change (String c ((s1 +:+ s2) +:+ s3) = String c (s1 +:+ (s2 +:+ s3))). by rewrite IH.
Qed.

Lemma from_last_suffix c s x : Path.from_last c s = Some x -> exists b, s = b +:+ x.
Proof.
  revert x. induction s as [|a r IH]; intros x; [done|]. simpl.
  destruct (Path.from_last c r) as [y|].
  - intros [= <-]. destruct (IH y eq_refl) as [b ->]. by exists (String a b).
  - destruct (Ascii.eqb a c); [|done]. intros [= <-]. by exists ""%string.
Qed.

Lemma basename_suffix p : exists b, p = b +:+ Path.basename p.
Proof.
  unfold Path.basename.
  destruct (Path.from_last "/" p) as [[|c r]|] eqn:E; try by exists ""%string.
  apply from_last_suffix in E as [b ->].
  exists (b +:+ String c ""). by rewrite append_assoc.
Qed.

(** The extension is a suffix of the path. *)
Lemma extname_suffix p : exists b, p = b +:+ Path.extname p.
Proof.
  unfold Path.extname.
  destruct (Path.from_last "." (Path.basename p)) as [x|] eqn:E;
    [|exists p; by rewrite append_nil_r].
  destruct (_ =? _)%nat; [exists p; by rewrite append_nil_r|].
  destruct (String.eqb _ _); [exists p; by rewrite append_nil_r|].
  apply from_last_suffix in E as [b1 E]. destruct (basename_suffix p) as [b0 Hp].
  exists (b0 +:+ b1). by rewrite append_assoc, <- E.
Qed.

Lemma substring_prefix b x : substring 0 (String.length b) (b +:+ x) = b.
Proof.
  induction b as [|c b IH]; [by destruct x|].
  change (String c (substring 0 (String.length b) (b +:+ x)) = String c b). by rewrite IH.
Qed.

(** Cutting a non-empty extension off a path leaves the rest of the path. *)
Lemma slice0_extname p :
  Path.extname p <> ""%string ->
  p = Path.slice0 p (- Z.of_nat (String.length (Path.extname p))) +:+ Path.extname p.
Proof.
  intros Hne. destruct (extname_suffix p) as [b Hp].
  set (x := Path.extname p) in *.
  assert (0 < String.length x)%nat by (destruct x; [done | cbn; lia]).
  rewrite Hp at 2. unfold Path.slice0. rewrite length_append.
  destruct (Z.ltb_spec (- Z.of_nat (String.length x)) 0); [|lia].
  replace (Z.to_nat _) with (String.length b) by lia.
  rewrite substring_prefix. exact Hp.
Qed.

End Names.

(** ** Rotation of the file transport *)

Module Rotation.
Import FileTransport.

Lemma existsSync_Some p w n : files w !! p = Some n -> Fs.existsSync p w = true.
Proof. intros H. unfold Fs.existsSync. apply bool_decide_eq_true_2. by rewrite H. Qed.

Lemma existsSync_None p w : files w !! p = None -> Fs.existsSync p w = false.
Proof.
  intros H. unfold Fs.existsSync. apply bool_decide_eq_false_2. rewrite H.
  by intros [? ?].
Qed.

Section Shift.
Variables base ext : string.
Local Abbreviation B i := (backup base i ext).

Lemma shift_events_ext f1 f2 n :
  (forall i, 1 <= i <= Z.of_nat n -> f1 !! B i = f2 !! B i) ->
  shift_events base ext f1 n = shift_events base ext f2 n.
Proof.
  induction n as [|k IH]; intros H; [done|].
  cbn [shift_events]. rewrite (H (Z.of_nat (S k))) by lia.
  f_equal. apply IH. intros i Hi. apply H. lia.
Qed.

(** The loop on a state in which the slot above the highest index is free:
    no call throws, every backup moves up by one and slot 1 is left free. *)
Lemma shift_backups_spec n : forall w,
  files w !! B (Z.of_nat n + 1) = None ->
  exists w',
    shift_backups base ext n w = (w', None) /\
    heap w' = heap w /\ next_id w' = next_id w /\
    trace w' = trace w ++ shift_events base ext (files w) n /\
    (forall i, 2 <= i <= Z.of_nat n + 1 -> files w' !! B i = files w !! B (i - 1)) /\
    ((1 <= n)%nat -> files w' !! B 1 = None) /\
    (forall p, (forall i, 1 <= i <= Z.of_nat n + 1 -> p <> B i) ->
               files w' !! p = files w !! p) /\
    (n = 0%nat -> w' = w).
Proof.
  induction n as [|k IH]; intros w Hfree.
  { exists w. simpl. rewrite app_nil_r. repeat split; try done; lia. }
  cbn [shift_backups shift_events].
  replace (Z.of_nat (S k)) with (Z.of_nat k + 1) in * by lia.
  destruct (files w !! B (Z.of_nat k + 1)) as [node|] eqn:E.
  - rewrite (existsSync_Some _ _ _ E).
    rewrite bool_decide_eq_true_2 by eauto.
    unfold attempt, Fs.renameSync. rewrite E.
    set (w1 := emit _ _).
    assert (Hf1 : files w1 = <[ B (Z.of_nat k + 1 + 1) := node ]>
                               (delete (B (Z.of_nat k + 1)) (files w))) by done.
    assert (Hh1 : heap w1 = heap w) by done.
    assert (Hid1 : next_id w1 = next_id w) by done.
    assert (Ht1 : trace w1 = trace w ++ [FsRename (B (Z.of_nat k + 1)) (B (Z.of_nat k + 1 + 1))])
      by done.
    clearbody w1.
    assert (Hne : B (Z.of_nat k + 1 + 1) <> B (Z.of_nat k + 1)).
    { intros H. apply Names.backup_inj in H. lia. }
    destruct (IH w1) as (w' & -> & Hh & Hid & Ht & Hshift & Hone & Hrest & Hzero).
    { rewrite Hf1, lookup_insert_ne, lookup_delete_eq; done. }
    exists w'. split; [done|]. split; [by rewrite Hh|]. split; [by rewrite Hid|].
    split; [|split; [|split; [|split; [|done]]]].
    + rewrite Ht, Ht1. rewrite <- app_assoc. simpl. do 2 f_equal.
      apply shift_events_ext. intros i Hi. rewrite Hf1.
      rewrite lookup_insert_ne, lookup_delete_ne; [done | |];
        intros H; apply Names.backup_inj in H; lia.
    + intros i Hi. destruct (decide (i = Z.of_nat k + 1 + 1)) as [->|Hi'].
      * rewrite Hrest.
        -- rewrite Hf1, lookup_insert_eq.
           replace (Z.of_nat k + 1 + 1 - 1) with (Z.of_nat k + 1) by lia. done.
        -- intros j Hj H. apply Names.backup_inj in H. lia.
      * rewrite Hshift by lia. rewrite Hf1.
        rewrite lookup_insert_ne, lookup_delete_ne; [done | |];
          intros H; apply Names.backup_inj in H; lia.
    + intros _. destruct k as [|k].
      * rewrite (Hzero eq_refl), Hf1, lookup_insert_ne, lookup_delete_eq; [done|].
        intros H. apply Names.backup_inj in H. lia.
      * apply Hone. lia.
    + intros p Hp. rewrite Hrest.
      * rewrite Hf1. rewrite lookup_insert_ne, lookup_delete_ne; [done | |];
          intros Heq; symmetry in Heq; refine (Hp _ _ Heq); lia.
      * intros i Hi. apply Hp. lia.
  - rewrite (existsSync_None _ _ E).
    rewrite bool_decide_eq_false_2 by (by intros [? ?]).
    destruct (IH w E) as (w' & -> & Hh & Hid & Ht & Hshift & Hone & Hrest & Hzero).
    exists w'. repeat split; try done.
    + intros i Hi. destruct (decide (i = Z.of_nat k + 1 + 1)) as [->|Hi'].
      * rewrite Hrest.
        -- replace (Z.of_nat k + 1 + 1 - 1) with (Z.of_nat k + 1) by lia.
           by rewrite Hfree, E.
        -- intros j Hj H. apply Names.backup_inj in H. lia.
      * apply Hshift. lia.
    + intros _. destruct k as [|k].
      * by rewrite (Hzero eq_refl).
      * apply Hone. lia.
    + intros p Hp. apply Hrest. intros i Hi. apply Hp. lia.
Qed.

(** Whatever happens in the loop, it creates nothing but backups 2 to
    [n + 1]. *)
Lemma shift_backups_creates n : forall w p,
  is_Some (files (fst (shift_backups base ext n w)) !! p) ->
  is_Some (files w !! p) \/ exists i, 2 <= i <= Z.of_nat n + 1 /\ p = B i.
Proof.
  induction n as [|k IH]; intros w p; [by left|].
  cbn [shift_backups].
  replace (Z.of_nat (S k)) with (Z.of_nat k + 1) in * by lia.
  destruct (Fs.existsSync _ w).
  - unfold attempt, Fs.renameSync.
    destruct (files w !! B (Z.of_nat k + 1)) as [node|] eqn:E; simpl.
    + set (w1 := emit _ _). intros H.
      assert (Hs := IH w1 p).
      destruct (shift_backups base ext k w1) as [w2 [m|]]; simpl in *.
      * destruct (Hs H) as [H1|(i & Hi & ->)]; [|right; exists i; split; [lia|done]].
        destruct (decide (p = B (Z.of_nat k + 1 + 1))) as [->|Hp].
        { right. exists (Z.of_nat k + 1 + 1). split; [lia|done]. }
        left. rewrite lookup_insert_ne in H1 by done.
        destruct (decide (p = B (Z.of_nat k + 1))) as [->|Hp'];
          [by rewrite lookup_delete_eq in H1; destruct H1|].
        by rewrite lookup_delete_ne in H1.
      * destruct (Hs H) as [H1|(i & Hi & ->)]; [|right; exists i; split; [lia|done]].
        destruct (decide (p = B (Z.of_nat k + 1 + 1))) as [->|Hp].
        { right. exists (Z.of_nat k + 1 + 1). split; [lia|done]. }
        left. rewrite lookup_insert_ne in H1 by done.
        destruct (decide (p = B (Z.of_nat k + 1))) as [->|Hp'];
          [by rewrite lookup_delete_eq in H1; destruct H1|].
        by rewrite lookup_delete_ne in H1.
    + by left.
  - intros H. destruct (IH w p H) as [H1|(i & Hi & ->)]; [by left|].
    right. exists i. split; [lia|done].
Qed.

End Shift.

Lemma active_not_backup_of tr i :
  currentFilePath tr = basePath_of tr +:+ ext_of tr -> currentFilePath tr <> backup_of tr i.
Proof. intros H. rewrite H at 1. apply Names.active_not_backup. Qed.

Lemma backup_of_inj tr i j : backup_of tr i = backup_of tr j -> i = j.
Proof. apply Names.backup_inj. Qed.

(** The [try] block of [renameOldFiles] when no call throws. *)
Lemma renameOldFiles_try_spec tr w node :
  currentFilePath tr = basePath_of tr +:+ ext_of tr ->
  1 <= maxIndex_of tr ->
  files w !! backup_of tr (maxIndex_of tr) <> Some Dir ->
  files w !! currentFilePath tr = Some node ->
  exists w',
    renameOldFiles_try tr w = (w', None) /\
    heap w' = heap w /\ next_id w' = next_id w /\
    trace w' = trace w
      ++ (if bool_decide (is_Some (files w !! backup_of tr (maxIndex_of tr)))
          then [FsUnlink (backup_of tr (maxIndex_of tr))] else [])
      ++ shift_events (basePath_of tr) (ext_of tr) (files w) (Z.to_nat (maxIndex_of tr - 1))
      ++ [FsRename (currentFilePath tr) (backup_of tr 1)] /\
    files w' !! currentFilePath tr = None /\
    files w' !! backup_of tr 1 = Some node /\
    (forall i, 2 <= i <= maxIndex_of tr ->
               files w' !! backup_of tr i = files w !! backup_of tr (i - 1)) /\
    (forall i, maxIndex_of tr < i -> files w' !! backup_of tr i = files w !! backup_of tr i).
Proof.
  intros Hsplit Hm Hdir Hact.
  set (m := maxIndex_of tr) in *.
  assert (Hab : forall i, currentFilePath tr <> backup_of tr i)
    by (intros i; by apply active_not_backup_of).
  unfold renameOldFiles_try. fold m. fold (backup_of tr m). fold (backup_of tr 1).
  (* the backup at the ceiling is deleted *)
  assert (exists wa,
    (if Fs.existsSync (backup_of tr m) w
     then attempt (Fs.unlinkSync (backup_of tr m) w) w else (w, None)) = (wa, None) /\
    heap wa = heap w /\ next_id wa = next_id w /\
    trace wa = trace w ++ (if bool_decide (is_Some (files w !! backup_of tr m))
                           then [FsUnlink (backup_of tr m)] else []) /\
    files wa !! backup_of tr m = None /\
    (forall p, p <> backup_of tr m -> files wa !! p = files w !! p)) as
    (wa & -> & Hha & Hida & Hta & Hma & Hresta).
  { destruct (files w !! backup_of tr m) as [[c|]|] eqn:E; [| done |].
    - rewrite (existsSync_Some _ _ _ E). unfold attempt, Fs.unlinkSync. rewrite E.
      eexists. split; [done|]. simpl. rewrite ?bool_decide_eq_true_2 by eauto.
      repeat split; try done.
      + apply lookup_delete_eq.
      + intros p Hp. by apply lookup_delete_ne.
    - rewrite (existsSync_None _ _ E). exists w.
      rewrite ?bool_decide_eq_false_2 by (by intros [? ?]).
      simpl. rewrite app_nil_r. done. }
  (* the backups below it move up *)
  assert (Hn : Z.of_nat (Z.to_nat (m - 1)) + 1 = m) by lia.
  destruct (shift_backups_spec (basePath_of tr) (ext_of tr) (Z.to_nat (m - 1)) wa)
    as (wb & -> & Hhb & Hidb & Htb & Hshift & _ & Hrestb & _).
  { fold (backup_of tr (Z.of_nat (Z.to_nat (m - 1)) + 1)). by rewrite Hn. }
  rewrite Hn in Hshift, Hrestb.
  (* the active file becomes backup 1 *)
  assert (Hactb : files wb !! currentFilePath tr = Some node).
  { rewrite Hrestb by (intros i _; apply Hab). rewrite Hresta by apply Hab. done. }
  unfold attempt, Fs.renameSync. rewrite Hactb.
  eexists. split; [done|]. simpl.
  split; [congruence|]. split; [congruence|].
  split; [|split; [|split; [|split]]].
  - rewrite Htb, Hta. rewrite <- !app_assoc. do 2 f_equal.
    f_equal. apply shift_events_ext. intros i Hi.
    apply Hresta. intros H. apply backup_of_inj in H. lia.
  - rewrite lookup_insert_ne by (intros H; symmetry in H; by apply Hab in H).
    apply lookup_delete_eq.
  - apply lookup_insert_eq.
  - intros i Hi.
    rewrite lookup_insert_ne by (intros H; apply backup_of_inj in H; lia).
    rewrite lookup_delete_ne by apply Hab.
    fold (backup_of tr i) in *. unfold backup_of at 1. rewrite Hshift by lia.
    apply Hresta. intros H. apply backup_of_inj in H. lia.
  - intros i Hi.
    rewrite lookup_insert_ne by (intros H; apply backup_of_inj in H; lia).
    rewrite lookup_delete_ne by apply Hab.
    rewrite Hrestb by (intros j Hj H; apply backup_of_inj in H; lia).
    apply Hresta. intros H. apply backup_of_inj in H. lia.
Qed.

(** A rotation on a transport whose file has an extension, when the backup
    at the ceiling is not a directory and the active file is there. *)
Lemma rotateFile_spec tr w :
  currentFilePath tr = basePath_of tr +:+ ext_of tr ->
  1 <= maxIndex_of tr ->
  files w !! backup_of tr (maxIndex_of tr) <> Some Dir ->
  is_Some (files w !! currentFilePath tr) ->
  rotates_with (maxIndex_of tr) tr w.
Proof.
  intros Hsplit Hm Hdir [node Hact] s Hs.
  assert (Hab : forall i, currentFilePath tr <> backup_of tr i)
    by (intros i; by apply active_not_backup_of).
  unfold rotateFile. rewrite Hs.
  change (renameOldFiles (set_writeStream None tr) ?w1) with (renameOldFiles tr w1).
  set (w1 := emit (StreamEnd (stream_path s)) w).
  destruct (renameOldFiles_try_spec tr w1 node Hsplit Hm Hdir Hact)
    as (w2 & Htry & Hh & Hid & Ht & Hnone & Hone & Hshift & Hbeyond).
  unfold renameOldFiles. rewrite Htry.
  unfold createWriteStream, Fs.open. simpl. rewrite Hnone. simpl.
  split; [|split; [done|split; [done|split; [|split; [|split]]]]].
  - rewrite Ht. unfold rotation_steps. simpl. rewrite <- !app_assoc. simpl.
    reflexivity.
  - apply lookup_insert_eq.
  - rewrite lookup_insert_ne by apply Hab. rewrite Hone. done.
  - intros i Hi. rewrite lookup_insert_ne by apply Hab. by apply Hshift.
  - intros i Hi. rewrite lookup_insert_ne by apply Hab. by apply Hbeyond.
Qed.

(** Whatever the file system answers, a rotation creates nothing but the
    backups from 1 to the ceiling and the active file. *)
Lemma renameOldFiles_creates tr w p :
  1 <= maxIndex_of tr ->
  is_Some (files (renameOldFiles tr w) !! p) ->
  is_Some (files w !! p) \/ exists i, 1 <= i <= maxIndex_of tr /\ p = backup_of tr i.
Proof.
  intros Hm. unfold renameOldFiles, renameOldFiles_try.
  set (ra := if Fs.existsSync _ w then _ else _).
  assert (Ha : forall q, is_Some (files (fst ra) !! q) -> is_Some (files w !! q)).
  { subst ra. destruct (Fs.existsSync _ w); [|done].
    unfold attempt, Fs.unlinkSync. destruct (files w !! _) as [[c|]|]; try done.
    simpl. intros q Hq. destruct (decide (q = backup (basePath_of tr) (maxIndex_of tr) (ext_of tr)))
      as [-> | Hne]; [by rewrite lookup_delete_eq in Hq; destruct Hq|].
    by rewrite lookup_delete_ne in Hq. }
  destruct ra as [wa [e|]]; simpl in Ha; [by left; apply Ha|].
  pose proof (shift_backups_creates (basePath_of tr) (ext_of tr)
                (Z.to_nat (maxIndex_of tr - 1)) wa) as Hb.
  destruct (shift_backups _ _ _ wa) as [wb [e|]]; simpl in Hb.
  - simpl. intros H. destruct (Hb p H) as [H1|(i & Hi & ->)]; [by left; apply Ha|].
    right. exists i. split; [lia|done].
  - unfold attempt, Fs.renameSync.
    destruct (files wb !! currentFilePath tr) as [node|]; simpl.
    + intros H. destruct (decide (p = backup_of tr 1)) as [-> | Hne].
      { right. exists 1. split; [lia|done]. }
      unfold backup_of in Hne. rewrite lookup_insert_ne in H by done.
      assert (H' : is_Some (files wb !! p)).
      { destruct (decide (p = currentFilePath tr)) as [->|Hne'];
          [by rewrite lookup_delete_eq in H; destruct H|].
        by rewrite lookup_delete_ne in H. }
      destruct (Hb p H') as [H1|(i & Hi & ->)]; [by left; apply Ha|].
      right. exists i. split; [lia|done].
    + intros H. destruct (Hb p H) as [H1|(i & Hi & ->)]; [by left; apply Ha|].
      right. exists i. split; [lia|done].
Qed.

Lemma createWriteStream_facts tr w :
  let tr' := fst (createWriteStream tr w) in
  let w' := snd (createWriteStream tr w) in
  options tr' = options tr /\ currentFilePath tr' = currentFilePath tr /\
  handle_on_file tr' /\
  (forall p, is_Some (files w' !! p) -> is_Some (files w !! p) \/ p = currentFilePath tr).
Proof.
  unfold createWriteStream, Fs.open, handle_on_file.
  destruct (writeStream tr); simpl; repeat split; try done.
  - by intros ? [= <-].
  - intros p H. destruct (decide (p = currentFilePath tr)) as [-> | Hne]; [by right|].
    left. by rewrite lookup_insert_ne in H.
  - by intros ? [= <-].
  - intros p H. destruct (decide (p = currentFilePath tr)) as [-> | Hne]; [by right|].
    left. by rewrite lookup_insert_ne in H.
Qed.

Lemma rotateFile_facts tr w :
  1 <= maxIndex_of tr -> handle_on_file tr ->
  let tr' := fst (rotateFile tr w) in
  let w' := snd (rotateFile tr w) in
  options tr' = options tr /\ currentFilePath tr' = currentFilePath tr /\
  handle_on_file tr' /\
  (forall p, is_Some (files w' !! p) ->
             is_Some (files w !! p) \/ p = currentFilePath tr \/
             exists i, 1 <= i <= maxIndex_of tr /\ p = backup_of tr i).
Proof.
  intros Hm Hh. unfold rotateFile.
  destruct (writeStream tr) as [s|] eqn:Hs; [|simpl; repeat split; try done; by left].
  change (renameOldFiles (set_writeStream None tr) ?w1) with (renameOldFiles tr w1).
  set (w2 := renameOldFiles tr _).
  destruct (createWriteStream_facts (set_currentSize 0 (set_writeStream None tr)) w2)
    as (Ho & Hp & Hh' & Hc).
  simpl. repeat split; try done.
  intros p H. destruct (Hc p H) as [H1 | ->]; [|by right; left].
  destruct (renameOldFiles_creates tr _ p Hm H1) as [H2|H2]; [by left|by right; right].
Qed.

Lemma log_facts js fails tr e w :
  1 <= maxIndex_of tr -> handle_on_file tr ->
  let tr' := fst (log js fails tr e w) in
  let w' := snd (log js fails tr e w) in
  options tr' = options tr /\ currentFilePath tr' = currentFilePath tr /\
  handle_on_file tr' /\
  (forall p, is_Some (files w' !! p) ->
             is_Some (files w !! p) \/ p = currentFilePath tr \/
             exists i, 1 <= i <= maxIndex_of tr /\ p = backup_of tr i).
Proof.
  intros Hm Hh. unfold log.
  destruct (negb _); [simpl; repeat split; try done; by left|].
  unfold log_admitted.
  set (st := match writeStream tr with None => _ | Some _ => _ end).
  assert (Hst : options (fst st) = options tr /\ currentFilePath (fst st) = currentFilePath tr /\
                handle_on_file (fst st) /\
                (forall p, is_Some (files (snd st) !! p) ->
                           is_Some (files w !! p) \/ p = currentFilePath tr)).
  { subst st. destruct (writeStream tr) eqn:E; [simpl; repeat split; try done; by left|].
    apply createWriteStream_facts. }
  destruct st as [tr1 w1]. simpl in Hst. destruct Hst as (Ho1 & Hp1 & Hh1 & Hc1).
  destruct (writeStream tr1) as [s|] eqn:Hs1.
  2:{ simpl. repeat split; try done. intros p H. destruct (Hc1 p H); [by left|by right; left]. }
  destruct fails.
  { simpl. repeat split; try done. intros p H. destruct (Hc1 p H); [by left|by right; left]. }
  set (w2 := Fs.append _ _ w1). set (tr2 := set_currentSize _ tr1).
  assert (Hc2 : forall p, is_Some (files w2 !! p) ->
                          is_Some (files w !! p) \/ p = currentFilePath tr).
  { intros p H. subst w2. unfold Fs.append in H. simpl in H.
    rewrite (Hh1 s Hs1), Hp1 in H.
    destruct (decide (p = currentFilePath tr)) as [-> | Hne]; [by right|].
    rewrite lookup_insert_ne in H by done. by apply Hc1. }
  destruct (over_maxSize tr2).
  - assert (Hm2 : 1 <= maxIndex_of tr2) by (unfold maxIndex_of in *; simpl; by rewrite Ho1).
    assert (Hh2 : handle_on_file tr2) by done.
    destruct (rotateFile_facts tr2 w2 Hm2 Hh2) as (Ho3 & Hp3 & Hh3 & Hc3).
    split; [by rewrite Ho3|]. split; [by rewrite Hp3|]. split; [done|].
    intros p H. destruct (Hc3 p H) as [H1 | [-> | (i & Hi & ->)]].
    + destruct (Hc2 p H1); [by left|by right; left].
    + right; left. done.
    + right; right. exists i. split.
      * unfold maxIndex_of in *. simpl in Hi. by rewrite Ho1 in Hi.
      * unfold backup_of, basePath_of, ext_of. simpl. by rewrite Hp1.
  - simpl. repeat split; try done.
    intros p H. destruct (Hc2 p H); [by left|by right; left].
Qed.

End Rotation.

Module RotationRuns.
Import FileTransport.

Lemma file_step_facts js tr w a :
  1 <= maxIndex_of tr -> handle_on_file tr ->
  let st := file_step js (tr, w) a in
  options (fst st) = options tr /\ currentFilePath (fst st) = currentFilePath tr /\
  handle_on_file (fst st) /\
  (forall p, is_Some (files (snd st) !! p) ->
             is_Some (files w !! p) \/ p = currentFilePath tr \/
             exists i, 1 <= i <= maxIndex_of tr /\ p = backup_of tr i).
Proof.
  intros Hm Hh. destruct a as [e fails|now [|]]; simpl.
  - by apply Rotation.log_facts.
  - exact (Rotation.rotateFile_facts (set_lastRotationCheck now tr) w Hm Hh).
  - repeat split; try done. by left.
Qed.

(** No run of the transport puts a backup beyond the ceiling. *)
Lemma file_run_within js acts : forall tr w,
  currentFilePath tr = basePath_of tr +:+ ext_of tr ->
  1 <= maxIndex_of tr -> handle_on_file tr ->
  (forall i, maxIndex_of tr < i -> files w !! backup_of tr i = None) ->
  let st := file_run js acts tr w in
  options (fst st) = options tr /\ currentFilePath (fst st) = currentFilePath tr /\
  handle_on_file (fst st) /\
  (forall i, maxIndex_of tr < i -> files (snd st) !! backup_of tr i = None).
Proof.
  unfold file_run.
  induction acts as [|a acts IH] using rev_ind; intros tr w Hsplit Hm Hh Hinv; [done|].
  rewrite foldl_app. simpl.
  destruct (IH tr w Hsplit Hm Hh Hinv) as (Ho & Hp & Hh1 & Hinv1).
  destruct (foldl (file_step js) (tr, w) acts) as [tr1 w1]. simpl in *.
  assert (Hm1 : 1 <= maxIndex_of tr1) by (unfold maxIndex_of in *; by rewrite Ho).
  destruct (file_step_facts js tr1 w1 a Hm1 Hh1) as (Ho2 & Hp2 & Hh2 & Hc2).
  split; [congruence|]. split; [congruence|]. split; [done|].
  intros i Hi. destruct (files _ !! backup_of tr i) as [node|] eqn:E; [|done].
  exfalso. destruct (Hc2 (backup_of tr i)) as [H|[H|(j & Hj & H)]]; [by rewrite E | | |].
  - rewrite Hinv1 in H by done. by destruct H.
  - rewrite Hp in H. symmetry in H. by apply Rotation.active_not_backup_of in H.
  - unfold backup_of, basePath_of, ext_of in H. rewrite Hp in H.
    apply Names.backup_inj in H. unfold maxIndex_of in *. rewrite Ho in Hj. lia.
Qed.

Lemma numbered_backups_bound tr w m bound :
  0 <= m ->
  (forall i, m < i -> files w !! backup_of tr i = None) ->
  (length (numbered_backups tr w bound) <= Z.to_nat m)%nat.
Proof.
  intros Hm Hinv. unfold numbered_backups.
  enough (length (List.filter
            (fun k => bool_decide (is_Some (files w !! backup_of tr (Z.of_nat k))))
            (seq 1 bound)) <= bound /\
          length (List.filter
            (fun k => bool_decide (is_Some (files w !! backup_of tr (Z.of_nat k))))
            (seq 1 bound)) <= Z.to_nat m)%nat by tauto.
  induction bound as [|b [IH1 IH2]]; [simpl; lia|].
  rewrite seq_S, List.filter_app, length_app.
  cbn [List.filter Nat.add].
  destruct (decide (Z.of_nat (S b) <= m)) as [Hle|Hgt].
  - destruct (bool_decide _); simpl; lia.
  - rewrite bool_decide_eq_false_2; [simpl; lia|].
    rewrite Hinv by lia. by intros [? ?].
Qed.

End RotationRuns.

(** C5 (amended): for a file with an extension and a non-negative
    [maxFiles], a rotation whose file-system calls succeed closes the handle,
    deletes the backup at the ceiling if it exists, renames backup [i] to
    backup [i + 1] for [i] from the ceiling minus 1 down to 1 when present,
    renames the active file to backup 1 and opens a fresh handle at the
    original path with the tracked size reset to 0, where the ceiling is
    [maxFiles], or 5 when [maxFiles] is 0 or unset; and in a directory that
    holds no backup beyond the ceiling, whatever is logged and however often
    the file is rotated, at most that many numbered backups exist. *)
Theorem C5_rotation_procedure js tr w :
  FileTransport.ext_of tr <> ""%string ->
  1 <= FileTransport.maxIndex_of tr ->
  let ceiling := FileTransport.maxIndex_of tr in
  ceiling = match FileTransport.maxFiles (FileTransport.options tr) with
            | Some n => if n =? 0 then 5 else n
            | None => 5
            end /\
  (files w !! backup_of tr ceiling <> Some Dir ->
   is_Some (files w !! FileTransport.currentFilePath tr) ->
   rotates_with ceiling tr w) /\
  (handle_on_file tr ->
   (forall i, ceiling < i -> files w !! backup_of tr i = None) ->
   forall acts bound,
     (length (numbered_backups tr (snd (file_run js acts tr w)) bound)
      <= Z.to_nat ceiling)%nat).
Proof.
  intros Hext Hm ceiling.
  assert (Hsplit : FileTransport.currentFilePath tr
                   = FileTransport.basePath_of tr +:+ FileTransport.ext_of tr)
    by (by apply Names.slice0_extname).
  split; [|split].
  - subst ceiling. unfold FileTransport.maxIndex_of, Js.number_or.
    destruct (FileTransport.maxFiles _) as [n|]; [|done]. simpl.
    by destruct (n =? 0).
  - intros Hdir Hact. by apply Rotation.rotateFile_spec.
  - intros Hh Hinv acts bound.
    destruct (RotationRuns.file_run_within js acts tr w Hsplit Hm Hh Hinv) as (_ & _ & _ & H).
    apply RotationRuns.numbered_backups_bound; [lia | exact H].
Qed.

Lemma C5_witness :
  let w := world_with [("app.log", "current"); ("app.1.log", "older");
                       ("app.2.log", "oldest")]%string in
  let w' := snd (FileTransport.rotateFile (file_sample 2) w) in
  trace w' = [StreamEnd "app.log"; FsUnlink "app.2.log"; FsRename "app.1.log" "app.2.log";
              FsRename "app.log" "app.1.log"; StreamOpen "app.log" (Some ModeA)] /\
  files w' !! "app.log"%string = Some (File "") /\
  files w' !! "app.1.log"%string = Some (File "current") /\
  files w' !! "app.2.log"%string = Some (File "older").
Proof.
  intros w w'.
  destruct (proj1 (proj2 (C5_rotation_procedure sample_stringify (file_sample 2) w
                            ltac:(vm_compute; discriminate) ltac:(vm_compute; discriminate)))
              ltac:(vm_compute; discriminate) ltac:(vm_compute; eauto) _ eq_refl)
    as (Ht & _ & _ & Ha & H1 & H2 & _).
  split; [exact Ht|]. split; [exact Ha|]. split; [exact H1|].
  exact (H2 2 ltac:(vm_compute; split; discriminate)).
Defined.

(** With [maxFiles] set to 0 a rotation still shifts backup 1 to backup 2:
    the rotation that keeps [maxFiles] backups is not the one performed. *)
Lemma C5_counterexample :
  ~ rotates_with_maxFiles (file_sample 0)
      (world_with [("app.log", "current"); ("app.1.log", "older")]%string).
Proof.
  intros H. destruct (H 0 eq_refl _ eq_refl) as [Ht _].
  vm_compute in Ht. discriminate Ht.
Qed.

(** ** Start-up of the file transport *)

(** While the transport has no handle, [checkFileSize] reads the size and
    leaves the file system alone: the rotation it asks for returns at once. *)
Lemma checkFileSize_without_handle tr w :
  FileTransport.writeStream tr = None ->
  FileTransport.checkFileSize tr w
  = (FileTransport.set_currentSize
       (if Fs.existsSync (FileTransport.currentFilePath tr) w
        then Fs.size (FileTransport.currentFilePath tr) w else 0) tr, w).
Proof.
  intros Hs. unfold FileTransport.checkFileSize.
  destruct (Fs.existsSync _ w); [|done].
  destruct (FileTransport.over_maxSize _); [|done].
  unfold FileTransport.rotateFile. simpl. by rewrite Hs.
Qed.

(** C6: constructing a file transport on [app.log] with [maxSize] 5 in a
    directory where [app.log] already holds 10 bytes rotates nothing: the
    constructor only opens the file for appending, no backup exists, the
    old content is still in the active file and the tracked size is 10; the
    first write goes to the end of the old content, and only the rotation
    that follows this write moves the file to backup 1. *)
Theorem C6_startup_rotation_is_skipped :
  exists tr w',
    FileTransport.new 1672574400000 (file_sample_options 5 5)
      (world_with [("app.log", "0123456789")]%string)
    = Js.Normal (tr, w') /\
    trace w' = [StreamOpen "app.log" (Some ModeA)] /\
    files w' !! "app.log"%string = Some (File "0123456789") /\
    files w' !! "app.1.log"%string = None /\
    FileTransport.currentSize tr = 10 /\
    let line := FileTransport.render sample_stringify tr (sample_entry 1%nat) in
    let st := FileTransport.log sample_stringify false tr 1%nat w' in
    trace (snd st)
    = [StreamOpen "app.log" (Some ModeA); StreamWrite "app.log" line; StreamEnd "app.log";
       FsRename "app.log" "app.1.log"; StreamOpen "app.log" (Some ModeA)] /\
    files (snd st) !! "app.1.log"%string = Some (File ("0123456789" +:+ line)) /\
    files (snd st) !! "app.log"%string = Some (File "").
Proof.
  eexists _, _. split; [vm_compute; reflexivity|].
  vm_compute. repeat split; reflexivity.
Qed.

(** * Further properties of the transports *)

(** ** The HTTP transport: retries, timer, shutdown and headers *)

Module HttpMore.
Import HttpTransport.

Lemma attempts_retried_delivery url hd body pause k id :
  length (attempts (retried_delivery (Fetch url hd body) pause k id)) = S k.
Proof.
  revert id. induction k as [|k IH]; intros id; simpl; [done|].
  f_equal. apply IH.
Qed.

Lemma timeouts_retried_delivery url hd body pause k id :
  length (timeouts (retried_delivery (Fetch url hd body) pause k id)) = k.
Proof.
  revert id. induction k as [|k IH]; intros id; simpl; [done|].
  f_equal. apply IH.
Qed.

(** From attempt [a] on, with [k] failing attempts followed by a success
    within the retry budget, [sendLog] stops at the success. *)
Lemma sendLog_until_success js net tr e :
  forall (k : nat) (a : Z) (fuel : nat) (w : World),
    (forall j, a <= j < a + Z.of_nat k -> delivery_fails (net j) = true) ->
    delivery_fails (net (a + Z.of_nat k)) = false ->
    a + Z.of_nat k <= Js.number_or (retryCount (options tr)) 0 ->
    (k < fuel)%nat ->
    exists w',
      sendLog js fuel net tr e a w = Some (Js.Resolved, w') /\
      trace w' = trace w ++
        retried_delivery (Fetch (request_url tr) (request_headers tr)
                            (js (entry_value (heap w e))))
          (Js.number_or (retryDelay (options tr)) 1000) k (next_id w) /\
      heap w' = heap w.
Proof.
  induction k as [|k IH]; intros a fuel w Hfail Hok Hrc Hfuel;
    (destruct fuel as [|fuel]; [lia|]); simpl.
  - rewrite Z.add_0_r in Hok.
    rewrite (HttpFacts.check_response_succeeds "HTTP error: " (net a) Hok).
    eexists. split; [done|]. done.
  - destruct (HttpFacts.check_response_fails "HTTP error: " (net a)) as [m ->].
    { apply Hfail. lia. }
    destruct (Z.ltb_spec a (Js.number_or (retryCount (options tr)) 0)); [|lia].
    unfold setTimeout. simpl.
    edestruct (IH (a + 1) fuel) as (w' & -> & Ht & Hh).
    { intros j Hj. apply Hfail. lia. }
    { replace (a + 1 + Z.of_nat k) with (a + Z.of_nat (S k)) by lia. exact Hok. }
    { lia. }
    { lia. }
    eexists. split; [done|]. rewrite Ht, Hh. simpl.
    repeat rewrite <- app_assoc. done.
Qed.

Lemma scheduleBatch_facts tr w :
  let id := next_id w in
  scheduleBatch tr w =
  (set_timer (Some id) tr,
   emit (SetTimeout id (Some (Js.number_or (batchTimeout (options tr)) 5000)))
     (snd (fresh (match batchTimeoutId tr with
                  | Some old => emit (ClearTimeout old) w
                  | None => w
                  end)))).
Proof. unfold scheduleBatch, setTimeout. by destruct (batchTimeoutId tr). Qed.

Lemma log_batch_admitted js fuel net tr e w :
  Js.truthy (Js.of_bool (batchLogs (options tr))) = true ->
  BaseTransport.shouldLog (minLevel (options tr)) (level (heap w e)) = true ->
  log js fuel net tr e w =
  if Z.of_nat (length (logQueue tr ++ [e])) <? Js.number_or (batchSize (options tr)) 10 then
    Some {| transport := set_queue (logQueue tr ++ [e]) tr; world := w;
            returned := None; in_flight := None |}
  else
    Some {| transport := set_queue [] tr;
            world := emit (batch_request js tr w (logQueue tr ++ [e])) w;
            returned := None; in_flight := Some (logQueue tr ++ [e]) |}.
Proof.
  intros Hmode Hadm. unfold log. rewrite Hadm. simpl.
  unfold log_admitted. rewrite Hmode. simpl.
  rewrite Z.geb_leb.
  destruct (Z.ltb_spec (Z.of_nat (length (logQueue tr ++ [e])))
              (Js.number_or (batchSize (options tr)) 10));
    destruct (Z.leb_spec (Js.number_or (batchSize (options tr)) 10)
                (Z.of_nat (length (logQueue tr ++ [e]))));
    try lia; [done|].
  unfold sendBatch_begin. simpl.
  rewrite length_app. simpl.
  destruct (Nat.eqb_spec (length (logQueue tr) + 1) 0); [lia|].
  done.
Qed.

End HttpMore.

(** X1: in immediate mode the delivery of an admitted entry stops at the
    first POST that succeeds: when the first [k] attempts fail and attempt
    [k] succeeds, with [k] within the retry budget ([retryCount], none when
    it is 0 or unset), [log] makes exactly [k + 1] attempts, arms exactly
    [k] timers of [retryDelay] milliseconds (1000 when 0 or unset) and its
    promise resolves; nothing is sent after the success. *)
Theorem X1_http_first_success_ends_retries js net tr e w (k fuel : nat) :
  Js.truthy (Js.of_bool (HttpTransport.batchLogs (HttpTransport.options tr))) = false ->
  BaseTransport.shouldLog (HttpTransport.minLevel (HttpTransport.options tr))
    (level (heap w e)) = true ->
  (forall j, 0 <= j < Z.of_nat k -> delivery_fails (net j) = true) ->
  delivery_fails (net (Z.of_nat k)) = false ->
  Z.of_nat k <= Js.number_or (HttpTransport.retryCount (HttpTransport.options tr)) 0 ->
  (k < fuel)%nat ->
  let request := Fetch (HttpTransport.request_url tr) (HttpTransport.request_headers tr)
                   (js (entry_value (heap w e))) in
  let pause := Js.number_or (HttpTransport.retryDelay (HttpTransport.options tr)) 1000 in
  exists w',
    HttpTransport.log js fuel net tr e w
    = Some {| HttpTransport.transport := tr; HttpTransport.world := w';
              HttpTransport.returned := Some Js.Resolved;
              HttpTransport.in_flight := None |} /\
    trace w' = trace w ++ retried_delivery request pause k (next_id w) /\
    length (attempts (retried_delivery request pause k (next_id w))) = S k /\
    length (timeouts (retried_delivery request pause k (next_id w))) = k /\
    last (trace w') = Some request.
Proof.
  intros Hmode Hadm Hfail Hok Hrc Hfuel request pause.
  destruct (HttpMore.sendLog_until_success js net tr e k 0 fuel w)
    as (w' & Hs & Ht & Hh); [intros; apply Hfail; lia | exact Hok | lia | lia |].
  exists w'. split.
  { unfold HttpTransport.log. rewrite Hadm. simpl.
    unfold HttpTransport.log_admitted. rewrite Hmode, Hs. done. }
  split; [exact Ht|].
  split; [apply HttpMore.attempts_retried_delivery|].
  split; [apply HttpMore.timeouts_retried_delivery|].
  rewrite Ht. fold request. fold pause.
  clear. generalize (next_id w) (trace w).
  induction k as [|k IH]; intros id l; simpl.
  - by rewrite last_snoc.
  - replace (l ++ request :: ConsoleError "HTTP transport log sending failed:"
               :: SetTimeout id (Some pause) :: retried_delivery request pause k (S id))
      with ((l ++ [request; ConsoleError "HTTP transport log sending failed:";
                   SetTimeout id (Some pause)]) ++ retried_delivery request pause k (S id))
      by (by rewrite <- app_assoc).
    apply IH.
Qed.

Lemma X1_witness :
  exists w',
    HttpTransport.log sample_stringify 3 third_time_lucky (http_immediate_sample 250) 3%nat
      sample_world
    = Some {| HttpTransport.transport := http_immediate_sample 250;
              HttpTransport.world := w';
              HttpTransport.returned := Some Js.Resolved;
              HttpTransport.in_flight := None |} /\
    length (attempts (trace w')) = 3%nat.
Proof.
  destruct (X1_http_first_success_ends_retries sample_stringify third_time_lucky
              (http_immediate_sample 250) 3%nat sample_world 2 3 eq_refl eq_refl)
    as (w' & Hlog & Ht & _).
  - intros j Hj. unfold third_time_lucky.
    destruct (Z.ltb_spec j 2); [reflexivity | lia].
  - reflexivity.
  - simpl. lia.
  - lia.
  - exists w'. split; [exact Hlog|]. rewrite Ht. reflexivity.
Defined.

Module HttpRuns.
Import HttpTransport.

Lemma set_queue_eta tr : set_queue (logQueue tr) tr = tr.
Proof. by destruct tr. Qed.

(** Logging admitted entries below the flush threshold only extends the
    queue. *)
Lemma run_logs_below_threshold js fuel net tr w fl dl es : forall q,
  Js.truthy (Js.of_bool (batchLogs (options tr))) = true ->
  Forall (fun e => BaseTransport.shouldLog (minLevel (options tr)) (level (heap w e)) = true)
    es ->
  Z.of_nat (length (q ++ es)) < Js.number_or (batchSize (options tr)) 10 ->
  http_run js fuel net (map HLog es)
    {| http := set_queue q tr; http_world := w; flights := fl; delivered := dl |}
  = Some {| http := set_queue (q ++ es) tr; http_world := w; flights := fl; delivered := dl |}.
Proof.
  induction es as [|e es IH]; intros q Hmode Hadm Hlen; simpl.
  { by rewrite app_nil_r. }
  apply Forall_cons in Hadm as [He Hes].
  rewrite HttpMore.log_batch_admitted by done. simpl.
  rewrite !length_app in *. simpl in *.
  destruct (Z.ltb_spec (Z.of_nat (length q + 1)) (Js.number_or (batchSize (options tr)) 10));
    [|lia].
  simpl. rewrite app_nil_r.
  replace (q ++ e :: es) with ((q ++ [e]) ++ es) by (by rewrite <- app_assoc).
  apply IH; [done | done |]. rewrite !length_app. simpl. lia.
Qed.

Lemma concat_snoc {A} (ls : list (list A)) (l : list A) : concat (ls ++ [l]) = concat ls ++ l.
Proof. rewrite concat_app. simpl. by rewrite app_nil_r. Qed.

(** One step of a batch-mode run neither loses nor duplicates an entry. *)
Lemma http_step_conserves js fuel net s a :
  Js.truthy (Js.of_bool (batchLogs (options (http s)))) = true ->
  exists s1,
    http_step js fuel net s a = Some s1 /\
    options (http s1) = options (http s) /\
    heap (http_world s1) = heap (http_world s) /\
    delivered s1 ++ concat (flights s1) ++ logQueue (http s1)
    ≡ₚ (delivered s ++ concat (flights s) ++ logQueue (http s))
       ++ admitted_logs (minLevel (options (http s))) (heap (http_world s)) [a].
Proof.
  intros Hmode. destruct a as [e| |i o]; simpl.
  - destruct (BaseTransport.shouldLog _ _) eqn:Hadm.
    + rewrite HttpMore.log_batch_admitted by done.
      destruct (_ <? _); eexists; (split; [done|]); simpl;
        (split; [done|]); (split; [done|]).
      * rewrite app_nil_r. solve_Permutation.
      * rewrite concat_snoc. solve_Permutation.
    + unfold log. rewrite Hadm. simpl. eexists. split; [done|]. simpl.
      rewrite !app_nil_r. done.
  - unfold onBatchTimeout, sendBatch_begin.
    destruct (Nat.eqb_spec (length (logQueue (http s))) 0) as [Hz|Hz];
      eexists; (split; [done|]); simpl; (split; [done|]); (split; [done|]).
    + rewrite !app_nil_r. done.
    + rewrite concat_snoc, !app_nil_r. solve_Permutation.
  - destruct (flights s !! i) as [batch|] eqn:Hi.
    + unfold sendBatch_resume.
      pose proof (delete_Permutation _ _ _ Hi) as Hp.
      assert (concat (flights s) ≡ₚ batch ++ concat (delete i (flights s))) as Hc.
      { rewrite <- (take_drop_middle _ _ _ Hi) at 1.
        rewrite delete_take_drop, !concat_app. simpl. solve_Permutation. }
      destruct (check_response "HTTP batch error: " o);
        rewrite HttpMore.scheduleBatch_facts; eexists; (split; [done|]); simpl;
        (split; [done|]);
        (split; [by destruct (batchTimeoutId (http s))|]);
        rewrite Hc, !app_nil_r; solve_Permutation.
    + eexists. split; [done|]. rewrite !app_nil_r. done.
Qed.

End HttpRuns.

(** X2: when the batch timer fires on an empty queue, [sendBatch] returns
    before it re-arms the timer; the admitted entries logged afterwards,
    as long as they are fewer than the flush threshold, only join the queue:
    no request is issued and no timer is armed for them. *)
Theorem X2_idle_tick_leaves_no_timer js fuel net tr w es :
  Js.truthy (Js.of_bool (HttpTransport.batchLogs (HttpTransport.options tr))) = true ->
  HttpTransport.logQueue tr = [] ->
  Forall (fun e => BaseTransport.shouldLog (HttpTransport.minLevel (HttpTransport.options tr))
                     (level (heap w e)) = true) es ->
  Z.of_nat (length es) < Js.number_or (HttpTransport.batchSize (HttpTransport.options tr)) 10 ->
  http_run js fuel net (HTimer :: map HLog es)
    {| http := tr; http_world := w; flights := []; delivered := [] |}
  = Some {| http := HttpTransport.set_queue es tr; http_world := w;
            flights := []; delivered := [] |}.
Proof.
  intros Hmode Hq Hadm Hlen. simpl.
  unfold HttpTransport.onBatchTimeout, HttpTransport.sendBatch_begin. rewrite Hq. simpl.
  rewrite <- (HttpRuns.set_queue_eta tr) at 1. rewrite Hq.
  by apply (HttpRuns.run_logs_below_threshold js fuel net tr w [] [] es []).
Qed.

Lemma X2_witness :
  http_run sample_stringify 0 always_500 [HTimer; HLog 1%nat; HLog 2%nat]
    {| http := http_batch_sample 3; http_world := sample_world;
       flights := []; delivered := [] |}
  = Some {| http := HttpTransport.set_queue [1; 2]%nat (http_batch_sample 3);
            http_world := sample_world; flights := []; delivered := [] |}.
Proof.
  apply (X2_idle_tick_leaves_no_timer sample_stringify 0 always_500 (http_batch_sample 3)
           sample_world [1; 2]%nat).
  - reflexivity.
  - reflexivity.
  - repeat constructor.
  - simpl. lia.
Defined.

(** X3: in batch mode no run of [log] calls, timer ticks and settling
    requests loses or duplicates an entry: at every moment the entries
    acknowledged by the endpoint, those of the batches in flight and those
    in the queue are, together, exactly the entries that were there at the
    start and the admitted entries logged since; a run never gets stuck and
    changes neither the options nor an entry. *)
Theorem X3_http_batches_conserve_entries js fuel net acts : forall s,
  Js.truthy (Js.of_bool (HttpTransport.batchLogs (HttpTransport.options (http s)))) = true ->
  exists s',
    http_run js fuel net acts s = Some s' /\
    HttpTransport.options (http s') = HttpTransport.options (http s) /\
    heap (http_world s') = heap (http_world s) /\
    delivered s' ++ concat (flights s') ++ HttpTransport.logQueue (http s')
    ≡ₚ (delivered s ++ concat (flights s) ++ HttpTransport.logQueue (http s))
       ++ admitted_logs (HttpTransport.minLevel (HttpTransport.options (http s)))
            (heap (http_world s)) acts.
Proof.
  induction acts as [|a acts IH]; intros s Hmode.
  { exists s. simpl. rewrite app_nil_r. done. }
  destruct (HttpRuns.http_step_conserves js fuel net s a Hmode) as (s1 & Hs & Ho & Hh & Hp).
  destruct (IH s1) as (s' & Hr & Ho' & Hh' & Hp'); [by rewrite Ho|].
  exists s'. simpl. rewrite Hs. split; [exact Hr|].
  split; [congruence|]. split; [congruence|].
  rewrite Hp', Hp, Ho, Hh. rewrite <- app_assoc. f_equiv.
  simpl. destruct a as [e| |i o]; simpl; try done.
  destruct (BaseTransport.shouldLog _ _); done.
Qed.

Lemma X3_witness :
  exists s',
    http_run sample_stringify 0 always_500
      [HLog 1%nat; HLog 2%nat; HLog 3%nat; HSettle 0 (HttpTransport.Response 500);
       HTimer; HSettle 0 (HttpTransport.Response 200)]
      {| http := http_batch_sample 2; http_world := sample_world;
         flights := []; delivered := [] |} = Some s' /\
    delivered s' ++ concat (flights s') ++ HttpTransport.logQueue (http s')
    ≡ₚ [1; 2; 3]%nat.
Proof.
  destruct (X3_http_batches_conserve_entries sample_stringify 0 always_500
              [HLog 1%nat; HLog 2%nat; HLog 3%nat; HSettle 0 (HttpTransport.Response 500);
               HTimer; HSettle 0 (HttpTransport.Response 200)]
              {| http := http_batch_sample 2; http_world := sample_world;
                 flights := []; delivered := [] |} eq_refl)
    as (s' & Hr & _ & _ & Hp).
  exists s'. split; [exact Hr | exact Hp].
Defined.

(** X4: [close] on a transport in batch mode with a non-empty queue sends
    the whole queue in one request and leaves no timer behind: the timer
    that the flush arms anew is cleared at once and [batchTimeoutId] is
    null.  When that last request fails, the entries are put back in the
    queue, where nothing will send them any more. *)
Theorem X4_http_close_flushes_once js o tr w :
  Js.truthy (Js.of_bool (HttpTransport.batchLogs (HttpTransport.options tr))) = true ->
  HttpTransport.logQueue tr <> [] ->
  let tr' := fst (HttpTransport.close js o tr w) in
  let w' := snd (HttpTransport.close js o tr w) in
  HttpTransport.batchTimeoutId tr' = None /\
  HttpTransport.logQueue tr' = (if delivery_fails o then HttpTransport.logQueue tr else []) /\
  trace w'
  = trace w
    ++ [batch_request js tr w (HttpTransport.logQueue tr)]
    ++ (if delivery_fails o then [ConsoleError "HTTP transport batch sending failed:"] else [])
    ++ match HttpTransport.batchTimeoutId tr with
       | Some old => [ClearTimeout old]
       | None => []
       end
    ++ [SetTimeout (next_id w)
          (Some (Js.number_or (HttpTransport.batchTimeout (HttpTransport.options tr)) 5000));
        ClearTimeout (next_id w)] /\
  heap w' = heap w.
Proof.
  intros Hmode Hq. unfold HttpTransport.close. rewrite Hmode.
  destruct (HttpTransport.logQueue tr) as [|e q] eqn:Eq; [done|]. simpl.
  unfold HttpTransport.sendBatch_begin. rewrite Eq. simpl.
  unfold HttpTransport.sendBatch_resume.
  destruct (delivery_fails o) eqn:Ho.
  - destruct (HttpFacts.check_response_fails "HTTP batch error: " o Ho) as [m ->].
    rewrite HttpMore.scheduleBatch_facts. simpl.
    destruct (HttpTransport.batchTimeoutId tr); simpl;
      repeat rewrite <- app_assoc; rewrite ?app_nil_r; done.
  - rewrite (HttpFacts.check_response_succeeds "HTTP batch error: " o Ho).
    rewrite HttpMore.scheduleBatch_facts. simpl.
    destruct (HttpTransport.batchTimeoutId tr); simpl;
      repeat rewrite <- app_assoc; done.
Qed.

Lemma X4_witness :
  HttpTransport.logQueue
    (fst (HttpTransport.close sample_stringify (HttpTransport.Response 500)
            (HttpTransport.set_queue [1; 2]%nat (http_batch_sample 5)) sample_world))
  = [1; 2]%nat /\
  HttpTransport.batchTimeoutId
    (fst (HttpTransport.close sample_stringify (HttpTransport.Response 500)
            (HttpTransport.set_queue [1; 2]%nat (http_batch_sample 5)) sample_world))
  = None.
Proof.
  destruct (X4_http_close_flushes_once sample_stringify (HttpTransport.Response 500)
              (HttpTransport.set_queue [1; 2]%nat (http_batch_sample 5)) sample_world
              eq_refl ltac:(discriminate))
    as (Ht & Hq & _).
  split; [exact Hq | exact Ht].
Defined.

(** The headers of every request are the user's headers, to which
    [Content-Type: application/json] is added only when the user gave no
    [Content-Type] of their own: a header of the user always wins. *)
Theorem http_user_headers_win tr (k : string) :
  HttpTransport.request_headers tr !! k
  = match default ∅ (HttpTransport.headers (HttpTransport.options tr)) !! k with
    | Some v => Some v
    | None => if decide (k = "Content-Type"%string) then Some "application/json"%string
              else None
    end.
Proof.
  unfold HttpTransport.request_headers. rewrite lookup_union.
  destruct (default ∅ (HttpTransport.headers (HttpTransport.options tr)) !! k) as [v|];
    destruct (decide (k = "Content-Type"%string)) as [->|Hk].
  - by rewrite lookup_singleton_eq.
  - by rewrite lookup_singleton_ne.
  - by rewrite lookup_singleton_eq.
  - by rewrite lookup_singleton_ne.
Qed.

(** ** The WebSocket transport: the reconnect ceiling, shutdown and the
    flush of the buffer when sends fail *)

Module WsMore.
Import WebSocketTransport.

Lemma frames_app l1 l2 : frames (l1 ++ l2) = frames l1 ++ frames l2.
Proof. apply List.filter_app. Qed.

(** Below a positive ceiling the close handler arms the timer. *)
Lemma handleClose_below_ceiling event tr w m :
  reconnect (options tr) = Some true ->
  maxReconnectAttempts (options tr) = Some m ->
  reconnectAttempts tr < m ->
  handleClose event tr w =
  scheduleReconnect tr (emit (ConsoleLog (closed_message event) None) w).
Proof.
  intros Hr Hm Ha. unfold handleClose. rewrite Hr, Hm. simpl.
  unfold Js.number_or. simpl.
  destruct (Z.eqb_spec m 0); simpl; [done|].
  by destruct (Z.ltb_spec (reconnectAttempts tr) m); [|lia].
Qed.

(** At a positive ceiling it only prints its diagnostic. *)
Lemma handleClose_at_ceiling event tr w m :
  maxReconnectAttempts (options tr) = Some m -> 0 < m ->
  m <= reconnectAttempts tr ->
  handleClose event tr w = (tr, emit (ConsoleLog (closed_message event) None) w).
Proof.
  intros Hm Hpos Ha. unfold handleClose. rewrite Hm. simpl.
  unfold Js.number_or. simpl.
  destruct (Z.eqb_spec m 0); [lia|]. simpl.
  destruct (Z.ltb_spec (reconnectAttempts tr) m); [lia|].
  by rewrite andb_false_r.
Qed.

Lemma close_then_retry_below_ceiling event st m :
  reconnect (options (fst st)) = Some true ->
  maxReconnectAttempts (options (fst st)) = Some m ->
  reconnectAttempts (fst st) < m ->
  options (fst (close_then_retry event st)) = options (fst st) /\
  reconnectAttempts (fst (close_then_retry event st)) = reconnectAttempts (fst st) + 1 /\
  length (timeouts (trace (snd (close_then_retry event st)))) =
  S (length (timeouts (trace (snd st)))).
Proof.
  intros Hr Hm Ha. unfold close_then_retry, socket_closes.
  destruct (socket (fst st)) as [s|];
    (erewrite handleClose_below_ceiling by done);
    match goal with |- context [scheduleReconnect ?a ?b] =>
      destruct (scheduleReconnect a b) as [tr1 w1] eqn:E end;
    apply WsFacts.scheduleReconnect_facts in E as (Ho & Ha1 & _ & _ & Hn);
    unfold onReconnectTimer;
    destruct (connect false tr1 _) as [tr2 w2] eqn:E2;
    apply WsFacts.connect_ok_facts in E2 as (Ho2 & Ha2 & Hn2); simpl in *;
    rewrite !WsFacts.timeouts_app, !length_app in *; simpl in *;
    (repeat split; [congruence | congruence | lia]).
Qed.

Lemma rounds_below_ceiling event st m :
  reconnect (options (fst st)) = Some true ->
  maxReconnectAttempts (options (fst st)) = Some m ->
  forall n, reconnectAttempts (fst st) + Z.of_nat n <= m ->
  options (fst (rounds event n st)) = options (fst st) /\
  reconnectAttempts (fst (rounds event n st)) = reconnectAttempts (fst st) + Z.of_nat n /\
  length (timeouts (trace (snd (rounds event n st)))) =
  (length (timeouts (trace (snd st))) + n)%nat.
Proof.
  intros Hr Hm. induction n as [|n IH]; intros Hle; simpl.
  { repeat split; lia. }
  destruct IH as (Ho & Ha & Hn); [lia|].
  destruct (close_then_retry_below_ceiling event (rounds event n st) m) as (Ho' & Ha' & Hn');
    [congruence | congruence | lia |].
  repeat split; [congruence | lia | lia].
Qed.

(** One send of the flush under a positive capacity keeps the buffer within
    the capacity; a send that throws emits no frame. *)
Lemma sendLogEntry_capped js b tr e w n :
  maxBufferSize (options tr) = Some n -> 0 < n ->
  (length (buffer tr) <= Z.to_nat n)%nat ->
  options (fst (sendLogEntry js b tr e w)) = options tr /\
  (length (buffer (fst (sendLogEntry js b tr e w))) <= Z.to_nat n)%nat /\
  (b = true -> frames (trace (snd (sendLogEntry js b tr e w))) = frames (trace w)).
Proof.
  intros Hmax Hn Hlen.
  assert (length (buffer (bufferMessage tr e)) <= Z.to_nat n)%nat as Hb.
  { rewrite (WsBuffer.bufferMessage_capped tr e n) by done. simpl.
    rewrite WsBuffer.length_lastn. lia. }
  assert (options (bufferMessage tr e) = options tr) as Ho.
  { rewrite (WsBuffer.bufferMessage_capped tr e n) by done. done. }
  unfold sendLogEntry.
  destruct (socket tr) as [s|]; [destruct (negb _)|];
    [| destruct b |];
    destruct (Js.truthy (Js.of_bool (bufferWhenDisconnected (options tr)))); simpl;
    rewrite ?frames_app, ?app_nil_r; try done.
Qed.

Lemma loop_capped_terminates js throws n : forall k i tr w fuel,
  maxBufferSize (options tr) = Some n -> 0 < n ->
  (length (buffer tr) <= Z.to_nat n)%nat ->
  (Z.to_nat n <= i + k)%nat -> (k < fuel)%nat ->
  exists tr' w',
    sendBuffered_loop js fuel throws i tr w = Some (tr', w') /\
    ((forall j, throws j = true) -> frames (trace w') = frames (trace w)).
Proof.
  induction k as [|k IH]; intros i tr w fuel Hmax Hn Hlen Hk Hfuel;
    (destruct fuel as [|fuel]; [lia|]); simpl.
  - rewrite lookup_ge_None_2 by lia. by eexists _, _.
  - destruct (buffer tr !! i) as [e|] eqn:Hi; [|by eexists _, _].
    destruct (sendLogEntry_capped js (throws i) tr e w n Hmax Hn Hlen) as (Ho & Hb & Hf).
    destruct (sendLogEntry js (throws i) tr e w) as [tr1 w1]. simpl in *.
    destruct (IH (S i) tr1 w1 fuel) as (tr' & w' & -> & Hf'); try lia; [congruence|].
    eexists _, _. split; [done|]. intros Hall. rewrite Hf' by done. by apply Hf.
Qed.

(** Without a capacity, with buffering on and every send throwing, the loop
    over the buffer never reaches the end of the array. *)
Lemma loop_uncapped_diverges js throws : forall fuel i tr w,
  Js.truthy (Js.of_bool (bufferWhenDisconnected (options tr))) = true ->
  Js.truthy (Js.of_number (maxBufferSize (options tr))) = false ->
  (forall j, throws j = true) ->
  (i < length (buffer tr))%nat ->
  sendBuffered_loop js fuel throws i tr w = None.
Proof.
  induction fuel as [|fuel IH]; intros i tr w Hb Hmax Hall Hi; simpl; [done|].
  destruct (lookup_lt_is_Some_2 _ _ Hi) as [e ->].
  assert (options (bufferMessage tr e) = options tr
          /\ length (buffer (bufferMessage tr e)) = S (length (buffer tr))) as [Ho Hl].
  { rewrite WsBuffer.bufferMessage_uncapped by done. simpl.
    rewrite length_app. simpl. split; [done | lia]. }
  unfold sendLogEntry. rewrite Hall, Hb.
  destruct (socket tr) as [s|]; [destruct (negb _)|];
    apply IH; rewrite ?Ho; try done; lia.
Qed.

End WsMore.

(** X6: with reconnection on and a positive [maxReconnectAttempts] of [m],
    a connection that keeps closing is retried exactly [m] times: each of
    the first [m] close events arms one timer and counts one attempt; once
    the counter has reached [m], a further close event arms no timer and
    changes nothing in the transport, which stays disconnected. *)
Theorem X6_ws_positive_ceiling_stops_reconnecting event tr w m :
  WebSocketTransport.reconnect (WebSocketTransport.options tr) = Some true ->
  WebSocketTransport.maxReconnectAttempts (WebSocketTransport.options tr) = Some m ->
  0 < m ->
  WebSocketTransport.reconnectAttempts tr = 0 ->
  let st := rounds event (Z.to_nat m) (tr, w) in
  WebSocketTransport.reconnectAttempts (fst st) = m /\
  length (timeouts (trace (snd st))) = (length (timeouts (trace w)) + Z.to_nat m)%nat /\
  forall ev,
    WebSocketTransport.handleClose ev (fst st) (snd st)
    = (fst st, emit (ConsoleLog (WebSocketTransport.closed_message ev) None) (snd st)).
Proof.
  intros Hr Hm Hpos Ha st.
  destruct (WsMore.rounds_below_ceiling event (tr, w) m Hr Hm (Z.to_nat m))
    as (Ho & Ha' & Hn); [simpl; lia|].
  simpl in *. fold st in Ho, Ha', Hn.
  split; [lia|]. split; [exact Hn|].
  intros ev. apply (WsMore.handleClose_at_ceiling ev (fst st) (snd st) m); [congruence | lia | lia].
Qed.

Lemma X6_witness :
  WebSocketTransport.reconnectAttempts
    (fst (rounds abnormal_closure 2 (ws_open_sample 100 [], sample_world))) = 2 /\
  length (timeouts (trace (snd (rounds abnormal_closure 2
                                   (ws_open_sample 100 [], sample_world))))) = 2%nat.
Proof.
  destruct (X6_ws_positive_ceiling_stops_reconnecting abnormal_closure
              (ws_open_sample 100 []) sample_world 2 eq_refl eq_refl ltac:(lia) eq_refl)
    as (Ha & Hn & _).
  split; [exact Ha | exact Hn].
Defined.

(** X7: [close] on a transport that has a socket is final: the socket and
    the reconnect timer are dropped and no timer is armed; the close event
    that the platform delivers afterwards only prints its diagnostic and
    schedules no reconnect, whatever [reconnect] was configured.  What the
    buffer holds at that moment is neither sent nor discarded, and an
    admitted entry logged after the call is still buffered when buffering
    is on. *)
Theorem X7_ws_close_is_final js tr w s :
  WebSocketTransport.socket tr = Some s ->
  let tr' := fst (WebSocketTransport.close tr w) in
  let w' := snd (WebSocketTransport.close tr w) in
  WebSocketTransport.socket tr' = None /\
  WebSocketTransport.reconnectTimer tr' = None /\
  WebSocketTransport.buffer tr' = WebSocketTransport.buffer tr /\
  timeouts (trace w') = timeouts (trace w) /\
  frames (trace w') = frames (trace w) /\
  (forall ev w2,
     WebSocketTransport.socket_closes ev tr' w2
     = (tr', emit (ConsoleLog (WebSocketTransport.closed_message ev) None) w2)) /\
  (forall throws e w2,
     BaseTransport.shouldLog (WebSocketTransport.minLevel (WebSocketTransport.options tr))
       (level (heap w2 e)) = true ->
     WebSocketTransport.log js throws tr' e w2
     = if Js.truthy (Js.of_bool (WebSocketTransport.bufferWhenDisconnected
                                   (WebSocketTransport.options tr)))
       then (WebSocketTransport.bufferMessage tr' e, w2) else (tr', w2)).
Proof.
  intros Hs. unfold WebSocketTransport.close.
  destruct (WebSocketTransport.reconnectTimer tr) as [id|] eqn:Ht; simpl; rewrite Hs; simpl.
  all: split; [done|]; split; [done|]; split; [done|].
  all: split;
    [destruct (_ || _); simpl; rewrite ?WsFacts.timeouts_app, ?app_nil_r; simpl;
       rewrite ?app_nil_r; done|].
  all: split;
    [destruct (_ || _); simpl; rewrite ?WsMore.frames_app, ?app_nil_r; simpl;
       rewrite ?app_nil_r; done|].
  all: split; [intros ev w2; done|].
  all: intros throws e w2 Hadm; unfold WebSocketTransport.log; simpl; rewrite Hadm; done.
Qed.

Lemma X7_witness :
  WebSocketTransport.socket (fst (WebSocketTransport.close (ws_open_sample 100 [1%nat])
                                    sample_world)) = None /\
  WebSocketTransport.buffer (fst (WebSocketTransport.close (ws_open_sample 100 [1%nat])
                                    sample_world)) = [1%nat].
Proof.
  destruct (X7_ws_close_is_final sample_stringify (ws_open_sample 100 [1%nat]) sample_world
              _ eq_refl) as (Hs & _ & Hb & _).
  split; [exact Hs | exact Hb].
Defined.

(** X8: under a positive buffer capacity the flush that runs when the
    socket opens always comes to an end, within as many iterations as the
    capacity, and always leaves the buffer empty, whatever the sends do.
    An entry whose send throws during the flush is therefore not kept for
    a later attempt; when every send throws, no frame leaves and every
    buffered entry is lost. *)
Theorem X8_ws_flush_discards_failed_sends js throws tr w s n fuel :
  WebSocketTransport.socket tr = Some s ->
  WebSocketTransport.maxBufferSize (WebSocketTransport.options tr) = Some n ->
  0 < n ->
  (length (WebSocketTransport.buffer tr) <= Z.to_nat n)%nat ->
  (Z.to_nat n < fuel)%nat ->
  exists tr' w',
    WebSocketTransport.socket_opens js fuel throws tr w = Some (tr', w') /\
    WebSocketTransport.buffer tr' = [] /\
    ((forall i, throws i = true) -> frames (trace w') = frames (trace w)).
Proof.
  intros Hs Hmax Hn Hlen Hfuel.
  unfold WebSocketTransport.socket_opens, WebSocketTransport.handleOpen,
    WebSocketTransport.sendBufferedMessages.
  rewrite Hs. simpl.
  destruct (Nat.eqb_spec (length (WebSocketTransport.buffer tr)) 0) as [Hz|Hz].
  { eexists _, _. split; [done|]. simpl. split.
    - by destruct (WebSocketTransport.buffer tr).
    - intros _. rewrite WsMore.frames_app. simpl. by rewrite app_nil_r. }
  match goal with |- context [WebSocketTransport.sendBuffered_loop js fuel throws 0 ?a ?b] =>
    destruct (WsMore.loop_capped_terminates js throws n (Z.to_nat n) 0 a b fuel)
      as (tr' & w' & -> & Hf); try done; try lia end.
  eexists _, _. split; [done|]. simpl. split; [done|].
  intros Hall. rewrite Hf by done. simpl.
  rewrite !WsMore.frames_app. simpl. by rewrite !app_nil_r.
Qed.

Lemma X8_witness :
  exists tr' w',
    WebSocketTransport.socket_opens sample_stringify 3 (fun _ => true)
      (ws_open_sample 2 [1; 2]%nat) sample_world = Some (tr', w') /\
    WebSocketTransport.buffer tr' = [] /\
    frames (trace w') = [].
Proof.
  destruct (X8_ws_flush_discards_failed_sends sample_stringify (fun _ => true)
              (ws_open_sample 2 [1; 2]%nat) sample_world _ 2 3%nat
              eq_refl eq_refl ltac:(lia) ltac:(simpl; lia) ltac:(simpl; lia))
    as (tr' & w' & Ho & Hb & Hf).
  exists tr', w'. split; [exact Ho|]. split; [exact Hb|].
  exact (Hf (fun _ => eq_refl)).
Defined.

(** X9: when [maxBufferSize] is falsy (set to 0) and buffering is on, a
    flush in which every send throws does not come to an end by itself:
    each failed entry is pushed to the end of the array that the loop is
    walking, so the loop never reaches the end of the array; no number of
    iterations lets [onopen] return. *)
Theorem X9_ws_uncapped_flush_never_ends js throws tr w fuel :
  Js.truthy (Js.of_bool (WebSocketTransport.bufferWhenDisconnected
                           (WebSocketTransport.options tr))) = true ->
  Js.truthy (Js.of_number (WebSocketTransport.maxBufferSize
                             (WebSocketTransport.options tr))) = false ->
  WebSocketTransport.buffer tr <> [] ->
  (forall i, throws i = true) ->
  WebSocketTransport.socket_opens js fuel throws tr w = None.
Proof.
  intros Hb Hmax Hne Hall.
  unfold WebSocketTransport.socket_opens, WebSocketTransport.handleOpen,
    WebSocketTransport.sendBufferedMessages.
  destruct (WebSocketTransport.socket tr) as [s|]; simpl;
    (destruct (Nat.eqb_spec (length (WebSocketTransport.buffer tr)) 0) as [Hz|Hz];
     [by destruct (WebSocketTransport.buffer tr)|]);
    rewrite WsMore.loop_uncapped_diverges; simpl; try done; lia.
Qed.

Lemma X9_witness :
  WebSocketTransport.socket_opens sample_stringify 1000 (fun _ => true)
    (ws_open_sample 0 [1%nat]) sample_world = None.
Proof.
  apply (X9_ws_uncapped_flush_never_ends sample_stringify (fun _ => true)
           (ws_open_sample 0 [1%nat]) sample_world 1000).
  - reflexivity.
  - reflexivity.
  - discriminate.
  - reflexivity.
Defined.

(** X10: with buffering on, [log] never drops the entry it is given: an
    admitted entry either leaves in a frame of its own on the open socket,
    or it is the last entry of the buffer afterwards (when the socket is not
    open, and also when the socket is open and the send throws), and then
    no frame leaves. *)
Theorem X10_ws_log_sends_or_buffers js throws tr e w :
  Js.truthy (Js.of_bool (WebSocketTransport.bufferWhenDisconnected
                           (WebSocketTransport.options tr))) = true ->
  BaseTransport.shouldLog (WebSocketTransport.minLevel (WebSocketTransport.options tr))
    (level (heap w e)) = true ->
  let tr' := fst (WebSocketTransport.log js throws tr e w) in
  let w' := snd (WebSocketTransport.log js throws tr e w) in
  if WebSocketTransport.socket_open tr && negb throws then
    tr' = tr /\
    exists id, trace w' = trace w ++ [WsSend id (js (entry_value (heap w e)))]
  else
    last (WebSocketTransport.buffer tr') = Some e /\
    frames (trace w') = frames (trace w).
Proof.
  intros Hb Hadm. unfold WebSocketTransport.log. rewrite Hadm. simpl.
  unfold WebSocketTransport.log_admitted, WebSocketTransport.sendLogEntry,
    WebSocketTransport.socket_open.
  assert (last (WebSocketTransport.buffer (WebSocketTransport.bufferMessage tr e)) = Some e)
    as Hlast.
  { unfold WebSocketTransport.bufferMessage. simpl. destruct (_ && _); simpl; apply last_snoc. }
  destruct (WebSocketTransport.socket tr) as [s|]; simpl; rewrite ?Hb; simpl; [|done].
  destruct (WebSocketTransport.ReadyState_eqb _ _) eqn:Hopen; simpl; rewrite ?Hb; [|done].
  destruct throws; simpl.
  - split; [exact Hlast|]. rewrite WsMore.frames_app. simpl. by rewrite app_nil_r.
  - split; [done|]. by eexists.
Qed.

Lemma X10_witness :
  last (WebSocketTransport.buffer
          (fst (WebSocketTransport.log sample_stringify true (ws_open_sample 2 [1; 2]%nat)
                  3%nat sample_world))) = Some 3%nat.
Proof.
  exact (proj1 (X10_ws_log_sends_or_buffers sample_stringify true
                  (ws_open_sample 2 [1; 2]%nat) 3%nat sample_world eq_refl eq_refl)).
Defined.

(** ** The file transport: start-up, plain appending, reopening, files
    without an extension and rotation by the calendar *)

Module FileMore.
Import FileTransport.

Lemma join_ne dir name : dir <> Path.join dir name.
Proof.
  unfold Path.join. intros H. apply (f_equal String.length) in H.
  rewrite !Names.length_append in H. simpl in H. lia.
Qed.

(** Creating the directory leaves the file of the transport alone. *)
Lemma ensureDirectoryExists_facts tr w :
  currentFilePath tr = getFilePath (options tr) ->
  let w1 := ensureDirectoryExists tr w in
  files w1 !! currentFilePath tr = files w !! currentFilePath tr /\
  heap w1 = heap w /\ next_id w1 = next_id w /\
  trace w1 = trace w ++
    match directory (options tr) with
    | Some d => if Js.truthy (Js.Str d) && negb (Fs.existsSync d w) then [FsMkdir d] else []
    | None => []
    end.
Proof.
  intros Hp. unfold ensureDirectoryExists.
  destruct (directory (options tr)) as [d|] eqn:Hd; [|by rewrite app_nil_r].
  destruct (Js.truthy (Js.Str d)) eqn:Ht; simpl; [|by rewrite app_nil_r].
  destruct (Fs.existsSync d w); simpl; [by rewrite app_nil_r|].
  repeat split; try done.
  rewrite lookup_insert_ne; [done|].
  rewrite Hp. unfold getFilePath. rewrite Hd. unfold Js.string_or. rewrite Ht, Ht.
  apply join_ne.
Qed.

Lemma render_options js tr1 tr2 e :
  options tr1 = options tr2 -> render js tr1 e = render js tr2 e.
Proof. intros H. unfold render. by rewrite H. Qed.

Lemma written_options js tr1 tr2 h logs :
  options tr1 = options tr2 -> written js tr1 h logs = written js tr2 h logs.
Proof.
  intros H. induction logs as [|[e f] logs IH]; simpl; [done|].
  by rewrite H, IH, (render_options js tr1 tr2).
Qed.

Lemma rotations_app l1 l2 :
  List.filter is_rotation_event (l1 ++ l2)
  = List.filter is_rotation_event l1 ++ List.filter is_rotation_event l2.
Proof. apply List.filter_app. Qed.

(** One [log] on a transport that has no size limit and appends. *)
Lemma log_without_maxSize js fails tr e w c :
  Js.truthy (Js.of_number (maxSize (options tr))) = false ->
  mode (options tr) = Some ModeA ->
  handle_on_file tr ->
  files w !! currentFilePath tr = Some (File c) ->
  let tr' := fst (log js fails tr e w) in
  let w' := snd (log js fails tr e w) in
  options tr' = options tr /\ currentFilePath tr' = currentFilePath tr /\
  handle_on_file tr' /\ heap w' = heap w /\
  files w' !! currentFilePath tr = Some (File (c +:+ written js tr (heap w) [(e, fails)])) /\
  currentSize tr' = currentSize tr + byteLength (written js tr (heap w) [(e, fails)]) /\
  List.filter is_rotation_event (trace w') = List.filter is_rotation_event (trace w).
Proof.
  intros Hmax Hmode Hh Hc. unfold log, written.
  destruct (BaseTransport.shouldLog _ _) eqn:Hadm; simpl.
  2:{ rewrite Names.append_nil_r. repeat split; try done. unfold byteLength. simpl. lia. }
  unfold log_admitted.
  set (st := match writeStream tr with None => _ | Some _ => _ end).
  assert (options (fst st) = options tr /\ currentFilePath (fst st) = currentFilePath tr /\
          currentSize (fst st) = currentSize tr /\
          writeStream (fst st) = Some {| stream_path := currentFilePath tr |} /\
          heap (snd st) = heap w /\
          files (snd st) !! currentFilePath tr = Some (File c) /\
          List.filter is_rotation_event (trace (snd st))
          = List.filter is_rotation_event (trace w)) as (Ho & Hp & Hsz & Hs & Hhp & Hf & Hr).
  { subst st. destruct (writeStream tr) as [s|] eqn:Es; simpl.
    - repeat split; try done. rewrite Es. f_equal.
      specialize (Hh s Es). destruct s. simpl in Hh. by subst.
    - unfold createWriteStream, Fs.open. rewrite Es. simpl. rewrite Hc, Hmode.
      repeat split; try done.
      + apply lookup_insert_eq.
      + rewrite rotations_app. simpl. by rewrite app_nil_r. }
  destruct st as [tr1 w1]. simpl in *. rewrite Hs.
  destruct fails; simpl.
  { rewrite Names.append_nil_r. repeat split; try done.
    - intros s' Hs'. rewrite Hs in Hs'. injection Hs' as <-. simpl. done.
    - unfold byteLength. simpl. lia.
    - rewrite rotations_app, Hr. simpl. by rewrite app_nil_r. }
  unfold over_maxSize. simpl. rewrite Ho, Hmax. simpl.
  rewrite Names.append_nil_r.
  rewrite (render_options js tr1 tr) by done. rewrite Hhp.
  repeat split; try done.
  - intros s' Hs'. simpl in Hs'. rewrite Hs in Hs'. injection Hs' as <-. simpl. done.
  - rewrite Hf. apply lookup_insert_eq.
  - lia.
  - rewrite rotations_app, Hr. simpl. by rewrite app_nil_r.
Qed.

Lemma byteLength_append s1 s2 : byteLength (s1 +:+ s2) = byteLength s1 + byteLength s2.
Proof. unfold byteLength. rewrite Names.length_append. lia. Qed.

Lemma written_cons js tr h e f logs :
  written js tr h ((e, f) :: logs) = written js tr h [(e, f)] +:+ written js tr h logs.
Proof.
  simpl. destruct (_ && _); [|done].
  by rewrite Names.append_nil_r.
Qed.

End FileMore.

(** X11: the constructor of the file transport never rotates: however
    large the file it finds, it renames and deletes nothing; it creates the
    directory when it is missing, opens one handle on the file and starts
    the rotation interval when a date pattern is set.  The tracked size is
    the size of the file it found, also when the handle is opened with mode
    [w], which empties the file. *)
Theorem X11_file_constructor_never_rotates now o w tr' w' c :
  FileTransport.new now o w = Js.Normal (tr', w') ->
  files w !! FileTransport.getFilePath (FileTransport.with_defaults o) = Some (File c) ->
  let p := FileTransport.getFilePath (FileTransport.with_defaults o) in
  trace w' = trace w ++ startup_events o w /\
  FileTransport.currentSize tr' = Z.of_nat (String.length c) /\
  FileTransport.writeStream tr' = Some {| FileTransport.stream_path := p |} /\
  files w' !! p = Some (File (kept_by (FileTransport.mode (FileTransport.with_defaults o)) c)).
Proof.
  intros Hnew Hc p. unfold FileTransport.new in Hnew.
  destruct (negb _); [done|].
  set (opts := FileTransport.with_defaults o) in *.
  set (tr0 := {| FileTransport.options := opts; FileTransport.currentSize := 0;
                 FileTransport.currentFilePath := FileTransport.getFilePath opts;
                 FileTransport.writeStream := None;
                 FileTransport.lastRotationCheck := now;
                 FileTransport.rotationCheckInterval := None |}) in *.
  destruct (FileMore.ensureDirectoryExists_facts tr0 w eq_refl) as (Hf1 & Hh1 & Hn1 & Ht1).
  set (w1 := FileTransport.ensureDirectoryExists tr0 w) in *.
  rewrite checkFileSize_without_handle in Hnew by done.
  simpl in Hf1, Ht1. fold p in Hf1, Hc.
  assert (Fs.existsSync p w1 = true) as Hex.
  { apply (Rotation.existsSync_Some _ _ (File c)). by rewrite Hf1. }
  assert (Fs.size p w1 = Z.of_nat (String.length c)) as Hsz.
  { unfold Fs.size. by rewrite Hf1, Hc. }
  simpl in Hnew. fold p in Hnew. rewrite Hex, Hsz in Hnew.
  unfold FileTransport.createWriteStream, Fs.open in Hnew. simpl in Hnew.
  fold p in Hnew. rewrite Hf1, Hc in Hnew.
  unfold startup_events, kept_by. simpl.
  destruct (FileTransport.datePattern o) as [pat|] eqn:Hpat;
    injection Hnew as <- <-; simpl; rewrite Ht1; rewrite ?Hn1;
    repeat split; try done.
  - by rewrite <- !app_assoc.
  - rewrite lookup_insert_eq. by destruct (FileTransport.mode o) as [[|]|].
  - by rewrite <- !app_assoc.
  - rewrite lookup_insert_eq. by destruct (FileTransport.mode o) as [[|]|].
Qed.

Lemma X11_witness :
  exists tr' w',
    FileTransport.new 1672574400000 (file_sample_options 5 5)
      (world_with [("app.log", "0123456789")]%string) = Js.Normal (tr', w') /\
    trace w' = [StreamOpen "app.log" (Some ModeA)] /\
    FileTransport.currentSize tr' = 10.
Proof.
  eexists _, _. split; [reflexivity|].
  destruct (X11_file_constructor_never_rotates 1672574400000 (file_sample_options 5 5)
              (world_with [("app.log", "0123456789")]%string) _ _ "0123456789"
              eq_refl eq_refl) as (Ht & Hs & _).
  split; [exact Ht | exact Hs].
Defined.

(** X12: a file transport without a size limit ([maxSize] 0) that appends
    (mode [a]) only ever appends: after any sequence of [log] calls the
    file holds what it held before followed by the lines of the admitted
    entries whose write succeeded, in the order of the calls; the tracked
    size has grown by exactly the bytes written; nothing was renamed or
    deleted.  An entry whose write fails leaves no trace in the file. *)
Theorem X12_file_without_size_limit_only_appends js logs : forall tr w c,
  Js.truthy (Js.of_number (FileTransport.maxSize (FileTransport.options tr))) = false ->
  FileTransport.mode (FileTransport.options tr) = Some ModeA ->
  handle_on_file tr ->
  files w !! FileTransport.currentFilePath tr = Some (File c) ->
  let st := file_run js (map (fun l => DoLog (fst l) (snd l)) logs) tr w in
  files (snd st) !! FileTransport.currentFilePath tr
  = Some (File (c +:+ written js tr (heap w) logs)) /\
  FileTransport.currentSize (fst st)
  = FileTransport.currentSize tr + FileTransport.byteLength (written js tr (heap w) logs) /\
  List.filter is_rotation_event (trace (snd st)) = List.filter is_rotation_event (trace w).
Proof.
  unfold file_run.
  induction logs as [|[e f] logs IH]; intros tr w c Hmax Hmode Hh Hc; simpl.
  { rewrite Names.append_nil_r. repeat split; try done. unfold FileTransport.byteLength.
    simpl. lia. }
  destruct (FileMore.log_without_maxSize js f tr e w c Hmax Hmode Hh Hc)
    as (Ho & Hp & Hh' & Hhp & Hf & Hsz & Hr).
  destruct (FileTransport.log js f tr e w) as [tr1 w1]. cbn [fst snd] in *.
  destruct (IH tr1 w1 (c +:+ written js tr (heap w) [(e, f)])) as (Hf2 & Hsz2 & Hr2);
    [by rewrite Ho | by rewrite Ho | done | by rewrite Hp |].
  rewrite Hp in Hf2. rewrite Hhp in Hf2, Hsz2.
  rewrite (FileMore.written_options js tr1 tr) in Hf2, Hsz2 by done.
  change (if BaseTransport.shouldLog _ _ && negb f then _ else _)
    with (written js tr (heap w) ((e, f) :: logs)).
  rewrite FileMore.written_cons, FileMore.byteLength_append.
  rewrite Hf2, Hsz2, Hr2, Hsz, Hr, Names.append_assoc.
  repeat split; first [done | lia].
Qed.

Lemma X12_witness :
  files (snd (file_run sample_stringify [DoLog 1%nat false; DoLog 2%nat true; DoLog 3%nat false]
                file_sample_without_extension
                (world_with [("logs/app", "old")]%string))) !! "logs/app"%string
  = Some (File ("old" +:+ written sample_stringify file_sample_without_extension sample_entry
                            [(1%nat, false); (2%nat, true); (3%nat, false)])).
Proof.
  exact (proj1 (X12_file_without_size_limit_only_appends sample_stringify
                  [(1%nat, false); (2%nat, true); (3%nat, false)]
                  file_sample_without_extension (world_with [("logs/app", "old")]%string)
                  "old" eq_refl eq_refl
                  (fun s H => f_equal FileTransport.stream_path
                                (eq_sym (Some_inj _ _ H)))
                  eq_refl)).
Defined.

(** X13: closing a file transport does not retire it: the next admitted
    entry makes [log] open a new handle on the same file and the line is
    written.  When the transport was configured with mode [w], reopening
    empties the file, so that what had been written before the [close] is
    lost; with mode [a] the line goes to the end. *)
Theorem X13_file_log_after_close_reopens js tr w e c :
  BaseTransport.shouldLog (FileTransport.minLevel (FileTransport.options tr))
    (level (heap w e)) = true ->
  files w !! FileTransport.currentFilePath tr = Some (File c) ->
  let line := FileTransport.render js tr (heap w e) in
  FileTransport.over_maxSize
    (FileTransport.set_currentSize
       (FileTransport.currentSize tr + FileTransport.byteLength line) tr) = false ->
  let p := FileTransport.currentFilePath tr in
  let tr1 := fst (FileTransport.close tr w) in
  let w1 := snd (FileTransport.close tr w) in
  let st := FileTransport.log js false tr1 e w1 in
  FileTransport.writeStream tr1 = None /\
  FileTransport.writeStream (fst st) = Some {| FileTransport.stream_path := p |} /\
  trace (snd st)
  = trace w1 ++ [StreamOpen p (FileTransport.mode (FileTransport.options tr));
                 StreamWrite p line] /\
  files (snd st) !! p
  = Some (File (kept_by (FileTransport.mode (FileTransport.options tr)) c +:+ line)).
Proof.
  intros Hadm Hc line Hover p tr1 w1 st.
  assert (FileTransport.writeStream tr1 = None /\ heap w1 = heap w /\ files w1 = files w
          /\ FileTransport.options tr1 = FileTransport.options tr
          /\ FileTransport.currentFilePath tr1 = p
          /\ FileTransport.currentSize tr1 = FileTransport.currentSize tr)
    as (Hs1 & Hh1 & Hf1 & Ho1 & Hp1 & Hz1).
  { subst tr1 w1. unfold FileTransport.close. simpl.
    by destruct (FileTransport.writeStream tr) eqn:E; simpl; rewrite ?E. }
  split; [exact Hs1|].
  subst st. unfold FileTransport.log. rewrite Ho1, Hh1, Hadm. simpl.
  unfold FileTransport.log_admitted. rewrite Hs1.
  unfold FileTransport.createWriteStream. rewrite Hs1. simpl.
  rewrite Hp1, Ho1, Hh1.
  rewrite (FileMore.render_options js _ tr) by (simpl; exact Ho1).
  fold line. unfold FileTransport.over_maxSize in *. simpl in *.
  rewrite Ho1, Hz1, Hover. simpl.
  split; [done|]. split; [by rewrite <- app_assoc|].
  rewrite lookup_insert_eq, Hf1. fold p in Hc. rewrite lookup_insert_eq.
  rewrite Hc. unfold kept_by.
  by destruct (FileTransport.mode (FileTransport.options tr)) as [[|]|].
Qed.

Lemma X13_witness :
  files (snd (FileTransport.log sample_stringify false
                (fst (FileTransport.close file_sample_without_extension
                        (world_with [("logs/app", "old")]%string)))
                1%nat
                (snd (FileTransport.close file_sample_without_extension
                        (world_with [("logs/app", "old")]%string))))) !! "logs/app"%string
  = Some (File ("old" +:+ FileTransport.render sample_stringify file_sample_without_extension
                            (sample_entry 1%nat))).
Proof.
  exact (proj2 (proj2 (proj2
    (X13_file_log_after_close_reopens sample_stringify file_sample_without_extension
       (world_with [("logs/app", "old")]%string) 1%nat "old" eq_refl eq_refl eq_refl)))).
Defined.

Module FileNames.
Import FileTransport.

Lemma shift_events_none base ext f n :
  (forall i, 1 <= i <= Z.of_nat n -> f !! backup base i ext = None) ->
  shift_events base ext f n = [].
Proof.
  induction n as [|k IH]; intros H; [done|].
  cbn [shift_events]. rewrite (H (Z.of_nat (S k))) by lia.
  rewrite bool_decide_eq_false_2 by (by intros [? ?]).
  apply IH. intros i Hi. apply H. lia.
Qed.

(** Without an extension nothing is left of the path once the extension
    has been cut off: the backups are named by their index alone. *)
Lemma backup_of_without_extension tr i :
  ext_of tr = ""%string -> backup_of tr i = "." +:+ Js.number_to_string i.
Proof.
  intros Hext. unfold backup_of, basePath_of, backup. rewrite Hext.
  assert (Path.slice0 (currentFilePath tr) (- Z.of_nat (String.length "")) = ""%string) as ->.
  { unfold Path.slice0. change (- Z.of_nat (String.length "")) with 0.
    change (0 <? 0) with false. cbv iota.
    replace (Z.min 0 (Z.of_nat (String.length (currentFilePath tr)))) with 0 by lia.
    change (Z.to_nat 0) with 0%nat. by destruct (currentFilePath tr). }
  change (("" +:+ ".") +:+ Js.number_to_string i +:+ "")
    with ("." +:+ (Js.number_to_string i +:+ "")).
  by rewrite Names.append_nil_r.
Qed.

End FileNames.

(** X14: when the file of the transport has no extension, cutting the
    extension off the path leaves the empty string, so the backups are
    named [.1], [.2], ... whatever the directory and the name of the file:
    a rotation moves the active file to [.1] in the working directory. *)
Theorem X14_file_without_extension_rotates_to_dot_one tr w s node :
  FileTransport.ext_of tr = ""%string ->
  FileTransport.writeStream tr = Some s ->
  1 <= FileTransport.maxIndex_of tr ->
  files w !! FileTransport.currentFilePath tr = Some node ->
  (forall i, 1 <= i <= FileTransport.maxIndex_of tr ->
             files w !! ("." +:+ Js.number_to_string i) = None) ->
  (forall i, backup_of tr i = "." +:+ Js.number_to_string i) /\
  trace (snd (FileTransport.rotateFile tr w))
  = trace w ++ [StreamEnd (FileTransport.stream_path s);
                FsRename (FileTransport.currentFilePath tr) ".1";
                StreamOpen (FileTransport.currentFilePath tr)
                  (FileTransport.mode (FileTransport.options tr))] /\
  files (snd (FileTransport.rotateFile tr w)) !! ".1"%string = Some node.
Proof.
  intros Hext Hs Hm Hact Hnone.
  pose proof (fun i => FileNames.backup_of_without_extension tr i Hext) as Hb.
  split; [exact Hb|].
  unfold FileTransport.rotateFile. rewrite Hs.
  change (FileTransport.renameOldFiles (FileTransport.set_writeStream None tr) ?w1)
    with (FileTransport.renameOldFiles tr w1).
  set (w1 := emit (StreamEnd (FileTransport.stream_path s)) w).
  unfold FileTransport.renameOldFiles, FileTransport.renameOldFiles_try.
  set (base := FileTransport.basePath_of tr) in *.
  set (ext := FileTransport.ext_of tr) in *.
  set (m := FileTransport.maxIndex_of tr) in *.
  assert (forall i, 1 <= i <= m -> files w1 !! FileTransport.backup base i ext = None) as Hfree.
  { intros i Hi. change (files w !! backup_of tr i = None). rewrite Hb. by apply Hnone. }
  rewrite (Rotation.existsSync_None _ w1) by (apply Hfree; lia).
  destruct (Rotation.shift_backups_spec base ext (Z.to_nat (m - 1)) w1)
    as (w2 & -> & Hh2 & Hid2 & Ht2 & _ & _ & Hrest & _).
  { apply Hfree. lia. }
  rewrite (FileNames.shift_events_none base ext) in Ht2 by (intros i Hi; apply Hfree; lia).
  assert (files w2 !! FileTransport.currentFilePath tr = Some node) as Hact2.
  { rewrite Hrest; [exact Hact|]. intros i Hi Heq.
    assert (files w1 !! FileTransport.backup base i ext = None) as Hn by (apply Hfree; lia).
    rewrite <- Heq in Hn. simpl in Hn. congruence. }
  unfold FileTransport.attempt, Fs.renameSync. rewrite Hact2.
  assert (FileTransport.backup base 1 ext = ".1"%string) as ->.
  { change (backup_of tr 1 = ".1"%string). by rewrite Hb. }
  unfold FileTransport.createWriteStream, Fs.open. simpl.
  assert (".1"%string <> FileTransport.currentFilePath tr) as Hne.
  { intros Heq. specialize (Hnone 1 ltac:(lia)).
    change ("." +:+ Js.number_to_string 1) with ".1"%string in Hnone. congruence. }
  split.
  - rewrite Ht2. simpl. rewrite app_nil_r, <- !app_assoc. done.
  - rewrite lookup_insert_ne by done. by rewrite lookup_insert_eq.
Qed.

Lemma X14_witness :
  trace (snd (FileTransport.rotateFile file_sample_without_extension
                (world_with [("logs/app", "old")]%string)))
  = [StreamEnd "logs/app"; FsRename "logs/app" ".1"; StreamOpen "logs/app" (Some ModeA)].
Proof.
  refine (proj1 (proj2
    (X14_file_without_extension_rotates_to_dot_one file_sample_without_extension
       (world_with [("logs/app", "old")]%string) _ (File "old") eq_refl eq_refl _ eq_refl _))).
  - vm_compute. discriminate.
  - intros i Hi. apply lookup_singleton_ne.
    intros H. cbn in H. discriminate H.
Defined.

Module FileClock.
Import FileTransport FileTransportTime.

Lemma shouldRotateByTime_same_instant cal tr :
  shouldRotateByTime cal tr (lastRotationCheck tr) = false.
Proof.
  unfold shouldRotateByTime. destruct (datePattern (options tr)) as [[| | |]|];
    rewrite ?Z.eqb_refl; done.
Qed.

Lemma rotateFile_keeps_clock tr w :
  options (fst (rotateFile tr w)) = options tr /\
  lastRotationCheck (fst (rotateFile tr w)) = lastRotationCheck tr.
Proof.
  unfold rotateFile. destruct (writeStream tr); [|done].
  unfold createWriteStream. simpl. done.
Qed.

End FileClock.

(** X15: a rotation by the calendar is not repeated for the same instant:
    when the rotation interval fires twice with the same clock reading, the
    second call finds nothing due and leaves the transport and the files as
    the first call left them.  In particular no rotation is due at the
    instant of the last rotation check. *)
Theorem X15_file_time_rotation_is_not_repeated cal now tr w :
  let st := FileTransportTime.onRotationInterval cal now tr w in
  FileTransportTime.onRotationInterval cal now (fst st) (snd st) = st /\
  FileTransportTime.shouldRotateByTime cal tr (FileTransport.lastRotationCheck tr) = false.
Proof.
  split; [|apply FileClock.shouldRotateByTime_same_instant].
  unfold FileTransportTime.onRotationInterval, FileTransport.checkTimeRotation.
  destruct (FileTransportTime.shouldRotateByTime cal tr now) eqn:Hdue; simpl.
  - destruct (FileClock.rotateFile_keeps_clock (FileTransport.set_lastRotationCheck now tr) w)
      as (Ho & Hl).
    destruct (FileTransport.rotateFile _ w) as [tr1 w1]. simpl in *.
    assert (FileTransportTime.shouldRotateByTime cal tr1 now = false) as ->; [|done].
    rewrite <- Hl. apply FileClock.shouldRotateByTime_same_instant.
  - by rewrite Hdue.
Qed.

(** X16: a finer date pattern rotates at least as often as a coarser one:
    whenever a rotation is due under [monthly] it is due under [daily], and
    whenever it is due under [daily] it is due under [hourly], for the same
    last check and the same clock reading. *)
Theorem X16_file_finer_pattern_rotates_more cal tr1 tr2 p q now :
  FileTransport.datePattern (FileTransport.options tr1) = Some p ->
  FileTransport.datePattern (FileTransport.options tr2) = Some q ->
  finer_than p q = true ->
  FileTransport.lastRotationCheck tr1 = FileTransport.lastRotationCheck tr2 ->
  FileTransportTime.shouldRotateByTime cal tr2 now = true ->
  FileTransportTime.shouldRotateByTime cal tr1 now = true.
Proof.
  intros Hp Hq Hfiner Hlast. unfold FileTransportTime.shouldRotateByTime.
  rewrite Hp, Hq, Hlast.
  destruct p, q; try discriminate Hfiner; clear;
    repeat match goal with |- context [negb (?a =? ?b)] =>
      destruct (negb (a =? b)) end; simpl; try done.
Qed.

Lemma X16_witness :
  FileTransportTime.shouldRotateByTime sample_calendar
    (FileTransport.set_lastRotationCheck 0
       {| FileTransport.options := FileTransport.with_defaults
            {| FileTransport.minLevel := None; FileTransport.filename := Some "app.log"%string;
               FileTransport.directory := None; FileTransport.mode := None;
               FileTransport.maxSize := None; FileTransport.maxFiles := None;
               FileTransport.datePattern := Some FileTransport.Hourly;
               FileTransport.format := None |};
          FileTransport.currentSize := 0; FileTransport.currentFilePath := "app.log";
          FileTransport.writeStream := None; FileTransport.lastRotationCheck := 0;
          FileTransport.rotationCheckInterval := None |})
    86400000 = true.
Proof.
  apply (X16_file_finer_pattern_rotates_more sample_calendar _
           (FileTransport.set_lastRotationCheck 0
              {| FileTransport.options := FileTransport.with_defaults
                   {| FileTransport.minLevel := None;
                      FileTransport.filename := Some "app.log"%string;
                      FileTransport.directory := None; FileTransport.mode := None;
                      FileTransport.maxSize := None; FileTransport.maxFiles := None;
                      FileTransport.datePattern := Some FileTransport.Daily;
                      FileTransport.format := None |};
                 FileTransport.currentSize := 0; FileTransport.currentFilePath := "app.log";
                 FileTransport.writeStream := None; FileTransport.lastRotationCheck := 0;
                 FileTransport.rotationCheckInterval := None |})
           FileTransport.Hourly FileTransport.Daily 86400000);
    reflexivity.
Defined.

(** X17: under the [weekly] pattern a rotation is due exactly when the last
    check and the clock reading lie in different periods of 604800000
    milliseconds counted from the epoch: the weeks of the transport are
    fixed seven-day periods of universal time that begin with the epoch,
    and the calendar of the platform plays no part. *)
Theorem X17_file_weekly_rotation_counts_from_epoch cal tr now :
  FileTransport.datePattern (FileTransport.options tr) = Some FileTransport.Weekly ->
  FileTransportTime.shouldRotateByTime cal tr now
  = negb (FileTransport.lastRotationCheck tr / 604800000 =? now / 604800000).
Proof.
  intros Hp. unfold FileTransportTime.shouldRotateByTime. rewrite Hp.
  change (24 * 60 * 60 * 1000) with 86400000.
  rewrite !Z.div_div by lia. reflexivity.
Qed.

Lemma X17_witness :
  FileTransportTime.shouldRotateByTime sample_calendar file_sample_without_extension
    1672876800000 = true.
Proof.
  rewrite (X17_file_weekly_rotation_counts_from_epoch sample_calendar
             file_sample_without_extension 1672876800000 eq_refl).
  reflexivity.
Defined.

(** ** The console transport and the text lines *)

Module Lines.

Lemma includes_here s pre post : includes (pre +:+ s +:+ post) s.
Proof. by exists pre, post. Qed.






End Lines.

(** X18: the text line of the file transport is the line of the console
    transport in its [simple] format, with the timestamp and the level
    shown, followed by a line feed: the two transports render an entry in
    the same way. *)
Theorem X18_file_text_line_is_console_simple_line js trF trC e :
  FileTransport.format (FileTransport.options trF) <> Some FileTransport.FormatJson ->
  Js.truthy (Js.of_bool (ConsoleTransport.showTimestamp (ConsoleTransport.options trC))) = true ->
  Js.truthy (Js.of_bool (ConsoleTransport.showLevel (ConsoleTransport.options trC))) = true ->
  FileTransport.render js trF e = ConsoleTransport.formatSimple js trC e +:+ Js.LF.
Proof.
  intros Hfmt Hts Hlv. unfold FileTransport.render, ConsoleTransport.formatSimple.
  rewrite Hts, Hlv.
  assert ("[" +:+ timestamp e +:+ "] [" +:+ LogLevel_upper (level e) +:+ "] " +:+ message e
          = (("" +:+ "[" +:+ timestamp e +:+ "] ") +:+ "[" +:+ LogLevel_upper (level e) +:+ "] ")
            +:+ message e) as ->.
  { rewrite !Names.append_assoc. done. }
  destruct (FileTransport.format (FileTransport.options trF)) as [[|]|]; done.
Qed.

Lemma X18_witness :
  FileTransport.render sample_stringify (file_sample 5) (sample_entry 1%nat)
  = ConsoleTransport.formatSimple sample_stringify (console_sample None) (sample_entry 1%nat)
    +:+ Js.LF.
Proof.
  apply (X18_file_text_line_is_console_simple_line sample_stringify (file_sample 5)
           (console_sample None) (sample_entry 1%nat)).
  - discriminate.
  - reflexivity.
  - reflexivity.
Defined.


(** ** Filters *)

Module FilterFacts.



End FilterFacts.


(** ** Formats *)

Module ObjectFacts.
Import JsObject.

Lemma get_replace_eq k v o : is_Some (get k o) -> get k (replace k v o) = Some v.
Proof.
  induction o as [|[k' v'] o IH]; simpl; [by intros [? ?]|].
  destruct (String.eqb_spec k' k) as [->|Hne]; simpl.
  - by rewrite String.eqb_refl.
  - intros H. destruct (String.eqb_spec k' k); [done|]. by apply IH.
Qed.

Lemma get_replace_ne k k' v o : k' <> k -> get k' (replace k v o) = get k' o.
Proof.
  intros Hne. induction o as [|[k0 v0] o IH]; simpl; [done|].
  destruct (String.eqb_spec k0 k) as [->|Hk]; simpl.
  - destruct (String.eqb_spec k k'); [by subst|]. done.
  - destruct (String.eqb_spec k0 k'); [done|]. apply IH.
Qed.

Lemma get_insert_index_eq n k v o : get k (insert_index n k v o) = Some v \/ is_Some (get k o).
Proof.
  induction o as [|[k' v'] o IH]; simpl.
  { left. by rewrite String.eqb_refl. }
  destruct (String.eqb_spec k' k) as [->|Hne]; [right; eauto|].
  destruct (array_index k') as [n'|]; [destruct (n' <? n)%N|]; simpl.
  - destruct (String.eqb_spec k' k); [done|]. exact IH.
  - left. by rewrite String.eqb_refl.
  - left. by rewrite String.eqb_refl.
Qed.

Lemma get_insert_index_ne n k k' v o : k' <> k -> get k' (insert_index n k v o) = get k' o.
Proof.
  intros Hne. induction o as [|[k0 v0] o IH]; simpl.
  { destruct (String.eqb_spec k k'); [by subst|]. done. }
  destruct (array_index k0) as [n'|]; [destruct (n' <? n)%N|]; simpl.
  - destruct (String.eqb_spec k0 k'); [done|]. exact IH.
  - destruct (String.eqb_spec k k'); [by subst|]. done.
  - destruct (String.eqb_spec k k'); [by subst|]. done.
Qed.

Lemma get_snoc k k' v o :
  get k' (o ++ [(k, v)])
  = match get k' o with Some x => Some x | None => if String.eqb k k' then Some v else None end.
Proof.
  induction o as [|[k0 v0] o IH]; simpl; [done|].
  by destruct (String.eqb k0 k').
Qed.

(** Reading a property that has just been written gives what was written. *)
Lemma get_set_eq k v o : get k (set k v o) = Some v.
Proof.
  unfold set. destruct (get k o) as [x|] eqn:E.
  - apply get_replace_eq. by rewrite E.
  - destruct (array_index k) as [n|].
    + destruct (get_insert_index_eq n k v o) as [H|[x H]]; [done | congruence].
    + by rewrite get_snoc, E, String.eqb_refl.
Qed.

(** Writing a property leaves the other properties as they are. *)
Lemma get_set_ne k k' v o : k' <> k -> get k' (set k v o) = get k' o.
Proof.
  intros Hne. unfold set. destruct (get k o) as [x|] eqn:E.
  - by apply get_replace_ne.
  - destruct (array_index k) as [n|].
    + by apply get_insert_index_ne.
    + rewrite get_snoc. destruct (get k' o); [done|].
      destruct (String.eqb_spec k k'); [by subst|]. done.
Qed.

Lemma get_not_in k o : k ∉ map fst o -> get k o = None.
Proof.
  induction o as [|[k' v'] o IH]; simpl; [done|].
  intros H. apply not_elem_of_cons in H as [Hne Hin].
  destruct (String.eqb_spec k' k); [by subst|]. by apply IH.
Qed.

(** Copying the properties of an object whose keys are distinct. *)
Lemma get_assign k source : forall target,
  NoDup (map fst source) ->
  get k (assign target source)
  = match get k source with Some v => Some v | None => get k target end.
Proof.
  unfold assign. induction source as [|[k1 v1] source IH]; intros target Hnd; simpl; [done|].
  apply NoDup_cons in Hnd as [Hk1 Hnd]. rewrite IH by done.
  destruct (String.eqb_spec k1 k) as [->|Hne].
  - by rewrite (get_not_in k source), get_set_eq.
  - destruct (get k source); [done|]. by apply get_set_ne.
Qed.

End ObjectFacts.

(** The simple format cannot be given an empty separator: a separator
    set to the empty string is replaced by the default (a space, or a line
    feed before the stack trace), so a formatter built with empty
    separators is the formatter built with none, and prints every entry in
    the same way. *)
Theorem simple_format_empty_separators_are_defaults pf o e :
  SimpleFormat.new (with_separators (Some "") (Some "") (Some "") (Some "") o)
  = SimpleFormat.new (with_separators None None None None o) /\
  SimpleFormat.format pf
    (SimpleFormat.new (with_separators (Some "") (Some "") (Some "") (Some "") o)) e
  = SimpleFormat.format pf (SimpleFormat.new (with_separators None None None None o)) e /\
  BaseFormat.timestampSeparator
    (SimpleFormat.new (with_separators (Some "") (Some "") (Some "") (Some "") o))
  = Some " "%string.
Proof.
  assert (SimpleFormat.new (with_separators (Some "") (Some "") (Some "") (Some "") o)
          = SimpleFormat.new (with_separators None None None None o)) as H by done.
  split; [exact H|]. split; [by rewrite H | done].
Qed.

(** X22: on an entry whose timestamp is in the form that [toISOString]
    prints, the simple format with its default options prints the line of
    the console transport in its [simple] format: [[timestamp] [LEVEL]
    message], then the metadata as JSON after a space, then the stack trace
    after a line feed. *)
Theorem X22_simple_format_prints_the_console_line pf js trC e :
  BaseFormat.Date_toISOString pf (timestamp e) = Some (timestamp e) ->
  timestamp e <> ""%string ->
  (forall v, BaseFormat.JSON_stringify pf v (Some 0) = js v) ->
  (Js.truthy (meta e) = true -> js (meta e) <> ""%string) ->
  Js.truthy (Js.of_bool (ConsoleTransport.showTimestamp (ConsoleTransport.options trC))) = true ->
  Js.truthy (Js.of_bool (ConsoleTransport.showLevel (ConsoleTransport.options trC))) = true ->
  SimpleFormat.format pf (SimpleFormat.new no_format_options) e
  = ConsoleTransport.formatSimple js trC e.
Proof.
  intros Hiso Hts Hjs Hmeta Hsts Hslv.
  unfold SimpleFormat.format, ConsoleTransport.formatSimple.
  rewrite Hsts, Hslv.
  unfold BaseFormat.formatTimestamp, BaseFormat.formatLevel, BaseFormat.formatMeta,
    BaseFormat.formatStackTrace. simpl. rewrite Hiso, Hjs. simpl.
  destruct (String.eqb_spec (timestamp e) ""); [done|]. simpl.
  assert ((LogLevel_upper (level e) =? "")%string = false) as -> by (by destruct (level e)).
  simpl.
  destruct (Js.truthy (meta e)) eqn:Hm; simpl.
  - destruct (String.eqb_spec (js (meta e)) ""); [by destruct Hmeta|]. simpl.
    destruct (stackTrace e) as [s|]; simpl.
    + destruct (String.eqb_spec s ""); simpl;
        repeat (destruct (String.eqb_spec s ""); try done; simpl);
        rewrite !Names.append_assoc; reflexivity.
    + rewrite !Names.append_assoc. reflexivity.
  - destruct (stackTrace e) as [s|]; simpl.
    + destruct (String.eqb_spec s ""); simpl;
        repeat (destruct (String.eqb_spec s ""); try done; simpl);
        rewrite !Names.append_assoc; reflexivity.
    + rewrite !Names.append_assoc. reflexivity.
Qed.

Lemma X22_witness :
  SimpleFormat.format sample_platform (SimpleFormat.new no_format_options) (sample_entry 1%nat)
  = ConsoleTransport.formatSimple sample_stringify (console_sample None) (sample_entry 1%nat).
Proof.
  apply (X22_simple_format_prints_the_console_line sample_platform sample_stringify
           (console_sample None) (sample_entry 1%nat)).
  - reflexivity.
  - discriminate.
  - reflexivity.
  - intros _. discriminate.
  - reflexivity.
  - reflexivity.
Defined.



(** ** The logger *)

Module TaskFacts.
Import Logger.

Lemma increasing_snoc l x : increasing l -> Forall (fun y => (y < x)%nat) l -> increasing (l ++ [x]).
Proof.
  induction l as [|a l IH]; simpl; [done|].
  intros [Ha Hl] Hx. apply Forall_cons in Hx as [Hax Hx]. split.
  - apply Forall_app. split; [done|]. by apply Forall_singleton.
  - by apply IH.
Qed.

Lemma increasing_tail l : increasing l -> increasing (tail l).
Proof. destruct l; simpl; [done | by intros [_ ?]]. Qed.

Lemma calls_to_called i j e h :
  calls_to i (Called j e :: h) = (if (j =? i)%nat then [e] else []) ++ calls_to i h.
Proof. unfold calls_to. simpl. by destruct (j =? i)%nat. Qed.

Lemma calls_to_seq i e k : forall a,
  calls_to i (map (fun j => Called j e) (seq a k))
  = if (a <=? i)%nat && (i <? a + k)%nat then [e] else [].
Proof.
  induction k as [|k IH]; intros a.
  { change (seq a 0) with (@nil nat).
    destruct (Nat.leb_spec a i), (Nat.ltb_spec i (a + 0)); simpl; try done. lia. }
  change (seq a (S k)) with (a :: seq (S a) k).
  change (map (fun j => Called j e) (a :: seq (S a) k))
    with (Called a e :: map (fun j => Called j e) (seq (S a) k)).
  rewrite calls_to_called, IH.
  destruct (Nat.eqb_spec a i), (Nat.leb_spec (S a) i), (Nat.ltb_spec i (S a + k)),
    (Nat.leb_spec a i), (Nat.ltb_spec i (a + S k)); simpl; try done; lia.
Qed.

Lemma drains_app l1 l2 : drains (l1 ++ l2) = drains l1 ++ drains l2.
Proof. apply List.filter_app. Qed.

(** Taking the only drain out of the suspended calls leaves none. *)
Lemma drains_delete_drain l : forall k t d,
  drains l = option_list d -> l !! k = Some t -> is_drain t = true ->
  d = Some t /\ drains (delete k l) = [].
Proof.
  induction l as [|a l IH]; intros k t d Hd Hk Ht; [done|].
  destruct k as [|k]; simpl in *.
  - injection Hk as ->. rewrite Ht in Hd.
    destruct d as [d|]; [|done]. simpl in Hd. injection Hd as -> Hd. done.
  - destruct (is_drain a) eqn:Ha.
    + destruct d as [d|]; [|done]. simpl in Hd. injection Hd as -> Hd.
      destruct (IH k t None Hd Hk Ht) as [? _]. done.
    + destruct (IH k t d Hd Hk Ht) as [-> Hr]. by rewrite Hr.
Qed.

Lemma drains_delete_other l : forall k t,
  l !! k = Some t -> is_drain t = false -> drains (delete k l) = drains l.
Proof.
  induction l as [|a l IH]; intros k t Hk Ht; [done|].
  destruct k as [|k]; simpl in *.
  - injection Hk as ->. by rewrite Ht.
  - destruct (is_drain a); [f_equal|]; by eapply IH.
Qed.

End TaskFacts.

Module LoggerFacts.
Import Logger.

Section WithTransports.

Variable T : Type.
Variable tlog : T -> loc -> World -> T * World * bool.
Variable tclose : T -> option (World -> T * World * bool).

Lemma same_settings_refl (lg : Logger.t T) : same_settings lg lg.
Proof. by repeat split. Qed.

Lemma same_settings_trans (lg1 lg2 lg3 : Logger.t T) :
  same_settings lg1 lg2 -> same_settings lg2 lg3 -> same_settings lg1 lg3.
Proof.
  intros (? & ? & ? & ? & ?) (? & ? & ? & ? & ?). repeat split; congruence.
Qed.

(** The loop over the transports calls [log] on consecutive transports
    with the same entry, and stops at the first call that returns. *)
Lemma writeToTransports_from_spec n : forall i e lg w,
  let r := writeToTransports_from tlog n i e lg w in
  same_settings lg (fst (fst (fst r))) /\
  exists k, snd (fst r) = map (fun j => Called j e) (seq i k) /\
            match snd r with
            | Some j => (1 <= k)%nat /\ j = (i + k - 1)%nat
            | None => True
            end.
Proof.
  induction n as [|n IH]; intros i e lg w; simpl.
  { split; [apply same_settings_refl|]. by exists 0%nat. }
  destruct (transports lg !! i) as [tr|] eqn:Hi; simpl.
  2:{ split; [apply same_settings_refl|]. by exists 0%nat. }
  destruct (tlog tr e w) as [[tr1 w1] threw]. destruct threw.
  - specialize (IH (S i) e (set_transports (<[i:=tr1]> (transports lg)) lg)
                  (emit (ConsoleError "Transport write error:") w1)).
    destruct (writeToTransports_from tlog n (S i) e _ _) as [[[lg2 w3] obs] r]. simpl in *.
    destruct IH as (Hs & k & -> & Hr). split.
    + eapply same_settings_trans; [|exact Hs].
      repeat split; simpl; try done. by rewrite length_insert.
    + exists (S k). split; [done|]. destruct r as [j|]; [|done].
      destruct Hr as [Hk ->]. split; lia.
  - simpl. split.
    + repeat split; simpl; try done. by rewrite length_insert.
    + exists 1%nat. split; [done|]. split; lia.
Qed.

Lemma writeToTransports_spec after e drain lg w :
  let start := match after with Some i => S i | None => 0%nat end in
  let out := writeToTransports tlog after e drain lg w in
  same_settings lg (logger out) /\
  exists k, seen out = map (fun j => Called j e) (seq start k) /\
            (suspended out = (if drain then [InDrain] else []) \/
             (1 <= k)%nat /\ suspended out = [InWrite e (start + k - 1) drain]).
Proof.
  intros start out. subst out. unfold writeToTransports. fold start.
  pose proof (writeToTransports_from_spec (length (transports lg) - start) start e lg w) as H.
  destruct (writeToTransports_from tlog _ start e lg w) as [[[lg1 w1] obs] r]. simpl in *.
  destruct H as (Hs & k & -> & Hr). split; [exact Hs|].
  exists k. split; [done|]. destruct r as [j|]; [|by left].
  destruct Hr as [Hk ->]. by right.
Qed.

Lemma close_from_spec n : forall i lg w,
  let out := close_from tclose n i lg w in
  same_settings lg (logger out) /\
  (forall j, calls_to j (seen out) = []) /\ evictions (seen out) = [] /\
  drains (suspended out) = [] /\
  Forall (fun t => match t with InWrite _ _ _ => False | _ => True end) (suspended out).
Proof.
  induction n as [|n IH]; intros i lg w; simpl.
  { split; [apply same_settings_refl|]. by repeat split. }
  destruct (transports lg !! i) as [tr|]; simpl.
  2:{ split; [apply same_settings_refl|]. by repeat split. }
  destruct (tclose tr) as [c|]; [|apply IH].
  destruct (c w) as [[tr1 w1] threw]. destruct threw; simpl.
  - split; [|by repeat split].
    repeat split; simpl; try done. by rewrite length_insert.
  - split; [|by repeat split; try done; repeat constructor].
    repeat split; simpl; try done. by rewrite length_insert.
Qed.

Lemma calls_to_app i h1 h2 : calls_to i (h1 ++ h2) = calls_to i h1 ++ calls_to i h2.
Proof. unfold calls_to. apply omap_app. Qed.

Lemma evictions_app h1 h2 : evictions (h1 ++ h2) = evictions h1 ++ evictions h2.
Proof. unfold evictions. apply omap_app. Qed.

Lemma evictions_calls e js : evictions (map (fun j => Called j e) js) = [].
Proof. by induction js. Qed.

Lemma writeToTransports_settles after e drain lg w :
  settles lg (writeToTransports tlog after e drain lg w).
Proof.
  destruct (writeToTransports_spec after e drain lg w) as ((Ho & Hq & _ & Hc & _) & k & Hs & _).
  repeat split; [done | congruence | by rewrite Hq |].
  rewrite Hs. apply evictions_calls.
Qed.

Lemma processQueue_loop_settles lg w : settles lg (processQueue_loop tlog lg w).
Proof.
  unfold processQueue_loop. destruct (queue lg) as [|e rest] eqn:Hq.
  { repeat split; simpl; try done; rewrite ?Hq; done. }
  destruct (writeToTransports_settles None e true (set_queue rest lg) w) as (Ho & Hc & Hl & He).
  repeat split; try done. simpl in *. rewrite Hq. simpl. lia.
Qed.

Lemma processQueue_settles lg w : settles lg (processQueue tlog lg w).
Proof.
  unfold processQueue. destruct (_ || _); [by repeat split|].
  destruct (processQueue_loop_settles (set_isProcessingQueue true lg) w) as (Ho & Hc & Hl & He).
  by repeat split.
Qed.

Lemma close_from_settles n i lg w : settles lg (close_from tclose n i lg w).
Proof.
  destruct (close_from_spec n i lg w) as ((Ho & Hq & _ & Hc & _) & _ & He & _).
  repeat split; [done | congruence | by rewrite Hq | done].
Qed.

Lemma processRemainingLogs_settles lg w : settles lg (processRemainingLogs tlog tclose lg w).
Proof.
  unfold processRemainingLogs. destruct (0 <? _)%nat; [|apply close_from_settles].
  destruct (processQueue_settles lg w) as (Ho & Hc & Hl & He). by repeat split.
Qed.

Lemma resume_settles task rejected lg w : settles lg (resume tlog tclose task rejected lg w).
Proof.
  destruct task as [e i d| | |id|i]; simpl.
  - apply writeToTransports_settles.
  - apply processQueue_loop_settles.
  - by repeat split.
  - apply processRemainingLogs_settles.
  - destruct rejected; [by repeat split|]. apply close_from_settles.
Qed.

(** [enqueueLogEntry] keeps a queue within a positive capacity, and without
    a capacity it gives up nothing. *)
Lemma enqueueLogEntry_spec r lg w :
  let out := enqueueLogEntry tlog r lg w in
  options (logger out) = options lg /\
  (isClosed lg = true -> isClosed (logger out) = true) /\
  (forall c, logQueue (options lg) = Some c -> 0 < c ->
             (length (queue lg) <= Z.to_nat c)%nat ->
             (length (queue (logger out)) <= Z.to_nat c)%nat) /\
  (Js.truthy (Js.of_number (logQueue (options lg))) = false ->
   evictions (seen out) = []).
Proof.
  unfold enqueueLogEntry.
  set (full := _ && _).
  set (lg1 := if full then set_queue (tail (queue lg)) lg else lg).
  set (lg2 := set_queue (queue lg1 ++ [r]) lg1).
  set (out := if negb (isProcessingQueue lg2) then _ else _).
  assert (settles lg2 out) as (Ho & Hc & Hl & He).
  { subst out. destruct (negb _); [apply processQueue_settles | by repeat split]. }
  assert (options lg2 = options lg /\ isClosed lg2 = isClosed lg) as [Ho2 Hc2].
  { subst lg2 lg1. by destruct full. }
  simpl. split; [congruence|]. split; [intros H; apply Hc; congruence|]. split.
  - intros c Hcap Hpos Hlen.
    assert (length (queue lg2) <= Z.to_nat c)%nat; [|lia].
    subst lg2 lg1 full. simpl. rewrite Hcap. simpl.
    destruct (Z.eqb_spec c 0); [lia|]. simpl.
    rewrite Z.geb_leb. destruct (Z.leb_spec c (Z.of_nat (length (queue lg)))); simpl;
      rewrite length_app; simpl.
    + destruct (queue lg); simpl in *; lia.
    + lia.
  - intros Hfalsy. rewrite evictions_app, He.
    subst full. rewrite Hfalsy. done.
Qed.

Lemma processLog_spec l m meta now stack r lg w :
  let out := processLog tlog l m meta now stack r lg w in
  options (logger out) = options lg /\
  (isClosed lg = true -> isClosed (logger out) = true) /\
  (forall c, logQueue (options lg) = Some c -> 0 < c ->
             (length (queue lg) <= Z.to_nat c)%nat ->
             (length (queue (logger out)) <= Z.to_nat c)%nat) /\
  (Js.truthy (Js.of_number (logQueue (options lg))) = false ->
   evictions (seen out) = []).
Proof.
  unfold processLog. destruct (isClosed lg) eqn:Hc; [by repeat split|].
  destruct (Js.truthy (Js.of_bool (asyncLogging (options lg)))).
  - pose proof (enqueueLogEntry_spec r lg (alloc r (createLogEntry lg l m meta now stack) w))
      as H.
    rewrite Hc in H. exact H.
  - destruct (writeToTransports_settles None r false lg
                (alloc r (createLogEntry lg l m meta now stack) w)) as (Ho & Hc' & Hl & He).
    repeat split; try done. intros. lia.
Qed.

(** One step of a run keeps the options, keeps a closed logger closed,
    keeps the queue within a positive capacity, and gives up no entry when
    there is no capacity. *)
Lemma step_spec s a :
  let s' := step tlog tclose s a in
  options (current s') = options (current s) /\
  (isClosed (current s) = true -> isClosed (current s') = true) /\
  (forall c, logQueue (options (current s)) = Some c -> 0 < c ->
             (length (queue (current s)) <= Z.to_nat c)%nat ->
             (length (queue (current s')) <= Z.to_nat c)%nat) /\
  (Js.truthy (Js.of_number (logQueue (options (current s)))) = false ->
   evictions (history s') = evictions (history s)).
Proof.
  destruct a as [l m meta now stack|k rejected|i f|tr|]; simpl.
  - destruct (processLog_spec l m meta now stack (next_entry s) (current s) (platform s))
      as (Ho & Hc & Hcap & He).
    repeat split; try done. intros Hf. by rewrite evictions_app, He, app_nil_r.
  - destruct (pending s !! k) as [task|]; [|by repeat split].
    destruct (resume_settles task rejected (current s) (platform s)) as (Ho & Hc & Hl & He).
    simpl. repeat split; try done.
    + intros. lia.
    + intros _. by rewrite evictions_app, He, app_nil_r.
  - destruct (transports (current s) !! i) as [tr|]; [|by repeat split].
    destruct (f tr (platform s)) as [tr1 w1]. by repeat split.
  - by repeat split.
  - destruct (processRemainingLogs_settles (set_isClosed true (current s)) (platform s))
      as (Ho & Hc & Hl & He).
    unfold close. simpl in *. repeat split; try done.
    + intros _. by apply Hc.
    + intros. lia.
    + intros _. by rewrite evictions_app, He, app_nil_r.
Qed.

Lemma run_spec acts : forall s,
  let s' := run tlog tclose acts s in
  options (current s') = options (current s) /\
  (isClosed (current s) = true -> isClosed (current s') = true) /\
  (forall c, logQueue (options (current s)) = Some c -> 0 < c ->
             (length (queue (current s)) <= Z.to_nat c)%nat ->
             (length (queue (current s')) <= Z.to_nat c)%nat) /\
  (Js.truthy (Js.of_number (logQueue (options (current s)))) = false ->
   evictions (history s') = evictions (history s)).
Proof.
  unfold run. induction acts as [|a acts IH]; intros s; simpl; [by repeat split|].
  destruct (step_spec s a) as (Ho & Hc & Hcap & He).
  destruct (IH (step tlog tclose s a)) as (Ho' & Hc' & Hcap' & He').
  repeat split.
  - congruence.
  - auto.
  - intros c H1 H2 H3. apply Hcap'; [congruence | done |]. by apply Hcap.
  - intros Hf. rewrite He' by congruence. by apply He.
Qed.

(** A write of the drain hands the entry to transports that have seen
    only older entries, so every transport still sees the entries in
    order, and none beyond its frontier. *)
Lemma write_keeps_order after e lg w h :
  let start := match after with Some j => S j | None => 0%nat end in
  (forall i, increasing (calls_to i h)) ->
  (forall i, Forall (fun c => (c < if (start <=? i)%nat then e else S e)%nat) (calls_to i h)) ->
  let out := writeToTransports tlog after e true lg w in
  same_settings lg (logger out) /\
  (forall i, increasing (calls_to i (h ++ seen out))) /\
  evictions (seen out) = [] /\
  exists d, suspended out = [d] /\ is_drain d = true /\ detached d = false /\
            (forall e' j b, d = InWrite e' j b -> e' = e) /\
            forall next, (e < next)%nat ->
              forall i, Forall (fun c => (c < frontier (Some d) next i)%nat)
                          (calls_to i (h ++ seen out)).
Proof.
  intros start Hinc Hb out.
  destruct (writeToTransports_spec after e true lg w) as (Hs & k & Hseen & Hsusp).
  fold start in Hseen, Hsusp. fold out in Hs, Hseen, Hsusp.
  split; [exact Hs|].
  assert (forall i, calls_to i (h ++ seen out)
                    = calls_to i h ++ if (start <=? i)%nat && (i <? start + k)%nat
                                      then [e] else []) as Hcalls.
  { intros i. by rewrite calls_to_app, Hseen, TaskFacts.calls_to_seq. }
  split; [|split].
  - intros i. rewrite Hcalls. specialize (Hb i).
    destruct (Nat.leb_spec start i); simpl; [|by rewrite app_nil_r].
    destruct (i <? start + k)%nat; [|by rewrite app_nil_r].
    by apply TaskFacts.increasing_snoc.
  - rewrite Hseen. apply evictions_calls.
  - destruct Hsusp as [Hsusp | [Hk Hsusp]].
    + exists InDrain. split; [done|]. do 3 (split; [done|]).
      intros next Hnext i. rewrite Hcalls. simpl. apply Forall_app. split.
      * eapply Forall_impl; [apply Hb|]. simpl. intros c Hc.
        destruct (start <=? i)%nat; lia.
      * destruct (_ && _); [|done]. apply Forall_singleton. done.
    + exists (InWrite e (start + k - 1) true). split; [done|]. do 2 (split; [done|]).
      split; [by intros ? ? ? [= -> _ _]|].
      intros next Hnext i. rewrite Hcalls. simpl. apply Forall_app. split.
      * eapply Forall_impl; [apply Hb|]. simpl. intros c Hc.
        destruct (Nat.leb_spec start i), (Nat.leb_spec i (start + k - 1)); lia.
      * destruct (Nat.leb_spec start i), (Nat.ltb_spec i (start + k)); simpl; try done.
        apply Forall_singleton.
        destruct (Nat.leb_spec i (start + k - 1)); lia.
Qed.

Lemma next_up_unfold (s : System T) :
  next_up s = default (next_entry s) (head (queue (current s))).
Proof. done. Qed.

(** A quiet method keeps the entries in order. *)
Lemma quiet_keeps_order (s : System T) out rest :
  in_order s ->
  quiet (current s) out ->
  drains rest = drains (pending s) ->
  Forall (fun t => detached t = false) rest ->
  in_order {| current := logger out; pending := rest ++ suspended out;
              next_entry := next_entry s; platform := world out;
              history := history s ++ seen out |}.
Proof.
  intros (d & Hd & Hp & Hq & He & Hdet & Hsort & Hfresh & Hfront & Hinc & Hasync)
         (Qo & Qq & Qp & Qc & Qd & Qdet) Hrest Hrdet.
  exists d. unfold next_up in *. simpl.
  rewrite TaskFacts.drains_app, Qd, app_nil_r, Hrest, Qq, Qp, Qo.
  split; [done|]. split; [done|]. split; [done|]. split; [done|].
  split; [by apply Forall_app|]. split; [done|]. split; [done|].
  split; [|split; [|done]]; intros i; rewrite calls_to_app, Qc, app_nil_r; auto.
Qed.

Lemma close_from_quiet n i lg w : quiet lg (close_from tclose n i lg w).
Proof.
  destruct (close_from_spec n i lg w) as ((Ho & Hq & Hp & _) & Hc & _ & Hd & Hw).
  repeat split; try done.
  eapply Forall_impl; [exact Hw|]. by intros [? ? []| | | |].
Qed.

Lemma processRemainingLogs_quiet lg w :
  (queue lg <> [] -> isProcessingQueue lg = true) ->
  quiet lg (processRemainingLogs tlog tclose lg w).
Proof.
  intros Hbusy. unfold processRemainingLogs.
  destruct (Nat.ltb_spec 0 (length (queue lg))); [|apply close_from_quiet].
  unfold processQueue. rewrite Hbusy by (by destruct (queue lg); simpl in *; [lia|]).
  simpl. repeat split; try done. by repeat constructor.
Qed.

(** The drain takes the head of the queue and writes it. *)
Lemma drain_takes_next lg w h nx e rest :
  queue lg = e :: rest ->
  increasing (e :: rest) ->
  Forall (fun x => (x < nx)%nat) (e :: rest) ->
  (forall i, increasing (calls_to i h)) ->
  (forall i, Forall (fun c => (c < e)%nat) (calls_to i h)) ->
  let out := processQueue_loop tlog lg w in
  options (logger out) = options lg /\
  queue (logger out) = rest /\
  isProcessingQueue (logger out) = isProcessingQueue lg /\
  evictions (seen out) = [] /\
  (forall i, increasing (calls_to i (h ++ seen out))) /\
  exists d, suspended out = [d] /\ is_drain d = true /\ detached d = false /\
            (forall e' j b, d = InWrite e' j b -> (e' < default nx (head rest))%nat) /\
            forall i, Forall (fun c => (c < frontier (Some d) (default nx (head rest)) i)%nat)
                        (calls_to i (h ++ seen out)).
Proof.
  intros Hq [Hlt Hsort] Hfresh Hinc Hb out. subst out.
  unfold processQueue_loop. rewrite Hq.
  destruct (write_keeps_order None e (set_queue rest lg) w h Hinc)
    as ((Ho & Hq' & Hp & _) & Hinc' & Hev & d & Hs & Hd & Hdet & He & Hfront).
  { intros i. simpl. apply Hb. }
  assert (e < default nx (head rest))%nat as Hnext.
  { apply Forall_cons in Hfresh as [He0 _].
    destruct rest as [|a rest]; simpl; [done|].
    by apply Forall_cons in Hlt as [? _]. }
  do 5 (split; [done|]).
  exists d. do 3 (split; [done|]). split.
  - intros e' j b Heq. by rewrite (He e' j b Heq).
  - by apply Hfront.
Qed.

Lemma calls_to_evicted i ev : calls_to i (map Evicted ev) = [].
Proof. by induction ev. Qed.

(** Every step of a run of an asynchronous logger keeps the entries in
    order. *)
Lemma step_in_order (s : System T) a : in_order s -> in_order (step tlog tclose s a).
Proof.
  intros Hin.
  pose proof Hin as (d & Hd & Hp & Hq & He & Hdet & Hsort & Hfresh & Hfront & Hinc & Hasync).
  assert (queue (current s) <> [] -> isProcessingQueue (current s) = true) as Hbusy.
  { intros Hne. rewrite Hp. destruct d; [done|]. by destruct Hne; apply Hq. }
  destruct a as [l m meta now stack|k rejected|i f|tr|]; simpl.
  - (* a log call *)
    unfold processLog. destruct (isClosed (current s)) eqn:Hc.
    { apply (quiet_keeps_order s
               {| logger := current s; world := platform s;
                  seen := [ConsoleWarn "Logger is closed: Message not processed"];
                  suspended := [] |} (pending s)); try done; repeat split; try done. }
    rewrite Hasync. unfold enqueueLogEntry, after.
    set (r := next_entry s).
    set (w1 := alloc r _ (platform s)).
    set (full := _ && _).
    set (q1 := if full then tail (queue (current s)) else queue (current s)).
    assert (queue (if full then set_queue (tail (queue (current s))) (current s)
                   else current s) = q1) as Hq1 by (by subst q1; destruct full).
    assert (options (if full then set_queue (tail (queue (current s))) (current s)
                     else current s) = options (current s)) as Ho1 by (by destruct full).
    assert (isProcessingQueue (if full then set_queue (tail (queue (current s))) (current s)
                               else current s) = isProcessingQueue (current s)) as Hp1
      by (by destruct full).
    set (lg1 := if full then _ else current s) in *.
    assert (increasing q1 /\ Forall (fun x => (x < r)%nat) q1) as [Hs1 Hf1].
    { subst q1. destruct full; [|done]. split; [by apply TaskFacts.increasing_tail|].
      destruct (queue (current s)); simpl; [done|]. by apply Forall_cons in Hfresh as [_ ?]. }
    assert (default r (head (queue (current s))) <= default (S r) (head (q1 ++ [r])))%nat
      as Hnext.
    { subst q1. destruct full.
      - destruct (queue (current s)) as [|a [|b q]]; simpl in *; try lia.
        + apply Forall_cons in Hfresh as [? _]. lia.
        + destruct Hsort as [Hab _]. apply Forall_cons in Hab as [? _]. lia.
      - destruct (queue (current s)) as [|a q]; simpl in *; lia. }
    simpl. rewrite Hp1. destruct d as [t|].
    + (* a drain is under way: the entry waits in the queue *)
      rewrite Hp. simpl. exists (Some t). unfold next_up in *. simpl.
      rewrite app_nil_r, Hq1, Ho1, Hp1.
      split; [done|]. split; [done|]. split; [done|]. split.
      { intros e j b Ht. specialize (He e j b Ht). fold r in He.
        eapply Nat.lt_le_trans; [exact He | exact Hnext]. }
      split; [done|]. split; [by apply TaskFacts.increasing_snoc|]. split.
      { apply Forall_app. split; [|apply Forall_singleton; lia].
        eapply Forall_impl; [exact Hf1|]. simpl. lia. }
      split; [|split; [|done]]; intros i;
        rewrite app_nil_r, calls_to_app, calls_to_evicted, app_nil_r; [|done].
      eapply Forall_impl; [apply Hfront|]. simpl. intros c Hlt.
      destruct t as [e j b| | | |]; simpl in *; fold r in Hlt; try done;
        (eapply Nat.lt_le_trans; [exact Hlt | exact Hnext]).
    + (* no drain is under way: the entry starts one *)
      rewrite Hp. simpl. specialize (Hq eq_refl).
      assert (q1 = []) as Hq1nil by (subst q1; rewrite Hq; by destruct full).
      unfold processQueue. simpl. rewrite Hp1, Hp, Hq1, Hq1nil. simpl.
      destruct (drain_takes_next (set_isProcessingQueue true (set_queue [r] lg1)) w1
                  (history s) (S r) r [])
        as (Ho & Hq' & Hp' & Hev & Hinc' & d' & Hs' & Hd' & Hdet' & He' & Hfront');
        [done | done | by apply Forall_singleton; lia | done | |].
      { intros i. specialize (Hfront i). unfold next_up in Hfront. simpl in Hfront.
        by rewrite Hq in Hfront. }
      assert (map Evicted (if full then option_list (head (queue (current s))) else []) = [])
        as -> by (rewrite Hq; by destruct full).
      simpl. exists (Some d'). unfold next_up. simpl.
      rewrite TaskFacts.drains_app, Hd, Hs', Hq', Hp', Ho. simpl. rewrite Hd', Ho1.
      split; [done|]. split; [done|]. split; [done|]. split; [intros e0 j0 b0 [= Heq]; exact (He' e0 j0 b0 Heq)|].
      split; [apply Forall_app; split; [done | by apply Forall_singleton]|].
      do 2 (split; [done|]). split; [exact Hfront'|]. split; [exact Hinc' | done].
  - (* a suspended call goes on *)
    destruct (pending s !! k) as [task|] eqn:Hk; [|done].
    unfold after. destruct (is_drain task) eqn:Htask.
    + destruct (TaskFacts.drains_delete_drain _ _ _ _ Hd Hk Htask) as [-> Hrest].
      assert (Forall (fun t => detached t = false) (delete k (pending s))) as Hrdet
        by (by apply Forall_delete).
      destruct task as [e j b| | | |]; try done; [destruct b; [|done]|]; simpl.
      * (* the write of the drain goes on *)
        destruct (write_keeps_order (Some j) e (current s)
                    (if rejected then emit (ConsoleError "Transport write error:") (platform s)
                     else platform s) (history s) Hinc)
          as ((Ho & Hq' & Hp' & _) & Hinc' & Hev & d' & Hs' & Hd' & Hdet' & He' & Hfront').
        { intros i. eapply Forall_impl; [apply Hfront|]. intros c Hlt.
          unfold frontier in Hlt. cbv beta in *.
          destruct (Nat.leb_spec i j), (Nat.leb_spec (S j) i); lia. }
        exists (Some d'). unfold next_up in *. simpl.
        rewrite TaskFacts.drains_app, Hrest, Hs', Hq', Hp', Ho. simpl. rewrite Hd'.
        split; [done|]. split; [done|]. split; [done|]. split.
        { intros e' j' b' Heq. injection Heq as ->. rewrite (He' e' j' b' eq_refl).
          by apply (He e j true). }
        split; [apply Forall_app; split; [done | by apply Forall_singleton]|].
        do 2 (split; [done|]). split; [|split; [exact Hinc' | done]].
        apply Hfront'. by apply (He e j true).
      * (* the loop of the drain goes on *)
        destruct (queue (current s)) as [|e rest] eqn:Hqs.
        -- unfold processQueue_loop. rewrite Hqs. simpl.
           exists None. unfold next_up in *. simpl. rewrite Hqs in *.
           rewrite app_nil_r, Hrest. simpl.
           do 4 (split; [done|]). split; [done|].
           do 2 (split; [done|]).
           split; [|split; [|done]]; intros i; rewrite app_nil_r; [apply Hfront | done].
        -- destruct (drain_takes_next (current s) (platform s) (history s)
                      (next_entry s) e rest Hqs Hsort Hfresh Hinc)
             as (Ho & Hq' & Hp' & Hev & Hinc' & d' & Hs' & Hd' & Hdet' & He' & Hfront').
           { intros i. specialize (Hfront i). unfold next_up in Hfront.
             by rewrite Hqs in Hfront. }
           exists (Some d'). unfold next_up. simpl.
           rewrite TaskFacts.drains_app, Hrest, Hs', Hq', Hp', Ho. simpl. rewrite Hd'.
           destruct Hsort as [_ Hsort]. apply Forall_cons in Hfresh as [_ Hfresh].
           split; [done|]. split; [done|]. split; [done|]. split; [intros e0 j0 b0 [= Heq]; exact (He' e0 j0 b0 Heq)|].
           split; [apply Forall_app; split; [done | by apply Forall_singleton]|].
           do 2 (split; [done|]). split; [exact Hfront'|]. split; [exact Hinc' | done].
    + assert (drains (delete k (pending s)) = drains (pending s)) as Hrest
        by (by eapply TaskFacts.drains_delete_other).
      assert (Forall (fun t => detached t = false) (delete k (pending s))) as Hrdet
        by (by apply Forall_delete).
      apply quiet_keeps_order; try done.
      destruct task as [e j b| | | id | j]; try done; simpl.
      * destruct b; [done|].
        assert (detached (InWrite e j false) = false); [|done].
        by apply (Forall_lookup_1 _ _ _ _ Hdet Hk).
      * unfold setTimeout. simpl. repeat split; try done. by repeat constructor.
      * by apply processRemainingLogs_quiet.
      * destruct rejected; [by repeat split|]. apply close_from_quiet.
  - (* a transport changes on its own *)
    destruct (transports (current s) !! i) as [tr|]; [|done].
    destruct (f tr (platform s)) as [tr1 w1].
    exists d. by unfold next_up in *.
  - (* a transport is added *)
    exists d. by unfold next_up in *.
  - (* close is called *)
    unfold close, after.
    pose proof (processRemainingLogs_quiet (set_isClosed true (current s)) (platform s) Hbusy)
      as (Qo & Qq & Qp & Qc & Qd & Qdet).
    apply (quiet_keeps_order s
             (processRemainingLogs tlog tclose (set_isClosed true (current s)) (platform s))
             (pending s)); try done.
Qed.

Lemma run_in_order acts : forall s : System T, in_order s -> in_order (run tlog tclose acts s).
Proof.
  unfold run. induction acts as [|a acts IH]; intros s Hin; simpl; [done|].
  by apply IH, step_in_order.
Qed.

End WithTransports.

End LoggerFacts.

(** X24: the queue of the logger stays within its capacity: with a
    positive [logQueue], a queue that holds at most [logQueue] entries holds
    at most [logQueue] entries after any sequence of log calls, resumptions
    of suspended calls, changes of the transports and calls of [close],
    whatever the transports do. *)
Theorem X24_logger_queue_stays_within_capacity {T} tlog tclose acts (s : Logger.System T) c :
  Logger.logQueue (Logger.options (Logger.current s)) = Some c ->
  0 < c ->
  (length (Logger.queue (Logger.current s)) <= Z.to_nat c)%nat ->
  (length (Logger.queue (Logger.current (Logger.run tlog tclose acts s))) <= Z.to_nat c)%nat.
Proof.
  intros Hc Hpos Hlen.
  destruct (LoggerFacts.run_spec T tlog tclose acts s) as (_ & _ & Hcap & _).
  by apply Hcap.
Qed.

Lemma X24_witness :
  (length (Logger.queue (Logger.current
     (Logger.run default_log default_close [info "a"; info "b"; info "c"; info "d"]
        (Logger.start (sample_logger true 2) sample_world)))) <= 2)%nat.
Proof.
  apply (X24_logger_queue_stays_within_capacity default_log default_close
           [info "a"; info "b"; info "c"; info "d"]
           (Logger.start (sample_logger true 2) sample_world) 2).
  - reflexivity.
  - lia.
  - simpl. lia.
Defined.

(** X25: a [logQueue] of 0 is no capacity: the logger then never shifts
    an entry out of its queue, however many entries wait in it. *)
Theorem X25_logger_without_capacity_gives_up_nothing {T} tlog tclose acts (s : Logger.System T) :
  Js.truthy (Js.of_number (Logger.logQueue (Logger.options (Logger.current s)))) = false ->
  evictions (Logger.history (Logger.run tlog tclose acts s)) = evictions (Logger.history s).
Proof.
  intros Hf. destruct (LoggerFacts.run_spec T tlog tclose acts s) as (_ & _ & _ & He).
  by apply He.
Qed.

Lemma X25_witness :
  evictions (Logger.history
     (Logger.run default_log default_close [info "a"; info "b"; info "c"; info "d"]
        (Logger.start (sample_logger true 0) sample_world))) = [].
Proof.
  apply (X25_logger_without_capacity_gives_up_nothing default_log default_close
           [info "a"; info "b"; info "c"; info "d"]
           (Logger.start (sample_logger true 0) sample_world)).
  reflexivity.
Defined.

(** X26: once [close] has been called the logger stays closed, whatever
    happens afterwards, and every later log call only prints the warning:
    it creates no entry, queues nothing, calls no transport and leaves the
    suspended calls as they are. *)
Theorem X26_closed_logger_only_warns {T} tlog tclose acts (s : Logger.System T)
    l m meta now stack :
  let s1 := Logger.run tlog tclose acts (Logger.step tlog tclose s Logger.Close) in
  Logger.isClosed (Logger.current s1) = true /\
  Logger.step tlog tclose s1 (Logger.Log l m meta now stack)
  = {| Logger.current := Logger.current s1; Logger.pending := Logger.pending s1;
       Logger.next_entry := Logger.next_entry s1; Logger.platform := Logger.platform s1;
       Logger.history :=
         Logger.history s1 ++ [Logger.ConsoleWarn "Logger is closed: Message not processed"] |}.
Proof.
  intros s1.
  assert (Logger.isClosed (Logger.current s1) = true) as Hc.
  { destruct (LoggerFacts.run_spec T tlog tclose acts (Logger.step tlog tclose s Logger.Close))
      as (_ & Hc & _).
    apply Hc. simpl. unfold Logger.close.
    destruct (LoggerFacts.processRemainingLogs_settles T tlog tclose
                (Logger.set_isClosed true (Logger.current s)) (Logger.platform s))
      as (_ & Hc' & _).
    by apply Hc'. }
  split; [exact Hc|].
  simpl. unfold Logger.processLog, Logger.after. rewrite Hc. simpl.
  by rewrite app_nil_r.
Qed.

(** X27: an asynchronous logger hands the entries to each transport in the
    order in which they were logged, and each entry at most once: along any
    run of log calls, resumptions of suspended calls in any order, changes
    of the transports and calls of [close], whatever the transports do, the
    entries given to a transport are entries created by the run, at
    strictly increasing addresses, the address of an entry being the number
    of entries created before it. *)
Theorem X27_async_logger_delivers_in_order {T} tlog tclose acts (lg : Logger.t T) w i :
  Js.truthy (Js.of_bool (Logger.asyncLogging (Logger.options lg))) = true ->
  Logger.queue lg = [] ->
  Logger.isProcessingQueue lg = false ->
  let s := Logger.run tlog tclose acts (Logger.start lg w) in
  increasing (calls_to i (Logger.history s)) /\
  Forall (fun e => (e < Logger.next_entry s)%nat) (calls_to i (Logger.history s)).
Proof.
  intros Hasync Hq Hp s.
  assert (in_order (Logger.start lg w)) as Hstart.
  { exists None. unfold next_up. simpl. rewrite Hq, Hp. repeat split; try done. }
  destruct (LoggerFacts.run_in_order T tlog tclose acts _ Hstart)
    as (d & Hd & Hp' & Hq' & He & Hdet & Hsort & Hfresh & Hfront & Hinc & _).
  fold s in Hd, Hp', Hq', He, Hdet, Hsort, Hfresh, Hfront, Hinc.
  split; [apply Hinc|].
  assert (next_up s <= Logger.next_entry s)%nat as Hnext.
  { unfold next_up. destruct (Logger.queue (Logger.current s)); simpl; [done|].
    apply Forall_cons in Hfresh as [? _]. lia. }
  eapply Forall_impl; [apply Hfront|]. simpl. intros c Hc.
  destruct d as [[e j b| | | |]|]; simpl in Hc; try lia.
  specialize (He e j b eq_refl). destruct (i <=? j)%nat; lia.
Qed.

Lemma X27_witness :
  calls_to 0 (Logger.history
     (Logger.run default_log default_close
        [info "a"; info "b"; info "c"; info "d"; Logger.Resume 0 false; Logger.Resume 0 false;
         Logger.Resume 0 false; Logger.Close; Logger.Resume 0 false]
        (Logger.start (sample_logger true 2) sample_world))) = [0; 2; 3]%nat /\
  increasing [0; 2; 3]%nat.
Proof.
  split; [reflexivity|].
  exact (proj1 (X27_async_logger_delivers_in_order default_log default_close
                  [info "a"; info "b"; info "c"; info "d"; Logger.Resume 0 false;
                   Logger.Resume 0 false; Logger.Resume 0 false; Logger.Close;
                   Logger.Resume 0 false]
                  (sample_logger true 2) sample_world 0 eq_refl eq_refl eq_refl)).
Defined.

(** X28: a child logger merges its own metadata with the metadata of each
    call, and the call wins: a key of the call's metadata hides the same
    key of the child's metadata, and the other keys of both are kept.  The
    result is always an object, hence truthy: an entry logged through a
    child logger always carries metadata, be it the empty object. *)
Theorem X28_child_metadata_are_merged meta additionalMeta k :
  NoDup (map fst (default [] meta)) ->
  NoDup (map fst (JsObject.own_properties additionalMeta)) ->
  exists f,
    Logger.combinedMeta meta additionalMeta = Js.Obj f /\
    Js.truthy (Logger.combinedMeta meta additionalMeta) = true /\
    JsObject.get k f
    = match (if Js.truthy additionalMeta
             then JsObject.get k (JsObject.own_properties additionalMeta) else None) with
      | Some v => Some v
      | None => JsObject.get k (default [] meta)
      end.
Proof.
  intros Hm Ha. eexists. split; [reflexivity|]. split; [done|].
  destruct (Js.truthy additionalMeta).
  - rewrite ObjectFacts.get_assign by done.
    destruct (JsObject.get k (JsObject.own_properties additionalMeta)); [done|].
    rewrite ObjectFacts.get_assign by done. simpl.
    by destruct (JsObject.get k (default [] meta)).
  - simpl. rewrite ObjectFacts.get_assign by done. simpl.
    by destruct (JsObject.get k (default [] meta)).
Qed.

Lemma X28_witness :
  exists f,
    Logger.combinedMeta (Some [("service", Js.Str "api"); ("user", Js.Str "none")]%string)
      (Js.Obj [("user", Js.Str "ada")]%string) = Js.Obj f /\
    JsObject.get "user" f = Some (Js.Str "ada").
Proof.
  destruct (X28_child_metadata_are_merged
              (Some [("service", Js.Str "api"); ("user", Js.Str "none")]%string)
              (Js.Obj [("user", Js.Str "ada")]%string) "user")
    as (f & Hf & _ & Hk).
  - apply (bool_decide_unpack _). vm_compute. exact I.
  - apply (bool_decide_unpack _). vm_compute. exact I.
  - exists f. split; [exact Hf | exact Hk].
Defined.

Module StackFacts.

Lemma slice_frames {A} (lines : list A) limit :
  0 <= limit -> Logger.slice lines 2 (limit + 2) = take (Z.to_nat limit) (drop 2 lines).
Proof.
  intros Hl. unfold Logger.slice.
  destruct (Z.ltb_spec 2 0); [lia|]. destruct (Z.ltb_spec (limit + 2) 0); [lia|].
  destruct (decide (2 <= length lines)%nat) as [Hlen|Hlen].
  - replace (Z.to_nat (2 `min` Z.of_nat (length lines))) with 2%nat by lia.
    destruct (decide (Z.to_nat limit <= length lines - 2)%nat).
    + f_equal. lia.
    + rewrite !take_ge; [done | rewrite length_drop; lia | rewrite length_drop; lia].
  - rewrite (drop_ge lines 2) by lia.
    rewrite (drop_ge lines) by lia. by rewrite !take_nil.
Qed.

End StackFacts.

(** X29: the logger attaches a stack trace to the entries of level [error]
    and [fatal] only, and only when [includeStackTrace] is on: the trace
    is then made of the captured stack without its first two lines, cut
    down to [stackTraceLimit] lines, or to 10 lines when [stackTraceLimit]
    is 0 or unset.  The level, the message and the metadata of the entry
    are those of the call. *)
Theorem X29_stack_trace_only_for_errors {T} (lg : Logger.t T) l m md now stack :
  let e := Logger.createLogEntry lg l m md now stack in
  let limit := Js.number_or (Logger.stackTraceLimit (Logger.options lg)) 10 in
  0 <= limit ->
  level e = l /\ message e = m /\ meta e = md /\
  stackTrace e
  = if (match l with ERROR | FATAL => true | _ => false end)
       && Js.truthy (Js.of_bool (Logger.includeStackTrace (Logger.options lg)))
    then (fun lines => ConsoleTransport.join_lines (take (Z.to_nat limit) (drop 2 lines)))
           <$> stack
    else None.
Proof.
  intros e limit Hl. subst e. unfold Logger.createLogEntry. simpl.
  do 3 (split; [done|]).
  unfold Logger.getStackTrace. fold limit.
  destruct l; simpl; try done;
    (destruct (Js.truthy (Js.of_bool (Logger.includeStackTrace (Logger.options lg)))); simpl;
     [|done]);
    (destruct stack as [lines|]; simpl; [|done]);
    by rewrite StackFacts.slice_frames.
Qed.

Lemma X29_witness :
  stackTrace (Logger.createLogEntry (sample_logger false 0) ERROR "boom" Js.Undefined sample_now
                (Some ["Error"; "    at getStackTrace"; "    at f"; "    at g"]%string))
  = Some (ConsoleTransport.join_lines ["    at f"; "    at g"]%string).
Proof.
  exact (proj2 (proj2 (proj2
    (X29_stack_trace_only_for_errors (sample_logger false 0) ERROR "boom" Js.Undefined
       sample_now (Some ["Error"; "    at getStackTrace"; "    at f"; "    at g"]%string)
       ltac:(simpl; lia))))).
Defined.

Module ShutdownFacts.
Import Logger.

Section WithTransports.

Variable T : Type.
Variable tlog : T -> loc -> World -> T * World * bool.
Variable tclose : T -> option (World -> T * World * bool).
Hypothesis close_returns : forall tr c w, tclose tr = Some c -> snd (c w) = false.

Lemma resumptions_idle n (s : System T) : pending s = [] -> resumptions tlog tclose n s = s.
Proof. intros Hp. induction n as [|n IH]; simpl; [done|]. by rewrite Hp. Qed.

(** From the transport at index [i] on, the loop of the shutdown and the
    resumptions that follow close the transports that are left, one after
    the other, and settle the promise. *)
Lemma close_from_runs rest : forall i (lg : Logger.t T) w h nx n,
  drop i (transports lg) = rest ->
  (length rest <= n)%nat ->
  let out := close_from tclose (length (transports lg) - i) i lg w in
  let s := resumptions tlog tclose n
             {| current := logger out; pending := suspended out; next_entry := nx;
                platform := world out; history := h ++ seen out |} in
  history s = h ++ shutdown_from tclose i rest /\ pending s = [] /\
  same_settings lg (current s).
Proof.
  induction rest as [|tr rest IH]; intros i lg w h nx n Hdrop Hn.
  - assert (length (transports lg) <= i)%nat as Hlen.
    { apply (f_equal length) in Hdrop. rewrite length_drop in Hdrop. simpl in Hdrop. lia. }
    replace (length (transports lg) - i)%nat with 0%nat by lia. simpl.
    rewrite resumptions_idle by done. simpl. split; [done|]. split; [done|].
    apply LoggerFacts.same_settings_refl.
  - assert (transports lg !! i = Some tr) as Hi.
    { pose proof (lookup_drop (transports lg) i 0) as H.
      rewrite Hdrop, Nat.add_0_r in H. by symmetry. }
    assert (drop (S i) (transports lg) = rest) as Hrest.
    { pose proof (drop_S _ _ _ Hi) as H. rewrite Hdrop in H. by injection H. }
    assert (i < length (transports lg))%nat as Hlt by (by eapply lookup_lt_Some).
    replace (length (transports lg) - i)%nat with (S (length (transports lg) - S i)) by lia.
    cbn [close_from shutdown_from]. rewrite Hi.
    destruct (tclose tr) as [c|] eqn:Hc.
    + pose proof (close_returns tr c w Hc) as Hret.
      destruct (c w) as [[tr1 w1] threw]. simpl in Hret. subst threw.
      destruct n as [|n]; [simpl in Hn; lia|].
      cbn [resumptions]. simpl.
      set (lg1 := set_transports (<[i:=tr1]> (transports lg)) lg).
      assert (drop (S i) (transports lg1) = rest) as Hdrop1.
      { subst lg1. simpl. rewrite drop_insert_lt by lia. done. }
      assert (length (transports lg1) = length (transports lg)) as Hlen1
        by (subst lg1; simpl; by rewrite length_insert).
      destruct (IH (S i) lg1 w1 (h ++ [Closed i]) nx n Hdrop1) as (Hh & Hp & Hs);
        [simpl in Hn; lia|].
      unfold after. simpl.
      change (length (<[i:=tr1]> (transports lg))) with (length (transports lg1)).
      rewrite Hh, Hp. split; [by rewrite <- app_assoc|]. split; [done|].
      eapply LoggerFacts.same_settings_trans; [|exact Hs].
      repeat split; try done.
    + destruct (IH (S i) lg w h nx n Hrest) as (Hh & Hp & Hs); [simpl in Hn; lia|].
      done.
Qed.

End WithTransports.

End ShutdownFacts.

(** X30: [close] on a logger whose queue is empty and which has no call
    suspended shuts the transports down in order: it calls [close] on each
    transport that has the method, in the order of the array and one at a
    time, each call being made when the one before has settled, and
    resolves its promise after the last; it calls no transport's [log],
    and the logger is closed from the call on.  This holds when no [close]
    of a transport throws. *)
Theorem X30_close_shuts_transports_down_in_order {T} tlog tclose (s : Logger.System T) n :
  (forall tr c w, tclose tr = Some c -> snd (c w) = false) ->
  Logger.queue (Logger.current s) = [] ->
  Logger.pending s = [] ->
  (length (Logger.transports (Logger.current s)) <= n)%nat ->
  let s' := resumptions tlog tclose n (Logger.step tlog tclose s Logger.Close) in
  Logger.history s'
  = Logger.history s ++ shutdown_from tclose 0 (Logger.transports (Logger.current s)) /\
  Logger.pending s' = [] /\
  Logger.isClosed (Logger.current s') = true.
Proof.
  intros Hret Hq Hp Hn s'. subst s'. simpl.
  unfold Logger.close, Logger.processRemainingLogs, Logger.after. simpl.
  rewrite Hq, Hp. simpl.
  destruct (ShutdownFacts.close_from_runs T tlog tclose Hret
              (Logger.transports (Logger.current s)) 0
              (Logger.set_isClosed true (Logger.current s)) (Logger.platform s)
              (Logger.history s) (Logger.next_entry s) n eq_refl Hn)
    as (Hh & Hp' & (_ & _ & _ & Hc & _)).
  simpl in Hh, Hp', Hc. rewrite Nat.sub_0_r in Hh, Hp', Hc.
  split; [exact Hh|]. split; [exact Hp' | exact Hc].
Qed.

Lemma X30_witness :
  Logger.history
    (resumptions default_log default_close 2
       (Logger.step default_log default_close
          (Logger.start
             (Logger.addTransport (OfFile (file_sample 5)) (sample_logger false 0))
             sample_world)
          Logger.Close))
  = [Logger.Closed 1; Logger.CloseResolved].
Proof.
  refine (proj1 (X30_close_shuts_transports_down_in_order default_log default_close
                   (Logger.start
                      (Logger.addTransport (OfFile (file_sample 5)) (sample_logger false 0))
                      sample_world) 2 _ eq_refl eq_refl _)).
  - intros [c|f] cl w H; simpl in H; [discriminate H|].
    injection H as <-. by destruct (FileTransport.close f w).
  - simpl. lia.
Defined.

(** ** The constructors *)

Module ConstructorFacts.



End ConstructorFacts.

(** X5: the constructor of the WebSocket transport does not fail when
    the constructor of the socket does.  With a url given it returns a
    transport that has no socket and an empty buffer, reports the error
    and treats it like a closed connection: when [reconnect] is on and
    [maxReconnectAttempts] is positive, 0 or unset, one reconnect is
    counted and its timer armed for [reconnectInterval]; otherwise none
    is.  No frame is sent. *)
Theorem X5_ws_constructor_survives_socket_failure o w :
  Js.truthy (Js.of_string (WebSocketTransport.url o)) = true ->
  let opts := WebSocketTransport.with_defaults o in
  exists tr w',
    WebSocketTransport.new true o w = Js.Normal (tr, w') /\
    WebSocketTransport.options tr = opts /\
    WebSocketTransport.socket tr = None /\
    WebSocketTransport.buffer tr = [] /\
    WebSocketTransport.isConnecting tr = false /\
    frames (trace w') = frames (trace w) /\
    if Js.truthy (Js.of_bool (WebSocketTransport.reconnect opts))
       && (negb (Js.truthy (Js.of_number (WebSocketTransport.maxReconnectAttempts opts)))
           || (0 <? Js.number_or (WebSocketTransport.maxReconnectAttempts opts) 0))
    then WebSocketTransport.reconnectAttempts tr = 1 /\
         WebSocketTransport.reconnectTimer tr = Some (next_id w) /\
         timeouts (trace w')
         = timeouts (trace w)
           ++ [SetTimeout (next_id w) (WebSocketTransport.reconnectInterval opts)]
    else WebSocketTransport.reconnectAttempts tr = 0 /\
         WebSocketTransport.reconnectTimer tr = None /\
         timeouts (trace w') = timeouts (trace w).
Proof.
  intros Hu opts. unfold WebSocketTransport.new. rewrite Hu. cbn [negb].
  unfold WebSocketTransport.connect, WebSocketTransport.handleClose.
  cbn -[Z.ltb Js.truthy Js.number_or WebSocketTransport.with_defaults filter].
  fold opts.
  destruct (Js.truthy (Js.of_bool (WebSocketTransport.reconnect opts))
            && (negb (Js.truthy (Js.of_number (WebSocketTransport.maxReconnectAttempts opts)))
                || (0 <? Js.number_or (WebSocketTransport.maxReconnectAttempts opts) 0))).
  - eexists _, _. split; [reflexivity|]. simpl.
    rewrite !WsMore.frames_app, !WsFacts.timeouts_app. simpl. rewrite !app_nil_r.
    repeat split; done.
  - eexists _, _. split; [reflexivity|]. simpl.
    rewrite !WsMore.frames_app, !WsFacts.timeouts_app. simpl. rewrite !app_nil_r.
    repeat split; done.
Qed.

Lemma X5_witness :
  exists tr w',
    WebSocketTransport.new true
      (WebSocketTransport.options (ws_open_sample 100 [])) sample_world = Js.Normal (tr, w') /\
    WebSocketTransport.socket tr = None /\
    WebSocketTransport.reconnectAttempts tr = 1.
Proof.
  destruct (X5_ws_constructor_survives_socket_failure
              (WebSocketTransport.options (ws_open_sample 100 [])) sample_world eq_refl)
    as (tr & w' & Hnew & _ & Hs & _ & _ & _ & Hif).
  exists tr, w'. split; [exact Hnew|]. split; [exact Hs|].
  exact (proj1 Hif).
Defined.

